(** * better-comments: the comment scanner of [src/parser.ts]

    A shallow embedding of the [Parser] class: the tag registry built by
    [setTags], the delimiter table of [setDelimiter], the pattern built by
    [SetRegex], the two scanners [FindSingleLineComments] and
    [FindMultilineComments], and the flush [ApplyDecorations].

    The scanners run JavaScript regular expressions, so the development
    starts with a model of the part of the ECMAScript pattern language the
    class uses: a lexer and a parser for pattern sources, the backtracking
    matcher of the language specification (continuation passing, with the
    empty-iteration check and the capture reset of [RepeatMatcher]) and
    [RegExp.prototype.exec] with the [g] flag.

    Strings are lists of code units.  A code unit is an [ascii], read as
    one of the first 256 UTF-16 code units (Latin-1); case conversion is
    the one JavaScript performs on that range. *)

From Stdlib Require Import Ascii String.
From Stdlib Require Import List Arith Bool Lia.
Import ListNotations.

Set Implicit Arguments.

Local Open Scope list_scope.
Local Open Scope nat_scope.

(** ** Strings *)

Definition str := list ascii.

Definition chars (s : string) : str := list_ascii_of_string s.

Definition TAB : ascii := "009"%char.
Definition LF : ascii := "010"%char.
Definition CR : ascii := "013"%char.
Definition SPACE : ascii := " "%char.
Definition BACKSLASH : ascii := "\"%char.
Definition SLASH : ascii := "/"%char.

Definition code (c : ascii) : nat := nat_of_ascii c.

Definition inRange (lo hi n : nat) : bool := (lo <=? n) && (n <=? hi).

(** Letters of Latin-1 that have a lower-case partner in Latin-1:
    [A-Z] and [U+00C0-U+00DE] without the multiplication sign. *)
Definition isUpper (c : ascii) : bool :=
  inRange 65 90 (code c) || (inRange 192 222 (code c) && negb (code c =? 215)).

(** Letters whose upper-case form is a single Latin-1 code unit: [a-z] and
    [U+00E0-U+00FE] without the division sign.  The sharp s, the micro sign
    and y-diaeresis have no upper-case partner on this range. *)
Definition isLower (c : ascii) : bool :=
  inRange 97 122 (code c) || (inRange 224 254 (code c) && negb (code c =? 247)).

Definition toLowerChar (c : ascii) : ascii :=
  if isUpper c then ascii_of_nat (code c + 32) else c.

(** [String.prototype.toLowerCase] *)
Definition toLowerCase (s : str) : str := map toLowerChar s.

(** [Canonicalize] of the pattern semantics under the [i] flag. *)
Definition canonicalize (c : ascii) : ascii :=
  if isLower c then ascii_of_nat (code c - 32) else c.

Definition isLineTerminator (c : ascii) : bool :=
  Ascii.eqb c LF || Ascii.eqb c CR.

(** White space and line terminators, the class [\s]. *)
Definition isWhiteSpace (c : ascii) : bool :=
  inRange 9 13 (code c) || (code c =? 32) || (code c =? 160).

Fixpoint str_eqb (a b : str) : bool :=
  match a, b with
  | [], [] => true
  | x :: a', y :: b' => Ascii.eqb x y && str_eqb a' b'
  | _, _ => false
  end.

(** ** Pattern syntax *)

Inductive classItem : Type :=
| CIChar (c : ascii)
| CISpace (negated : bool).

Inductive regex : Type :=
| REmpty
| RChar (c : ascii)
| RAny
| RSet (invert : bool) (items : list classItem)
| RBol
| REol
| RSeq (r1 r2 : regex)
| RAlt (r1 r2 : regex)
| RGroup (n : nat) (r : regex)
| RRepeat (min : nat) (max : option nat) (greedy : bool) (r : regex).

Inductive token : Type :=
| TLit (c : ascii)
| TDot
| TCaret
| TDollar
| TBar
| TOpen
| TClose
| TStar
| TPlus
| TQuest
| TSet (invert : bool) (items : list classItem).

(** *** Lexer

    One pass over the pattern source.  Outside a class a backslash starts
    an escape; [\t], [\n], [\r], [\s], [\S] and the identity escapes of
    punctuation are read, every other escape is outside the fragment.
    Inside a class the same escapes are read and a [-] (a range) is outside
    the fragment.  [{] would start a braced quantifier and [(?] a special
    group; neither is read. *)

Inductive lexMode : Type :=
| LNormal
| LEscape
| LClassStart
| LClass (invert : bool) (items : list classItem)
| LClassEscape (invert : bool) (items : list classItem).

Definition isAlnum (c : ascii) : bool :=
  inRange 48 57 (code c) || inRange 65 90 (code c) || inRange 97 122 (code c)
  || (code c =? 95).

Definition escapeItem (c : ascii) : option classItem :=
  if Ascii.eqb c "t" then Some (CIChar TAB)
  else if Ascii.eqb c "n" then Some (CIChar LF)
  else if Ascii.eqb c "r" then Some (CIChar CR)
  else if Ascii.eqb c "s" then Some (CISpace false)
  else if Ascii.eqb c "S" then Some (CISpace true)
  else if isAlnum c then None
  else Some (CIChar c).

Definition itemToken (i : classItem) : token :=
  match i with
  | CIChar c => TLit c
  | CISpace neg => TSet false [CISpace neg]
  end.

Definition plainToken (c : ascii) : option token :=
  if Ascii.eqb c "." then Some TDot
  else if Ascii.eqb c "^" then Some TCaret
  else if Ascii.eqb c "$" then Some TDollar
  else if Ascii.eqb c "|" then Some TBar
  else if Ascii.eqb c "(" then Some TOpen
  else if Ascii.eqb c ")" then Some TClose
  else if Ascii.eqb c "*" then Some TStar
  else if Ascii.eqb c "+" then Some TPlus
  else if Ascii.eqb c "?" then Some TQuest
  else if Ascii.eqb c "{" then None
  else Some (TLit c).

Definition consTok (t : option token) (ts : option (list token))
  : option (list token) :=
  match t, ts with
  | Some t', Some ts' => Some (t' :: ts')
  | _, _ => None
  end.

Fixpoint lex (mode : lexMode) (s : str) : option (list token) :=
  match s with
  | [] => match mode with LNormal => Some [] | _ => None end
  | c :: s' =>
    match mode with
    | LNormal =>
      if Ascii.eqb c BACKSLASH then lex LEscape s'
      else if Ascii.eqb c "[" then lex LClassStart s'
      else consTok (plainToken c) (lex LNormal s')
    | LEscape =>
      consTok (option_map itemToken (escapeItem c)) (lex LNormal s')
    | LClassStart =>
      if Ascii.eqb c "^" then lex (LClass true []) s'
      else if Ascii.eqb c "]" then consTok (Some (TSet false [])) (lex LNormal s')
      else if Ascii.eqb c BACKSLASH then lex (LClassEscape false []) s'
      else if Ascii.eqb c "-" then None
      else lex (LClass false [CIChar c]) s'
    | LClass inv items =>
      if Ascii.eqb c "]" then consTok (Some (TSet inv (rev items))) (lex LNormal s')
      else if Ascii.eqb c BACKSLASH then lex (LClassEscape inv items) s'
      else if Ascii.eqb c "-" then None
      else lex (LClass inv (CIChar c :: items)) s'
    | LClassEscape inv items =>
      match escapeItem c with
      | Some i => lex (LClass inv (i :: items)) s'
      | None => None
      end
    end
  end.

(** *** Parser

    A stack machine over the tokens.  A frame is the group being read: its
    number, the alternatives already closed by a [|] and the terms of the
    alternative being read, last term first.  [fquant] says what may follow
    the last term: a quantifier, only the [?] that makes a quantifier lazy,
    or neither. *)

Inductive quantState : Type :=
| QAtom
| QGreedy
| QClosed.

Record frame : Type := mkFrame {
  fgroup : nat;
  falts : list regex;
  fseq : list regex;
  fquant : quantState
}.

Definition mkSeq (revTerms : list regex) : regex :=
  fold_left (fun acc t => RSeq t acc) revTerms REmpty.

Fixpoint mkAlt (first : regex) (others : list regex) : regex :=
  match others with
  | [] => first
  | r :: rs => RAlt first (mkAlt r rs)
  end.

(** The disjunction of a frame: the alternatives in source order. *)
Definition closeFrame (f : frame) : regex :=
  match rev (mkSeq (fseq f) :: falts f) with
  | [] => REmpty
  | a :: rest => mkAlt a rest
  end.

Definition pushTerm (r : regex) (q : quantState) (f : frame) : frame :=
  mkFrame (fgroup f) (falts f) (r :: fseq f) q.

Definition quantify (min : nat) (max : option nat) (f : frame) : option frame :=
  match fquant f, fseq f with
  | QAtom, r :: rest =>
    Some (mkFrame (fgroup f) (falts f) (RRepeat min max true r :: rest) QGreedy)
  | _, _ => None
  end.

Definition makeLazy (f : frame) : option frame :=
  match fquant f, fseq f with
  | QGreedy, RRepeat min max _ r :: rest =>
    Some (mkFrame (fgroup f) (falts f) (RRepeat min max false r :: rest) QClosed)
  | _, _ => None
  end.

Record parseState : Type := mkParseState {
  nextGroup : nat;
  current : frame;
  outer : list frame
}.

Definition withFrame (st : parseState) (f : option frame) : option parseState :=
  option_map (fun f' => mkParseState (nextGroup st) f' (outer st)) f.

Definition parseStep (st : parseState) (t : token) : option parseState :=
  let f := current st in
  match t with
  | TLit c => withFrame st (Some (pushTerm (RChar c) QAtom f))
  | TDot => withFrame st (Some (pushTerm RAny QAtom f))
  | TSet inv items => withFrame st (Some (pushTerm (RSet inv items) QAtom f))
  | TCaret => withFrame st (Some (pushTerm RBol QClosed f))
  | TDollar => withFrame st (Some (pushTerm REol QClosed f))
  | TBar =>
    withFrame st (Some (mkFrame (fgroup f) (mkSeq (fseq f) :: falts f) [] QClosed))
  | TOpen =>
    Some (mkParseState (S (nextGroup st))
                       (mkFrame (nextGroup st) [] [] QClosed)
                       (f :: outer st))
  | TClose =>
    match outer st with
    | [] => None
    | parent :: rest =>
      Some (mkParseState (nextGroup st)
                         (pushTerm (RGroup (fgroup f) (closeFrame f)) QAtom parent)
                         rest)
    end
  | TStar => withFrame st (quantify 0 None f)
  | TPlus => withFrame st (quantify 1 None f)
  | TQuest =>
    match fquant f with
    | QGreedy => withFrame st (makeLazy f)
    | _ => withFrame st (quantify 0 (Some 1) f)
    end
  end.

Fixpoint parseTokens (st : parseState) (ts : list token) : option parseState :=
  match ts with
  | [] => Some st
  | t :: ts' =>
    match parseStep st t with
    | Some st' => parseTokens st' ts'
    | None => None
    end
  end.

Definition initialParse : parseState :=
  mkParseState 1 (mkFrame 0 [] [] QClosed) [].

(** The pattern of a source text with the number of its capturing groups;
    [None] is the [SyntaxError] of the [RegExp] constructor. *)
Definition parsePattern (src : str) : option (regex * nat) :=
  match lex LNormal src with
  | None => None
  | Some ts =>
    match parseTokens initialParse ts with
    | Some st =>
      match outer st with
      | [] => Some (closeFrame (current st), nextGroup st - 1)
      | _ :: _ => None
      end
    | None => None
    end
  end.

(** ** Matching

    The matcher of the language specification: a pattern denotes a function
    from a continuation and a state to a result, and a failing continuation
    makes the pattern try its next choice. *)

Record Flags : Type := mkFlags {
  ignoreCase : bool;
  multiline : bool
}.

Record MatchState : Type := mkState {
  endIndex : nat;
  prevChar : option ascii;
  remaining : str;
  captures : list (option str)
}.

Definition cont := MatchState -> option MatchState.

Fixpoint setNth (A : Type) (n : nat) (v : A) (l : list A) : list A :=
  match l, n with
  | [], _ => []
  | _ :: l', 0 => v :: l'
  | a :: l', S n' => a :: setNth n' v l'
  end.

(** Capture [n] (counted from 1) is slot [n - 1]. *)
Definition setCapture (n : nat) (v : option str) (x : MatchState) : MatchState :=
  mkState (endIndex x) (prevChar x) (remaining x)
          (setNth (n - 1) v (captures x)).

Fixpoint groupsOf (r : regex) : list nat :=
  match r with
  | RSeq r1 r2 | RAlt r1 r2 => groupsOf r1 ++ groupsOf r2
  | RGroup n r' => n :: groupsOf r'
  | RRepeat _ _ _ r' => groupsOf r'
  | _ => []
  end.

Definition clearCaptures (gs : list nat) (x : MatchState) : MatchState :=
  fold_left (fun y n => setCapture n None y) gs x.

Definition sameChar (fl : Flags) (a b : ascii) : bool :=
  if ignoreCase fl then Ascii.eqb (canonicalize a) (canonicalize b)
  else Ascii.eqb a b.

Definition itemMatches (fl : Flags) (ch : ascii) (i : classItem) : bool :=
  match i with
  | CIChar c => sameChar fl c ch
  | CISpace neg => xorb neg (isWhiteSpace ch)
  end.

Definition setMatches (fl : Flags) (invert : bool) (items : list classItem)
  (ch : ascii) : bool :=
  xorb invert (existsb (itemMatches fl ch) items).

Definition charMatcher (pred : ascii -> bool) (c : cont) (x : MatchState)
  : option MatchState :=
  match remaining x with
  | [] => None
  | ch :: rest =>
    if pred ch
    then c (mkState (S (endIndex x)) (Some ch) rest (captures x))
    else None
  end.

Definition decr (max : option nat) : option nat := option_map pred max.

Definition isZero (max : option nat) : bool :=
  match max with Some 0 => true | _ => false end.

(** [RepeatMatcher]: [fuel] bounds the number of iterations, each of which
    lowers [min] or consumes input. *)
Fixpoint repeatMatcher (body : cont -> MatchState -> option MatchState)
  (gs : list nat) (fuel min : nat) (max : option nat) (greedy : bool)
  (c : cont) (x : MatchState) {struct fuel} : option MatchState :=
  match fuel with
  | 0 => None
  | S fuel' =>
    if isZero max then c x
    else
      let d := fun y : MatchState =>
        if (min =? 0) && (endIndex y =? endIndex x) then None
        else repeatMatcher body gs fuel' (min - 1) (decr max) greedy c y in
      let xr := clearCaptures gs x in
      if negb (min =? 0) then body d xr
      else if greedy then
        match body d xr with
        | Some z => Some z
        | None => c x
        end
      else
        match c x with
        | Some z => Some z
        | None => body d xr
        end
  end.

Fixpoint matcher (fl : Flags) (r : regex) (c : cont) (x : MatchState)
  {struct r} : option MatchState :=
  match r with
  | REmpty => c x
  | RChar a => charMatcher (sameChar fl a) c x
  | RAny => charMatcher (fun ch => negb (isLineTerminator ch)) c x
  | RSet inv items => charMatcher (setMatches fl inv items) c x
  | RBol =>
    match prevChar x with
    | None => c x
    | Some ch => if multiline fl && isLineTerminator ch then c x else None
    end
  | REol =>
    match remaining x with
    | [] => c x
    | ch :: _ => if multiline fl && isLineTerminator ch then c x else None
    end
  | RSeq r1 r2 => matcher fl r1 (matcher fl r2 c) x
  | RAlt r1 r2 =>
    match matcher fl r1 c x with
    | Some z => Some z
    | None => matcher fl r2 c x
    end
  | RGroup n r' =>
    matcher fl r'
      (fun y => c (setCapture n
                     (Some (firstn (endIndex y - endIndex x) (remaining x))) y))
      x
  | RRepeat min max greedy r' =>
    repeatMatcher (matcher fl r') (groupsOf r')
                  (S (min + length (remaining x))) min max greedy c x
  end.

(** ** RegExp objects *)

Record RegExp : Type := mkRegExp {
  pattern : regex;
  nGroups : nat;
  reFlags : Flags
}.

(** [new RegExp(source, flags)] *)
Definition newRegExp (source : str) (fl : Flags) : option RegExp :=
  match parsePattern source with
  | Some (r, n) => Some (mkRegExp r n fl)
  | None => None
  end.

(** What [exec] returns: [index] and the array [match[0]], [match[1]], ... *)
Record MatchResult : Type := mkMatch {
  index : nat;
  groups : list (option str)
}.

Definition matchAt (re : RegExp) (pos : nat) (prev : option ascii) (rest : str)
  : option MatchResult :=
  match matcher (reFlags re) (pattern re) Some
                (mkState pos prev rest (repeat None (nGroups re))) with
  | Some y =>
    Some (mkMatch pos (Some (firstn (endIndex y - pos) rest) :: captures y))
  | None => None
  end.

(** The search of [exec]: the first position at or after [pos] where the
    pattern matches. *)
Fixpoint search (re : RegExp) (pos : nat) (prev : option ascii) (rest : str)
  {struct rest} : option MatchResult :=
  match matchAt re pos prev rest with
  | Some m => Some m
  | None =>
    match rest with
    | [] => None
    | ch :: rest' => search re (S pos) (Some ch) rest'
    end
  end.

Definition lastOf (s : str) : option ascii :=
  match rev s with
  | [] => None
  | c :: _ => Some c
  end.

Definition matchLength (m : MatchResult) : nat :=
  match groups m with
  | Some whole :: _ => length whole
  | _ => 0
  end.

(** [re.exec(text)] for a global expression whose [lastIndex] is
    [lastIndex]: the result and the new [lastIndex]. *)
Definition exec (re : RegExp) (text : str) (lastIndex : nat)
  : option MatchResult * nat :=
  if length text <? lastIndex then (None, 0)
  else
    match search re lastIndex (lastOf (firstn lastIndex text))
                 (skipn lastIndex text) with
    | Some m => (Some m, index m + matchLength m)
    | None => (None, 0)
    end.

(** [match[i]] *)
Definition group (i : nat) (m : MatchResult) : option str :=
  nth i (groups m) None.

(** ** The host editor

    What the class uses of the editor API: the text of the document,
    [positionAt], the [Range] constructor and [setDecorations]. *)

Record Position : Type := mkPosition {
  line : nat;
  character : nat
}.

Record Range : Type := mkRange {
  rangeStart : Position;
  rangeEnd : Position
}.

Definition isBefore (a b : Position) : bool :=
  (line a <? line b) || ((line a =? line b) && (character a <? character b)).

(** [new vscode.Range(start, end)]: the two positions in order. *)
Definition newRange (a b : Position) : Range :=
  if isBefore b a then mkRange b a else mkRange a b.

(** The position [offset] code units into a text whose lines end in LF,
    CR LF or CR.  An offset past the end is the end; an offset between CR
    and LF is the end of that line. *)
Fixpoint walk (ln col : nat) (text : str) (offset : nat) : Position :=
  match offset, text with
  | 0, _ => mkPosition ln col
  | _, [] => mkPosition ln col
  | S o, c :: rest =>
    if Ascii.eqb c LF then walk (S ln) 0 rest o
    else if Ascii.eqb c CR then
      match rest with
      | c' :: _ => if Ascii.eqb c' LF then walk ln col rest o
                   else walk (S ln) 0 rest o
      | [] => walk (S ln) 0 rest o
      end
    else walk ln (S col) rest o
  end.

Record TextEditor : Type := mkEditor {
  getText : str
}.

Definition positionAt (activeEditor : TextEditor) (offset : nat) : Position :=
  walk 0 0 (getText activeEditor) offset.

Record DecorationOptions : Type := mkDecorationOptions {
  range : Range
}.

Record DecorationRenderOptions : Type := mkRenderOptions {
  optColor : str;
  textDecoration : option str
}.

(** The handle [createTextEditorDecorationType] returns stands for the
    options it was created from. *)
Definition TextEditorDecorationType := DecorationRenderOptions.

Definition createTextEditorDecorationType (o : DecorationRenderOptions)
  : TextEditorDecorationType := o.

(** ** The configuration *)

Module Config.

Record TagItem : Type := mkTagItem {
  tag : str;
  color : str;
  strikethrough : bool
}.

Record Contributions : Type := mkContributions {
  multilineComments : bool;
  useJSDocStyle : bool;
  tags : list TagItem
}.

End Config.

(** ** The class *)

Record CommentTag : Type := mkCommentTag {
  tag : str;
  escapedTag : str;
  decoration : TextEditorDecorationType;
  ranges : list DecorationOptions
}.

Record Parser : Type := mkParser {
  tags : list CommentTag;
  expression : str;
  delimiter : str;
  highlightMultilineComments : bool;
  ignoreFirstLine : bool;
  supportedLanguage : bool;
  contributions : Config.Contributions
}.

Definition withTags (ts : list CommentTag) (p : Parser) : Parser :=
  mkParser ts (expression p) (delimiter p) (highlightMultilineComments p)
           (ignoreFirstLine p) (supportedLanguage p) (contributions p).

Definition withExpression (e : str) (p : Parser) : Parser :=
  mkParser (tags p) e (delimiter p) (highlightMultilineComments p)
           (ignoreFirstLine p) (supportedLanguage p) (contributions p).

Definition withDelimiter (d : str) (p : Parser) : Parser :=
  mkParser (tags p) (expression p) d (highlightMultilineComments p)
           (ignoreFirstLine p) (supportedLanguage p) (contributions p).

Definition withHighlightMultilineComments (b : bool) (p : Parser) : Parser :=
  mkParser (tags p) (expression p) (delimiter p) b
           (ignoreFirstLine p) (supportedLanguage p) (contributions p).

Definition withIgnoreFirstLine (b : bool) (p : Parser) : Parser :=
  mkParser (tags p) (expression p) (delimiter p) (highlightMultilineComments p)
           b (supportedLanguage p) (contributions p).

Definition withSupportedLanguage (b : bool) (p : Parser) : Parser :=
  mkParser (tags p) (expression p) (delimiter p) (highlightMultilineComments p)
           (ignoreFirstLine p) b (contributions p).

(** How a call ends: normally, with an exception, or never. *)
Inductive outcome (A : Type) : Type :=
| Done (a : A)
| SyntaxError
| TypeError
| Diverges.

Arguments Done {A} a.
Arguments SyntaxError {A}.
Arguments TypeError {A}.
Arguments Diverges {A}.

(** *** setTags *)

(** [s.replace(/([()[{*+.$^\\|?])/g, '\\$1')] *)
Definition isPatternSpecial (c : ascii) : bool :=
  existsb (Ascii.eqb c) (chars "()[{*+.$^\|?").

Definition escapeChar (special : ascii -> bool) (c : ascii) : str :=
  if special c then [BACKSLASH; c] else [c].

Definition escapeSpecials (s : str) : str :=
  flat_map (escapeChar isPatternSpecial) s.

(** [s.replace(/\//gi, "\\/")] *)
Definition escapeSlashes (s : str) : str :=
  flat_map (escapeChar (Ascii.eqb SLASH)) s.

Definition renderOptions (item : Config.TagItem) : DecorationRenderOptions :=
  mkRenderOptions (Config.color item)
    (if Config.strikethrough item then Some (chars "line-through") else None).

Definition makeTag (item : Config.TagItem) : CommentTag :=
  let escapedSequence := escapeSpecials (Config.tag item) in
  mkCommentTag (Config.tag item) (escapeSlashes escapedSequence)
               (createTextEditorDecorationType (renderOptions item)) [].

Definition setTags (p : Parser) : Parser :=
  let items := Config.tags (contributions p) in
  withTags (fold_left (fun ts item => ts ++ [makeTag item]) items (tags p)) p.

(** The field initialisers and the constructor. *)
Definition newParser (cfg : Config.Contributions) : Parser :=
  setTags (mkParser [] [] [] false false true cfg).

(** *** setDelimiter *)

Definition slashLanguages : list string :=
  ["al"; "c"; "cpp"; "csharp"; "css"; "dart"; "fsharp"; "go"; "haxe"; "java";
   "javascript"; "javascriptreact"; "jsonc"; "kotlin"; "less"; "pascal";
   "objectpascal"; "php"; "rust"; "scala"; "scss"; "swift"; "typescript";
   "typescriptreact"]%string.

Definition hashLanguages : list string :=
  ["coffeescript"; "dockerfile"; "elixir"; "graphql"; "julia"; "makefile";
   "perl"; "perl6"; "powershell"; "r"; "ruby"; "shellscript"; "yaml"]%string.

Definition dashLanguages : list string :=
  ["ada"; "haskell"; "plsql"; "sql"; "lua"]%string.

Definition percentLanguages : list string :=
  ["erlang"; "latex"; "matlab"]%string.

Definition semicolonLanguages : list string :=
  ["clojure"; "racket"; "lisp"]%string.

Definition isOneOf (languageCode : string) (cases : list string) : bool :=
  existsb (String.eqb languageCode) cases.

Definition setDelimiter (languageCode : string) (p : Parser) : Parser :=
  let p := withSupportedLanguage true p in
  if isOneOf languageCode slashLanguages then
    withHighlightMultilineComments
      (Config.multilineComments (contributions p))
      (withDelimiter (chars "//") p)
  else if isOneOf languageCode hashLanguages then
    withDelimiter (chars "#") p
  else if String.eqb languageCode "python" then
    withIgnoreFirstLine true (withDelimiter (chars "#") p)
  else if isOneOf languageCode dashLanguages then
    withDelimiter (chars "--") p
  else if String.eqb languageCode "vb" then
    withDelimiter (chars "'") p
  else if isOneOf languageCode percentLanguages then
    withDelimiter (chars "%") p
  else if isOneOf languageCode semicolonLanguages then
    withDelimiter (chars ";") p
  else if String.eqb languageCode "terraform" then
    withHighlightMultilineComments
      (Config.multilineComments (contributions p))
      (withDelimiter (chars "#") p)
  else
    withSupportedLanguage false p.

(** *** SetRegex *)

(** [parts.join(sep)] *)
Fixpoint join (A : Type) (sep : list A) (parts : list (list A)) : list A :=
  match parts with
  | [] => []
  | [a] => a
  | a :: rest => a ++ sep ++ join sep rest
  end.

(** The array [characters] both pattern builders fill. *)
Definition characters (p : Parser) : list str := map escapedTag (tags p).

Definition SetRegex (languageCode : string) (p : Parser) : Parser :=
  let p := setDelimiter languageCode p in
  let e := chars "(" ++ escapeSlashes (delimiter p) ++ chars ")+( |"
           ++ [TAB] ++ chars ")*" in
  let e := e ++ chars "(" in
  let e := e ++ join (chars "|") (characters p) in
  let e := e ++ chars ")+(.*)" in
  withExpression e p.

(** *** FindSingleLineComments *)

Definition flagsIG : Flags := mkFlags true false.
Definition flagsGM : Flags := mkFlags false true.
Definition flagsIGM : Flags := mkFlags true true.

(** [this.tags.find(item => item.tag.toLowerCase() === s.toLowerCase())],
    as the position of the tag found. *)
Fixpoint findTag (ts : list CommentTag) (s : str) : option nat :=
  match ts with
  | [] => None
  | item :: rest =>
    if str_eqb (toLowerCase (tag item)) (toLowerCase s) then Some 0
    else option_map S (findTag rest s)
  end.

Definition pushRange (r : DecorationOptions) (t : CommentTag) : CommentTag :=
  mkCommentTag (tag t) (escapedTag t) (decoration t) (ranges t ++ [r]).

Fixpoint updateAt (A : Type) (f : A -> A) (n : nat) (l : list A) : list A :=
  match l, n with
  | [], _ => []
  | a :: l', 0 => f a :: l'
  | a :: l', S n' => a :: updateAt f n' l'
  end.

(** [matchTag.ranges.push(range)] when [matchTag] was found. *)
Definition addRange (s : str) (r : DecorationOptions) (p : Parser) : Parser :=
  match findTag (tags p) s with
  | Some k => withTags (updateAt (pushRange r) k (tags p)) p
  | None => p
  end.

Definition atOrigin (pos : Position) : bool :=
  (line pos =? 0) && (character pos =? 0).

(** The body of the loop for one [match]. *)
Definition singleLineMatch (activeEditor : TextEditor) (m : MatchResult)
  (p : Parser) : outcome Parser :=
  let startPos := positionAt activeEditor (index m) in
  let endPos := positionAt activeEditor (index m + matchLength m) in
  let r := mkDecorationOptions (newRange startPos endPos) in
  if ignoreFirstLine p && atOrigin startPos then Done p
  else
    match group 3 m with
    | Some s => Done (addRange s r p)
    | None =>
      (* [match[3]] is read in the callback of [find], which runs only
         when there is a tag *)
      match tags p with
      | [] => Done p
      | _ :: _ => TypeError
      end
    end.

(** [while (match = regEx.exec(text)) ...].  An [exec] that matches
    without moving [lastIndex] matches the same way ever after. *)
Fixpoint singleLineLoop (fuel : nat) (activeEditor : TextEditor) (regEx : RegExp)
  (lastIndex : nat) (p : Parser) : outcome Parser :=
  match fuel with
  | 0 => Diverges
  | S fuel' =>
    match exec regEx (getText activeEditor) lastIndex with
    | (None, _) => Done p
    | (Some m, lastIndex') =>
      match singleLineMatch activeEditor m p with
      | Done p' =>
        if lastIndex' <=? lastIndex then Diverges
        else singleLineLoop fuel' activeEditor regEx lastIndex' p'
      | other => other
      end
    end
  end.

Definition FindSingleLineComments (activeEditor : TextEditor) (p : Parser)
  : outcome Parser :=
  let text := getText activeEditor in
  match newRegExp (expression p) flagsIG with
  | None => SyntaxError
  | Some regEx => singleLineLoop (S (length text)) activeEditor regEx 0 p
  end.

(** *** FindMultilineComments *)

(** The source of the literal that finds the blocks. *)
Definition blockSource (findJSDoc : bool) : str :=
  if findJSDoc then chars "(^|[ \t])(\/\*\*)+([\s\S]*?)(\*\/)"
  else chars "(^|[ \t])(\/\*[^*])+([\s\S]*?)(\*\/)".

Definition commentMatchString (findJSDoc : bool) (p : Parser) : str :=
  let s := if findJSDoc then chars "(^)+([ \t]*\*[ \t]*)("
           else chars "(^)+([ \t]*[ \t]*)(" in
  let s := s ++ join (chars "|") (characters p) in
  s ++ chars ")([ ]*|[:])+([^*/][^\r\n]*)".

(** The body of the inner loop for one [line] of the block [match]. *)
Definition multilineMatch (activeEditor : TextEditor) (blockIndex : nat)
  (ln : MatchResult) (p : Parser) : outcome Parser :=
  match group 2 ln with
  | None => TypeError
  | Some prefix =>
    let startPos :=
      positionAt activeEditor (blockIndex + index ln + length prefix) in
    let endPos :=
      positionAt activeEditor (blockIndex + index ln + matchLength ln) in
    let r := mkDecorationOptions (newRange startPos endPos) in
    match group 3 ln with
    | Some matchString => Done (addRange matchString r p)
    | None =>
      (* [matchString] is read in the callback of [find] *)
      match tags p with
      | [] => Done p
      | _ :: _ => TypeError
      end
    end
  end.

(** [while (line = commentRegEx.exec(commentBlock)) ...] *)
Fixpoint lineLoop (fuel : nat) (activeEditor : TextEditor) (commentRegEx : RegExp)
  (blockIndex : nat) (commentBlock : str) (lastIndex : nat) (p : Parser)
  : outcome Parser :=
  match fuel with
  | 0 => Diverges
  | S fuel' =>
    match exec commentRegEx commentBlock lastIndex with
    | (None, _) => Done p
    | (Some ln, lastIndex') =>
      match multilineMatch activeEditor blockIndex ln p with
      | Done p' =>
        if lastIndex' <=? lastIndex then Diverges
        else lineLoop fuel' activeEditor commentRegEx blockIndex commentBlock
                      lastIndex' p'
      | other => other
      end
    end
  end.

(** [while (match = regEx.exec(text)) ...].  The inner loop leaves
    [commentRegEx.lastIndex] at 0, where the next block starts it. *)
Fixpoint blockLoop (fuel : nat) (activeEditor : TextEditor)
  (regEx commentRegEx : RegExp) (lastIndex : nat) (p : Parser)
  : outcome Parser :=
  match fuel with
  | 0 => Diverges
  | S fuel' =>
    match exec regEx (getText activeEditor) lastIndex with
    | (None, _) => Done p
    | (Some m, lastIndex') =>
      match group 0 m with
      | None => TypeError
      | Some commentBlock =>
        match lineLoop (S (length commentBlock)) activeEditor commentRegEx
                       (index m) commentBlock 0 p with
        | Done p' =>
          if lastIndex' <=? lastIndex then Diverges
          else blockLoop fuel' activeEditor regEx commentRegEx lastIndex' p'
        | other => other
        end
      end
    end
  end.

Definition FindMultilineComments (activeEditor : TextEditor) (findJSDoc : bool)
  (p : Parser) : outcome Parser :=
  if negb (highlightMultilineComments p) then Done p
  else
    let text := getText activeEditor in
    match newRegExp (blockSource findJSDoc) flagsGM,
          newRegExp (commentMatchString findJSDoc p) flagsIGM with
    | Some regEx, Some commentRegEx =>
      blockLoop (S (length text)) activeEditor regEx commentRegEx 0 p
    | _, _ => SyntaxError
    end.

(** *** ApplyDecorations *)

(** One call [activeEditor.setDecorations(decoration, ranges)], with the
    ranges the array holds when the call is made. *)
Definition Decorations : Type :=
  (TextEditorDecorationType * list DecorationOptions)%type.

Definition clearRanges (t : CommentTag) : CommentTag :=
  mkCommentTag (tag t) (escapedTag t) (decoration t) [].

(** The loop over [this.tags]: the calls made and the tags afterwards. *)
Fixpoint flushTags (ts : list CommentTag)
  : list Decorations * list CommentTag :=
  match ts with
  | [] => ([], [])
  | t :: rest =>
    let (calls, rest') := flushTags rest in
    ((decoration t, ranges t) :: calls, clearRanges t :: rest')
  end.

(** The calls to [setDecorations], in order, and the parser afterwards. *)
Definition ApplyDecorations (p : Parser) : list Decorations * Parser :=
  let (calls, ts) := flushTags (tags p) in
  (calls, withTags ts p).

(** ** Definitions for the statements and the proofs *)

(** A parser that has seen the language identifiers [langs], oldest first. *)
Definition resolveAll (langs : list string) (p : Parser) : Parser :=
  fold_left (fun q languageCode => SetRegex languageCode q) langs p.

(** The identifiers of the table. *)
Definition languageTable : list string :=
  slashLanguages ++ hashLanguages ++ ["python"%string] ++ dashLanguages
  ++ ["vb"%string] ++ percentLanguages ++ semicolonLanguages
  ++ ["terraform"%string].

Definition inTable (languageCode : string) : bool :=
  isOneOf languageCode languageTable.

(** The languages whose case sets [highlightMultilineComments]. *)
Definition setsMultiline (languageCode : string) : bool :=
  isOneOf languageCode slashLanguages || String.eqb languageCode "terraform".

Definition plainTag (name : string) : Config.TagItem :=
  Config.mkTagItem (chars name) (chars "#FF2D00") false.

Definition sampleConfig : Config.Contributions :=
  Config.mkContributions true true [plainTag "TODO"].

Definition plainBlock : str :=
  chars "/* " ++ [LF] ++ chars " TODO text " ++ [LF] ++ chars " */".

Definition docBlock : str :=
  chars "/** " ++ [LF] ++ chars " * TODO text " ++ [LF] ++ chars " */".

(** The pattern of a literal: its characters in sequence. *)
Definition lits (s : str) : regex :=
  fold_right (fun c r => RSeq (RChar c) r) REmpty s.

(** The disjunction of the literals [names]. *)
Definition altsOf (names : list str) : regex :=
  match names with
  | [] => REmpty
  | a :: rest => mkAlt (lits a) (map lits rest)
  end.

Definition prepend (ts : list token) (r : option (list token))
  : option (list token) :=
  option_map (app ts) r.

Definition escapeTag (name : str) : str := escapeSlashes (escapeSpecials name).

Definition pushLits (s : str) (f : frame) : frame :=
  fold_left (fun f' c => pushTerm (RChar c) QAtom f') s f.

Definition altsFrom (l : list regex) : regex :=
  match l with
  | [] => REmpty
  | a :: rest => mkAlt a rest
  end.

(** The pattern [SetRegex] builds for the delimiter [D] and the tags
    [names]. *)
Definition singleLineSource (D : str) (names : list str) : str :=
  chars "(" ++ escapeSlashes D ++ chars ")+( |" ++ [TAB] ++ chars ")*"
  ++ chars "(" ++ join (chars "|") (map escapeTag names) ++ chars ")+(.*)".

Definition plus (r : regex) : regex := RRepeat 1 None true r.
Definition star (r : regex) : regex := RRepeat 0 None true r.

Definition singleLinePattern (D : str) (names : list str) : regex :=
  RSeq (plus (RGroup 1 (lits D)))
    (RSeq (star (RGroup 2 (RAlt (lits [SPACE]) (lits [TAB]))))
       (RSeq (plus (RGroup 3 (altsOf names)))
          (RSeq (RGroup 4 (RSeq (star RAny) REmpty)) REmpty))).

(** The state [n] code units further on. *)
Fixpoint advance (n : nat) (x : MatchState) : MatchState :=
  match n, remaining x with
  | S n', ch :: rest =>
    advance n' (mkState (S (endIndex x)) (Some ch) rest (captures x))
  | _, _ => x
  end.

(** [s] matches at the start of [input]. *)
Fixpoint prefixMatches (fl : Flags) (s input : str) : bool :=
  match s, input with
  | [], _ => true
  | a :: s', ch :: input' => sameChar fl a ch && prefixMatches fl s' input'
  | _ :: _, [] => false
  end.

(** The last character read after [u], when [p] was the last before. *)
Definition prevAfter (p : option ascii) (u : str) : option ascii :=
  fold_left (fun _ ch => Some ch) u p.

(** The pattern literal [s] matches exactly the text [u]. *)
Fixpoint sameText (fl : Flags) (s u : str) : bool :=
  match s, u with
  | [], [] => true
  | a :: s', ch :: u' => sameChar fl a ch && sameText fl s' u'
  | _, _ => false
  end.

Definition isBlank (ch : ascii) : bool :=
  Ascii.eqb ch SPACE || Ascii.eqb ch TAB.

Definition startsWithBlank (s : str) : bool :=
  match s with
  | [] => false
  | ch :: _ => isBlank ch
  end.

Definition notTerminator (ch : ascii) : bool := negb (isLineTerminator ch).

Definition endsLine (tail : str) : Prop :=
  match tail with
  | [] => True
  | ch :: _ => isLineTerminator ch = true
  end.

Fixpoint startsWith (pre text : str) : bool :=
  match pre, text with
  | [], _ => true
  | a :: pre', b :: text' => Ascii.eqb a b && startsWith pre' text'
  | _ :: _, [] => false
  end.

(** [text] starts with [pre], case ignored. *)
Definition ciPrefix (pre text : str) : bool :=
  startsWith (toLowerCase pre) (toLowerCase text).

(** Every tag carries the escaped form of its own literal. *)
Definition escapedTags (p : Parser) : Prop :=
  characters p = map escapeTag (map tag (tags p)).

Definition delimiters : list str :=
  [chars "//"; chars "#"; chars "--"; chars "'"; chars "%"; chars ";"].

(** The range of a whole match. *)
Definition wholeMatch (activeEditor : TextEditor) (m : MatchResult)
  : DecorationOptions :=
  mkDecorationOptions
    (newRange (positionAt activeEditor (index m))
              (positionAt activeEditor (index m + matchLength m))).

Definition sampleTags : Config.Contributions :=
  Config.mkContributions true true [plainTag "!"; plainTag "TODO"].

Definition prefixTags : Config.Contributions :=
  Config.mkContributions true true [plainTag "to"; plainTag "todo"].

(** What the scan has accumulated: the literal and the ranges of each tag. *)
Definition collected (p : Parser) : list (str * list DecorationOptions) :=
  map (fun t => (tag t, ranges t)) (tags p).

Definition lineRange (ln from to : nat) : DecorationOptions :=
  mkDecorationOptions (mkRange (mkPosition ln from) (mkPosition ln to)).

Definition pythonDocument : str :=
  chars "# TODO first" ++ [LF] ++ [LF] ++ chars "# TODO first".

Definition bangTags (ml js : bool) (c1 c2 : str) (s1 s2 : bool)
  : Config.Contributions :=
  Config.mkContributions ml js
    [Config.mkTagItem (chars "!") c1 s1; Config.mkTagItem (chars "!!") c2 s2].

(** The matches the loop of a scan sees: the successive results of [exec]. *)
Fixpoint execAll (fuel : nat) (regEx : RegExp) (text : str) (lastIndex : nat)
  : list MatchResult :=
  match fuel with
  | 0 => []
  | S fuel' =>
    match exec regEx text lastIndex with
    | (None, _) => []
    | (Some m, lastIndex') =>
      m :: (if lastIndex' <=? lastIndex then []
            else execAll fuel' regEx text lastIndex')
    end
  end.

(** The tag, by position, that the single-line scan gives the match [m]. *)
Definition receiver (activeEditor : TextEditor) (p : Parser) (m : MatchResult)
  : option nat :=
  if ignoreFirstLine p && atOrigin (positionAt activeEditor (index m))
  then None
  else match group 3 m with
       | Some s => findTag (tags p) s
       | None => None
       end.

Definition receives (activeEditor : TextEditor) (p : Parser) (k : nat)
  (m : MatchResult) : bool :=
  match receiver activeEditor p m with
  | Some j => j =? k
  | None => false
  end.

(** The tags after the matches [ms] have been handed out. *)
Definition collect (activeEditor : TextEditor) (p : Parser)
  (ms : list MatchResult) (ts : list CommentTag) : list CommentTag :=
  fold_left
    (fun ts' m =>
       match receiver activeEditor p m with
       | Some k => updateAt (pushRange (wholeMatch activeEditor m)) k ts'
       | None => ts'
       end)
    ms ts.

(** The least number of code units a match of [r] consumes. *)
Fixpoint minLen (r : regex) : nat :=
  match r with
  | RChar _ | RAny | RSet _ _ => 1
  | RSeq r1 r2 => minLen r1 + minLen r2
  | RAlt r1 r2 => Nat.min (minLen r1) (minLen r2)
  | RGroup _ r' => minLen r'
  | RRepeat min _ _ r' => if min =? 0 then 0 else minLen r'
  | _ => 0
  end.

Definition mentions (gs : list nat) (n : nat) : bool := existsb (Nat.eqb n) gs.

(** Groups that every match of [r] leaves defined. *)
Fixpoint definite (r : regex) : list nat :=
  match r with
  | RSeq r1 r2 =>
    filter (fun n => negb (mentions (groupsOf r2) n)) (definite r1)
    ++ definite r2
  | RGroup n _ => [n]
  | RRepeat min _ _ r' => if min =? 0 then [] else definite r'
  | _ => []
  end.

(** Group numbers lie in [1..n] and no quantifier has its bounds crossed. *)
Fixpoint wellFormed (n : nat) (r : regex) : bool :=
  match r with
  | RSeq r1 r2 | RAlt r1 r2 => wellFormed n r1 && wellFormed n r2
  | RGroup g r' => (1 <=? g) && (g <=? n) && wellFormed n r'
  | RRepeat min max _ r' =>
    match max with Some m => min <=? m | None => true end && wellFormed n r'
  | _ => true
  end.

(** [match[n]] in the state [x]. *)
Definition capture (n : nat) (x : MatchState) : option str :=
  nth (n - 1) (captures x) None.

(** [y] is [x] after the text [u] was consumed. *)
Definition consumed (u : str) (x y : MatchState) : Prop :=
  remaining x = u ++ remaining y
  /\ endIndex y = endIndex x + length u
  /\ length (captures y) = length (captures x).

Definition keeps (gs : list nat) (x y : MatchState) : Prop :=
  forall n, 1 <= n -> mentions gs n = false -> capture n y = capture n x.

Definition defines (gs : list nat) (y : MatchState) : Prop :=
  forall n, In n gs -> capture n y <> None.

(** What a match of [r] from [x] to [y] guarantees. *)
Definition matched (r : regex) (x y : MatchState) : Prop :=
  exists u,
    consumed u x y /\ minLen r <= length u
    /\ keeps (groupsOf r) x y /\ defines (definite r) y.

(** The state has [k] capture slots. *)
Definition fits (k : nat) (x : MatchState) : Prop := length (captures x) = k.

Definition blanks : regex := star (RSet false [CIChar SPACE; CIChar TAB]).

(** The second group of the line pattern: the indentation, with the
    asterisk of the documentation style. *)
Definition linePrefix (findJSDoc : bool) : regex :=
  if findJSDoc then RSeq blanks (RSeq (RChar "*") (RSeq blanks REmpty))
  else RSeq blanks (RSeq blanks REmpty).

Definition separator : regex :=
  RAlt (RSeq (star (RSet false [CIChar SPACE])) REmpty)
       (RSeq (RSet false [CIChar ":"]) REmpty).

Definition lineText : regex :=
  RSeq (RSet true [CIChar "*"; CIChar "/"])
       (RSeq (star (RSet true [CIChar CR; CIChar LF])) REmpty).

(** The pattern of [commentMatchString] for the tags [names]. *)
Definition linePattern (findJSDoc : bool) (names : list str) : regex :=
  RSeq (plus (RGroup 1 (RSeq RBol REmpty)))
    (RSeq (RGroup 2 (linePrefix findJSDoc))
       (RSeq (RGroup 3 (altsOf names))
          (RSeq (plus (RGroup 4 separator))
             (RSeq (RGroup 5 lineText) REmpty)))).

Definition lineSource (findJSDoc : bool) (names : list str) : str :=
  (if findJSDoc then chars "(^)+([ \t]*\*[ \t]*)("
   else chars "(^)+([ \t]*[ \t]*)(")
  ++ join (chars "|") (map escapeTag names)
  ++ chars ")([ ]*|[:])+([^*/][^\r\n]*)".

Definition blockOpener (findJSDoc : bool) : regex :=
  if findJSDoc then lits (chars "/**")
  else RSeq (RChar "/") (RSeq (RChar "*") (RSeq (RSet true [CIChar "*"]) REmpty)).

(** The pattern of the literal that finds the blocks. *)
Definition blockPattern (findJSDoc : bool) : regex :=
  RSeq (RGroup 1 (RAlt (RSeq RBol REmpty)
                       (RSeq (RSet false [CIChar SPACE; CIChar TAB]) REmpty)))
    (RSeq (plus (RGroup 2 (blockOpener findJSDoc)))
       (RSeq (RGroup 3
                (RSeq (RRepeat 0 None false
                               (RSet false [CISpace false; CISpace true]))
                      REmpty))
          (RSeq (RGroup 4 (lits (chars "*/"))) REmpty))).

(** [p'] is [p] with other ranges. *)
Definition sameButRanges (p p' : Parser) : Prop :=
  p' = withTags (tags p') p
  /\ map clearRanges (tags p') = map clearRanges (tags p).

(** One scan cycle: the single-line pass, the multi-line pass and the
    flush; the calls to [setDecorations] and the parser afterwards. *)
Definition scanCycle (activeEditor : TextEditor) (findJSDoc : bool)
  (p : Parser) : outcome (list Decorations * Parser) :=
  match FindSingleLineComments activeEditor p with
  | Done p1 =>
    match FindMultilineComments activeEditor findJSDoc p1 with
    | Done p2 => Done (ApplyDecorations p2)
    | SyntaxError => SyntaxError
    | TypeError => TypeError
    | Diverges => Diverges
    end
  | SyntaxError => SyntaxError
  | TypeError => TypeError
  | Diverges => Diverges
  end.

(** What the constructor and the calls of [SetRegex] maintain. *)
Definition built (cfg : Config.Contributions) (p : Parser) : Prop :=
  tags p = map makeTag (Config.tags cfg)
  /\ In (delimiter p) ([] :: delimiters)
  /\ (delimiter p <> [] ->
      expression p
      = singleLineSource (delimiter p) (map Config.tag (Config.tags cfg))).

(** From a state whose remaining text satisfies [P], the pattern [r] only
    reaches states whose remaining text satisfies [Q]: it fails whenever
    its continuation fails on those. *)
Definition blocks (fl : Flags) (r : regex) (P Q : str -> Prop) : Prop :=
  forall (c : cont) (x : MatchState),
    P (remaining x) ->
    (forall y, Q (remaining y) -> c y = None) ->
    matcher fl r c x = None.

(** The predicate of a one-character pattern. *)
Definition charTest (fl : Flags) (r : regex) : option (ascii -> bool) :=
  match r with
  | RChar a => Some (sameChar fl a)
  | RAny => Some (fun ch => negb (isLineTerminator ch))
  | RSet inv items => Some (setMatches fl inv items)
  | _ => None
  end.

Definition nowhere : str -> Prop := fun _ => False.

(** [s] holds the two characters that close a block. *)
Fixpoint hasClose (s : str) : bool :=
  match s with
  | [] => false
  | ch :: rest =>
    (Ascii.eqb ch "*"
     && match rest with
        | ch' :: _ => Ascii.eqb ch' "/"
        | [] => false
        end)
    || hasClose rest
  end.

(** What opens a block: three code units in either style. *)
Definition openerText (findJSDoc : bool) : str :=
  if findJSDoc then chars "/**" else chars "/* ".

(** What stands before the tag on a line of a block. *)
Definition linePrefixText (findJSDoc : bool) : str :=
  if findJSDoc then chars " * " else chars " ".

(** A character that is neither a separator after a tag nor part of a
    block delimiter. *)
Definition ordinary (ch : ascii) : bool :=
  negb (existsb (Ascii.eqb ch) (chars " :*/")).

(** Between the opener and the first line of a block. *)
Definition gap (findJSDoc : bool) : str :=
  if findJSDoc then [SPACE; LF] else [LF].

(** The block [/** \n * TAG text \n */], or [/* \n TAG text \n */]. *)
Definition blockText (findJSDoc : bool) (TAG text : str) : str :=
  openerText findJSDoc ++ gap findJSDoc ++ linePrefixText findJSDoc
  ++ TAG ++ SPACE :: text ++ SPACE :: LF :: chars " */".

(** The text is one of [l]. *)
Definition oneOf (l : list string) : str -> Prop :=
  fun s => In s (map chars l).

(** The text starts with the opener of a block. *)
Definition atOpener : str -> Prop :=
  fun s => exists tl, s = "/"%char :: "*"%char :: tl.

(** The text starts inside the opener of a block. *)
Definition inOpener : str -> Prop :=
  fun s => exists tl, s = "/"%char :: "*"%char :: tl \/ s = "*"%char :: tl.

(** The block of [blockText] as the block pattern matches it. *)
Definition blockMatch (findJSDoc : bool) (TAG text : str) : MatchResult :=
  mkMatch 0
    [Some (blockText findJSDoc TAG text); Some [];
     Some (openerText findJSDoc);
     Some (gap findJSDoc ++ linePrefixText findJSDoc ++ TAG
           ++ SPACE :: text ++ [SPACE; LF; SPACE]);
     Some (chars "*/")].

(** The tagged line of [blockText] as the line pattern matches it. *)
Definition lineMatch (findJSDoc : bool) (TAG text : str) : MatchResult :=
  mkMatch (3 + length (gap findJSDoc))
    [Some (linePrefixText findJSDoc ++ TAG ++ SPACE :: text ++ [SPACE]);
     Some []; Some (linePrefixText findJSDoc); Some TAG; Some [SPACE];
     Some (text ++ [SPACE])].

(** A configuration whose first tag is the empty text. *)
Definition emptyTagConfig : Config.Contributions :=
  Config.mkContributions true true [plainTag EmptyString; plainTag "TODO"].

(** The calls a user of the class makes. *)
Inductive call : Type :=
| CallSetRegex (languageCode : string)
| CallFindSingleLineComments (activeEditor : TextEditor)
| CallFindMultilineComments (activeEditor : TextEditor) (findJSDoc : bool)
| CallApplyDecorations.

Definition perform (c : call) (p : Parser) : outcome Parser :=
  match c with
  | CallSetRegex languageCode => Done (SetRegex languageCode p)
  | CallFindSingleLineComments activeEditor =>
    FindSingleLineComments activeEditor p
  | CallFindMultilineComments activeEditor findJSDoc =>
    FindMultilineComments activeEditor findJSDoc p
  | CallApplyDecorations => Done (snd (ApplyDecorations p))
  end.

(** The calls [cs] one after the other, as long as each returns. *)
Fixpoint performAll (cs : list call) (p : Parser) : outcome Parser :=
  match cs with
  | [] => Done p
  | c :: rest =>
    match perform c p with
    | Done p' => performAll rest p'
    | other => other
    end
  end.

(** A parser the constructor built for [cfg] and calls that returned have
    changed since. *)
Definition reached (cfg : Config.Contributions) (p : Parser) : Prop :=
  exists cs, performAll cs (newParser cfg) = Done p.

(** What every reached parser satisfies. *)
Definition shaped (cfg : Config.Contributions) (p : Parser) : Prop :=
  map clearRanges (tags p) = map makeTag (Config.tags cfg)
  /\ contributions p = cfg
  /\ In (delimiter p) ([] :: delimiters)
  /\ (delimiter p <> [] ->
      expression p
      = singleLineSource (delimiter p) (map Config.tag (Config.tags cfg))).

(** A pattern that can match the empty text at every position. *)
Fixpoint nullable (r : regex) : bool :=
  match r with
  | REmpty => true
  | RSeq r1 r2 => nullable r1 && nullable r2
  | RAlt r1 r2 => nullable r1 || nullable r2
  | RGroup _ r' => nullable r'
  | RRepeat min _ _ r' => (min =? 0) || nullable r'
  | _ => false
  end.

(** [text.includes(pre)] *)
Fixpoint occurs (pre text : str) : bool :=
  startsWith pre text
  || match text with
     | [] => false
     | _ :: rest => occurs pre rest
     end.

(** The text starts with what the block pattern of the style takes for the
    start of a block: [/**], or [/*] and one more character that is not
    [*]. *)
Definition opensAt (findJSDoc : bool) (s : str) : bool :=
  if findJSDoc then startsWith (chars "/**") s
  else
    match s with
    | a :: s1 =>
      Ascii.eqb "/" a
      && match s1 with
         | b :: s2 =>
           Ascii.eqb "*" b
           && match s2 with
              | d :: _ => negb (Ascii.eqb "*" d)
              | [] => false
              end
         | [] => false
         end
    | [] => false
    end.

Fixpoint hasOpener (findJSDoc : bool) (s : str) : bool :=
  opensAt findJSDoc s
  || match s with
     | [] => false
     | _ :: rest => hasOpener findJSDoc rest
     end.

(** The ranges of [t'] are those of [t] and more after them. *)
Definition extends (t t' : CommentTag) : Prop :=
  clearRanges t' = clearRanges t
  /\ exists added, ranges t' = ranges t ++ added.

(** The text ends a line, or is empty: what comes next starts a line. *)
Definition atLineStart (before : str) : Prop :=
  match lastOf before with
  | None => True
  | Some ch => isLineTerminator ch = true
  end.

(** A block on one line: [/** TAG text */], or [/* TAG text */]. *)
Definition inlineBlock (findJSDoc : bool) (TAG text : str) : str :=
  (if findJSDoc then chars "/** " else chars "/* ")
  ++ TAG ++ SPACE :: text ++ chars " */".

Unset Implicit Arguments.

(** * Properties *)

(** ** Lists of tags *)

Lemma flushTags_map (ts : list CommentTag) :
  flushTags ts
  = (map (fun t => (decoration t, ranges t)) ts, map clearRanges ts).
Proof.
  induction ts as [|t ts IH]; simpl; [reflexivity|].
  rewrite IH. reflexivity.
Qed.

Lemma nth_error_updateAt_same (A : Type) (f : A -> A) (l : list A) (k : nat) :
  nth_error (updateAt f k l) k = option_map f (nth_error l k).
Proof.
  revert k. induction l as [|a l IH]; intros [|k]; simpl; auto.
Qed.

Lemma nth_error_updateAt_other (A : Type) (f : A -> A) (l : list A) (k j : nat) :
  j <> k -> nth_error (updateAt f k l) j = nth_error l j.
Proof.
  revert k j. induction l as [|a l IH]; intros [|k] [|j] H; simpl;
    try congruence; auto.
Qed.

Lemma findTag_updateAt (f : CommentTag -> CommentTag) (ts : list CommentTag)
  (k : nat) (s : str) :
  (forall t, tag (f t) = tag t) ->
  findTag (updateAt f k ts) s = findTag ts s.
Proof.
  intros Hf. revert k. induction ts as [|t ts IH]; intros [|k]; simpl; auto.
  - rewrite Hf. reflexivity.
  - rewrite IH. reflexivity.
Qed.

Lemma findTag_bound (ts : list CommentTag) (s : str) (k : nat) :
  findTag ts s = Some k -> k < length ts.
Proof.
  revert k. induction ts as [|t ts IH]; simpl; intros k H; [discriminate|].
  destruct (str_eqb _ _).
  - injection H as <-. lia.
  - destruct (findTag ts s) as [j|]; [|discriminate].
    injection H as <-. specialize (IH j eq_refl). lia.
Qed.

(** ** The delimiter table *)

Lemma setDelimiter_fields (languageCode : string) (p : Parser) :
  tags (setDelimiter languageCode p) = tags p
  /\ expression (setDelimiter languageCode p) = expression p
  /\ contributions (setDelimiter languageCode p) = contributions p.
Proof.
  unfold setDelimiter.
  repeat match goal with |- context [if ?b then _ else _] => destruct b end;
    auto.
Qed.

Lemma SetRegex_fields (languageCode : string) (p : Parser) :
  tags (SetRegex languageCode p) = tags p
  /\ contributions (SetRegex languageCode p) = contributions p
  /\ delimiter (SetRegex languageCode p) = delimiter (setDelimiter languageCode p)
  /\ highlightMultilineComments (SetRegex languageCode p)
     = highlightMultilineComments (setDelimiter languageCode p)
  /\ ignoreFirstLine (SetRegex languageCode p)
     = ignoreFirstLine (setDelimiter languageCode p)
  /\ supportedLanguage (SetRegex languageCode p)
     = supportedLanguage (setDelimiter languageCode p).
Proof.
  destruct (setDelimiter_fields languageCode p) as (Ht & _ & Hc).
  unfold SetRegex. cbv zeta. unfold withExpression.
  cbn [tags contributions delimiter highlightMultilineComments ignoreFirstLine
       supportedLanguage].
  repeat split; assumption.
Qed.

Lemma setDelimiter_supported (languageCode : string) (p : Parser) :
  supportedLanguage (setDelimiter languageCode p) = inTable languageCode.
Proof.
  unfold inTable, languageTable, isOneOf.
  rewrite !existsb_app. simpl existsb at 3 5 8.
  unfold setDelimiter, isOneOf.
  repeat match goal with
         | |- context [existsb ?f ?l] => destruct (existsb f l)
         | |- context [String.eqb ?a ?b] => destruct (String.eqb a b)
         end; reflexivity.
Qed.

Lemma setDelimiter_unsupported (languageCode : string) (p : Parser) :
  inTable languageCode = false ->
  setDelimiter languageCode p = withSupportedLanguage false p.
Proof.
  unfold inTable, languageTable, isOneOf.
  rewrite !existsb_app. simpl existsb at 3 5 8.
  unfold setDelimiter, isOneOf.
  repeat match goal with
         | |- context [existsb ?f ?l] => destruct (existsb f l)
         | |- context [String.eqb ?a ?b] => destruct (String.eqb a b)
         end; simpl; try discriminate; destruct p; reflexivity.
Qed.

Lemma setDelimiter_ignoreFirstLine (languageCode : string) (p : Parser) :
  ignoreFirstLine (setDelimiter languageCode p)
  = ignoreFirstLine p || String.eqb languageCode "python".
Proof.
  destruct (String.eqb_spec languageCode "python") as [->|Hne].
  - cbn. now rewrite orb_true_r.
  - apply String.eqb_neq in Hne. unfold setDelimiter. rewrite Hne.
    repeat match goal with |- context [if ?b then _ else _] => destruct b end;
      simpl; now rewrite orb_false_r.
Qed.

Lemma resolveAll_ignoreFirstLine (langs : list string) (p : Parser) :
  ignoreFirstLine (resolveAll langs p)
  = ignoreFirstLine p || existsb (fun l => String.eqb l "python") langs.
Proof.
  revert p. induction langs as [|l langs IH]; intros p; simpl.
  - now rewrite orb_false_r.
  - unfold resolveAll in *. simpl. rewrite IH.
    destruct (SetRegex_fields l p) as (_ & _ & _ & _ & -> & _).
    rewrite setDelimiter_ignoreFirstLine. now rewrite orb_assoc.
Qed.

Lemma setDelimiter_highlight (languageCode : string) (p : Parser) :
  highlightMultilineComments (setDelimiter languageCode p)
  = if setsMultiline languageCode
    then Config.multilineComments (contributions p)
    else highlightMultilineComments p.
Proof.
  unfold setsMultiline.
  destruct (String.eqb_spec languageCode "terraform") as [->|Hne].
  - reflexivity.
  - apply String.eqb_neq in Hne. unfold setDelimiter. rewrite Hne, orb_false_r.
    repeat match goal with |- context [if ?b then _ else _] => destruct b end;
      reflexivity.
Qed.

(** ** Flush *)

(** C8.  [ApplyDecorations] calls [setDecorations] once for every tag, in
    registration order, with the tag's decoration and the ranges it has
    accumulated; a tag without ranges is passed the empty list, not left
    out; afterwards every tag's [ranges] is empty and nothing else of the
    parser has changed. *)
Theorem ApplyDecorations_emits_then_clears (p : Parser) :
  fst (ApplyDecorations p)
  = map (fun t => (decoration t, ranges t)) (tags p)
  /\ (forall k t, nth_error (tags p) k = Some t ->
        nth_error (fst (ApplyDecorations p)) k = Some (decoration t, ranges t))
  /\ length (fst (ApplyDecorations p)) = length (tags p)
  /\ snd (ApplyDecorations p) = withTags (map clearRanges (tags p)) p
  /\ Forall (fun t => ranges t = []) (tags (snd (ApplyDecorations p))).
Proof.
  unfold ApplyDecorations. rewrite flushTags_map. cbn [fst snd].
  repeat split.
  - intros k t H. rewrite nth_error_map, H. reflexivity.
  - apply length_map.
  - cbn [tags withTags]. apply Forall_forall. intros t Ht.
    apply in_map_iff in Ht. destruct Ht as (t0 & <- & _). reflexivity.
Qed.

(** ** First-line skip *)

(** C5.  [setDelimiter] sets [ignoreFirstLine] for python and never resets
    it: after python, ruby still has the flag, and the scan of a ruby
    document drops the comment on its first line. *)
Theorem ignoreFirstLine_survives_python :
  (forall cfg,
      ignoreFirstLine (resolveAll ["python"; "ruby"]%string (newParser cfg))
      = true)
  /\ FindSingleLineComments (mkEditor (chars "# TODO first"))
       (resolveAll ["python"; "ruby"]%string (newParser sampleConfig))
     = Done (resolveAll ["python"; "ruby"]%string (newParser sampleConfig))
  /\ (exists p',
        FindSingleLineComments (mkEditor (chars "# TODO first"))
          (resolveAll ["ruby"]%string (newParser sampleConfig)) = Done p'
        /\ map (fun t => length (ranges t)) (tags p') = [1]).
Proof.
  split; [|split].
  - intros cfg. rewrite resolveAll_ignoreFirstLine. reflexivity.
  - vm_compute. reflexivity.
  - eexists. split; [vm_compute; reflexivity|]. reflexivity.
Qed.

(** ** Multi-line scanning *)



(** C3.  [setDelimiter] sets [highlightMultilineComments] in the [//] cases
    and for terraform and never resets it: after javascript, python still
    has the flag of the configuration, and the multi-line pass over a
    python document finds the block. *)
Theorem highlightMultilineComments_survives :
  (forall cfg,
      highlightMultilineComments
        (resolveAll ["javascript"; "python"]%string (newParser cfg))
      = Config.multilineComments cfg)
  /\ (exists p',
        FindMultilineComments (mkEditor plainBlock) false
          (resolveAll ["javascript"; "python"]%string (newParser sampleConfig))
        = Done p'
        /\ map (fun t => length (ranges t)) (tags p') = [1]).
Proof.
  split.
  - intros cfg. reflexivity.
  - eexists. split; [vm_compute; reflexivity|]. reflexivity.
Qed.

(** On a parser that has resolved nothing before, the flag is as C3 says. *)
Lemma first_resolve_highlight (cfg : Config.Contributions)
  (languageCode : string) :
  highlightMultilineComments (SetRegex languageCode (newParser cfg))
  = setsMultiline languageCode && Config.multilineComments cfg.
Proof.
  destruct (SetRegex_fields languageCode (newParser cfg))
    as (_ & _ & _ & -> & _).
  rewrite setDelimiter_highlight.
  destruct (setsMultiline languageCode); reflexivity.
Qed.

Lemma first_resolve_ignoreFirstLine (cfg : Config.Contributions)
  (languageCode : string) :
  ignoreFirstLine (SetRegex languageCode (newParser cfg))
  = String.eqb languageCode "python".
Proof.
  destruct (SetRegex_fields languageCode (newParser cfg))
    as (_ & _ & _ & _ & -> & _).
  now rewrite setDelimiter_ignoreFirstLine.
Qed.

(** ** Patterns built from escaped literals *)




Lemma consTok_Some (t : token) (r : option (list token)) :
  consTok (Some t) r = prepend [t] r.
Proof. destruct r; reflexivity. Qed.

Lemma prepend_app (a b : list token) (r : option (list token)) :
  prepend (a ++ b) r = prepend a (prepend b r).
Proof. destruct r; simpl; [rewrite app_assoc|]; reflexivity. Qed.

Lemma escaped_char_lexes (c : ascii) (s : str) :
  lex LNormal (escapeSlashes (escapeSpecials [c]) ++ s)
  = prepend [TLit c] (lex LNormal s).
Proof.
  rewrite <- consTok_Some.
  destruct c as [[] [] [] [] [] [] [] []]; reflexivity.
Qed.

Lemma escapeSpecials_cons (c : ascii) (s : str) :
  escapeSpecials (c :: s) = escapeSpecials [c] ++ escapeSpecials s.
Proof. unfold escapeSpecials. simpl. now rewrite app_nil_r. Qed.

Lemma escapeSlashes_app (a b : str) :
  escapeSlashes (a ++ b) = escapeSlashes a ++ escapeSlashes b.
Proof. apply flat_map_app. Qed.

(** An escaped tag reads as the characters of the tag. *)
Lemma escaped_lexes (t s : str) :
  lex LNormal (escapeSlashes (escapeSpecials t) ++ s)
  = prepend (map TLit t) (lex LNormal s).
Proof.
  induction t as [|c t IH].
  - change (escapeSlashes (escapeSpecials []) ++ s) with s.
    destruct (lex LNormal s); reflexivity.
  - rewrite escapeSpecials_cons, escapeSlashes_app, <- app_assoc.
    rewrite escaped_char_lexes, IH.
    change (map TLit (c :: t)) with ([TLit c] ++ map TLit t).
    now rewrite prepend_app.
Qed.

Lemma joined_lexes (names : list str) (s : str) :
  lex LNormal (join (chars "|") (map escapeTag names) ++ s)
  = prepend (join [TBar] (map (map TLit) names)) (lex LNormal s).
Proof.
  induction names as [|a names IH].
  - cbn [map join app]. destruct (lex LNormal s); reflexivity.
  - destruct names as [|b names].
    + apply escaped_lexes.
    + change (join (chars "|") (map escapeTag (a :: b :: names)))
        with (escapeTag a ++ chars "|" ++ join (chars "|") (map escapeTag (b :: names))).
      change (join [TBar] (map (map TLit) (a :: b :: names)))
        with (map TLit a ++ [TBar] ++ join [TBar] (map (map TLit) (b :: names))).
      rewrite <- !app_assoc. unfold escapeTag at 1. rewrite escaped_lexes.
      rewrite !prepend_app. f_equal.
      change (lex LNormal (chars "|" ++ join (chars "|") (map escapeTag (b :: names)) ++ s))
        with (consTok (Some TBar)
                (lex LNormal (join (chars "|") (map escapeTag (b :: names)) ++ s))).
      rewrite consTok_Some, IH. reflexivity.
Qed.


Lemma parse_lits (s : str) (ts : list token) (st : parseState) :
  parseTokens st (map TLit s ++ ts)
  = parseTokens (mkParseState (nextGroup st) (pushLits s (current st)) (outer st)) ts.
Proof.
  revert st. induction s as [|c s IH]; intros st.
  - destruct st; reflexivity.
  - simpl. rewrite IH. reflexivity.
Qed.

Lemma pushLits_frame (s : str) (f : frame) :
  fgroup (pushLits s f) = fgroup f
  /\ falts (pushLits s f) = falts f
  /\ fseq (pushLits s f) = rev (map RChar s) ++ fseq f.
Proof.
  revert f. induction s as [|c s IH]; intros f.
  - auto.
  - simpl. destruct (IH (pushTerm (RChar c) QAtom f)) as (H1 & H2 & H3).
    unfold pushLits in *. rewrite H1, H2, H3. simpl.
    rewrite <- app_assoc. auto.
Qed.

Lemma mkSeq_lits (s : str) : mkSeq (rev (map RChar s)) = lits s.
Proof.
  unfold mkSeq, lits. rewrite <- fold_left_rev_right, rev_involutive.
  induction s as [|c s IH]; simpl; [|rewrite IH]; reflexivity.
Qed.


Lemma closeFrame_altsFrom (f : frame) :
  closeFrame f = altsFrom (rev (falts f) ++ [mkSeq (fseq f)]).
Proof. reflexivity. Qed.

(** A group whose alternatives are literals. *)
Lemma parse_alternatives (names : list str) (a : str) (alts0 : list regex)
  (g n : nat) (q : quantState) (parent : frame) (rest : list frame)
  (ts : list token) :
  parseTokens (mkParseState n (mkFrame g alts0 [] q) (parent :: rest))
              (join [TBar] (map (map TLit) (a :: names)) ++ TClose :: ts)
  = parseTokens
      (mkParseState n
         (pushTerm (RGroup g (altsFrom (rev alts0 ++ map lits (a :: names))))
                   QAtom parent)
         rest)
      ts.
Proof.
  revert a alts0 q. induction names as [|b names IH]; intros a alts0 q.
  - cbn [map join]. rewrite parse_lits. cbn [parseTokens parseStep current outer nextGroup].
    rewrite closeFrame_altsFrom.
    destruct (pushLits_frame a (mkFrame g alts0 [] q)) as (-> & -> & ->).
    cbn [fgroup falts fseq]. rewrite app_nil_r, mkSeq_lits. reflexivity.
  - change (join [TBar] (map (map TLit) (a :: b :: names)))
      with (map TLit a ++ [TBar] ++ join [TBar] (map (map TLit) (b :: names))).
    rewrite <- !app_assoc, parse_lits.
    cbn [app parseTokens parseStep current outer nextGroup withFrame option_map].
    destruct (pushLits_frame a (mkFrame g alts0 [] q)) as (-> & -> & ->).
    cbn [fgroup falts fseq]. rewrite app_nil_r, mkSeq_lits.
    rewrite IH. cbn [rev map]. rewrite <- !app_assoc. reflexivity.
Qed.

Lemma prepend_cons (t : token) (ts : list token) (r : option (list token)) :
  consTok (Some t) (prepend ts r) = prepend (t :: ts) r.
Proof. destruct r; reflexivity. Qed.

(** Lexing a text that ends outside a class and outside an escape, then
    another. *)
Lemma lex_app (a b : str) (mode : lexMode) (ta : list token) :
  lex mode a = Some ta ->
  lex mode (a ++ b) = prepend ta (lex LNormal b).
Proof.
  revert mode ta. induction a as [|c a IH]; intros mode ta H.
  - destruct mode; try discriminate. injection H as <-. cbn [app].
    destruct (lex LNormal b); reflexivity.
  - cbn [app lex] in *.
    assert (Hcons : forall t,
               consTok t (lex LNormal a) = Some ta ->
               consTok t (lex LNormal (a ++ b)) = prepend ta (lex LNormal b)).
    { intros [t|] Ht; [|discriminate].
      destruct (lex LNormal a) as [ta'|] eqn:E; [|discriminate].
      injection Ht as <-. rewrite (IH LNormal ta' E). apply prepend_cons. }
    destruct mode;
      repeat match goal with
             | H : (if ?b then _ else _) = Some _ |- _ => destruct b
             | H : match ?o with Some _ => _ | None => _ end = Some _ |- _ =>
               destruct o
             end;
      try discriminate; auto.
Qed.

Lemma escapeTag_lexes (t : str) : lex LNormal (escapeTag t) = Some (map TLit t).
Proof.
  unfold escapeTag. rewrite <- (app_nil_r (escapeSlashes _)), escaped_lexes.
  simpl. now rewrite app_nil_r.
Qed.

Lemma joined_tags_lex (names : list str) :
  lex LNormal (join (chars "|") (map escapeTag names))
  = Some (join [TBar] (map (map TLit) names)).
Proof.
  rewrite <- (app_nil_r (join _ _)), joined_lexes. simpl. now rewrite app_nil_r.
Qed.

Lemma parseTokens_app (a b : list token) (st : parseState) :
  parseTokens st (a ++ b)
  = match parseTokens st a with
    | Some st' => parseTokens st' b
    | None => None
    end.
Proof.
  revert st. induction a as [|t a IH]; intros st; simpl; [reflexivity|].
  destruct (parseStep st t); [apply IH|reflexivity].
Qed.

Lemma parse_alternatives_any (names : list str)
  (g n : nat) (q : quantState) (parent : frame) (rest : list frame)
  (ts : list token) :
  parseTokens (mkParseState n (mkFrame g [] [] q) (parent :: rest))
              (join [TBar] (map (map TLit) names) ++ TClose :: ts)
  = parseTokens
      (mkParseState n (pushTerm (RGroup g (altsOf names)) QAtom parent) rest)
      ts.
Proof.
  destruct names as [|a names].
  - reflexivity.
  - apply parse_alternatives.
Qed.

Lemma closeFrame_pushLits (s : str) (g : nat) (q : quantState) :
  closeFrame (pushLits s (mkFrame g [] [] q)) = lits s.
Proof.
  rewrite closeFrame_altsFrom.
  destruct (pushLits_frame s (mkFrame g [] [] q)) as (_ & -> & ->).
  cbn [falts fseq rev app altsFrom mkAlt]. now rewrite app_nil_r, mkSeq_lits.
Qed.




Lemma singleLine_parses (D : str) (names : list str) :
  escapeSpecials D = D ->
  parsePattern (singleLineSource D names)
  = Some (singleLinePattern D names, 4).
Proof.
  intros HD.
  assert (HL : lex LNormal (escapeSlashes D) = Some (map TLit D)).
  { rewrite <- HD at 1. apply escapeTag_lexes. }
  unfold parsePattern, singleLineSource.
  rewrite (lex_app (chars "(") _ LNormal ([TOpen]) eq_refl).
  rewrite (lex_app _ _ LNormal _ HL).
  rewrite (lex_app (chars ")+( |") _ LNormal
             ([TClose; TPlus; TOpen; TLit SPACE; TBar]) eq_refl).
  rewrite (lex_app [TAB] _ LNormal ([TLit TAB]) eq_refl).
  rewrite (lex_app (chars ")*") _ LNormal ([TClose; TStar]) eq_refl).
  rewrite (lex_app (chars "(") _ LNormal ([TOpen]) eq_refl).
  rewrite (lex_app _ _ LNormal _ (joined_tags_lex names)).
  change (lex LNormal (chars ")+(.*)"))
    with (Some [TClose; TPlus; TOpen; TDot; TStar; TClose]).
  cbn [prepend option_map app].
  cbn [parseTokens parseStep initialParse current outer nextGroup].
  rewrite parse_lits.
  cbn [parseTokens parseStep initialParse current outer nextGroup withFrame
       option_map quantify makeLazy pushTerm fquant fseq falts fgroup].
  rewrite closeFrame_pushLits.
  rewrite (proj1 (pushLits_frame D _)).
  rewrite parse_alternatives_any.
  reflexivity.
Qed.

(** ** Running the matcher on a text of known shape *)



Lemma advance_fields (u v : str) (x : MatchState) :
  remaining x = u ++ v ->
  endIndex (advance (length u) x) = endIndex x + length u
  /\ remaining (advance (length u) x) = v
  /\ captures (advance (length u) x) = captures x.
Proof.
  revert x. induction u as [|ch u IH]; intros x H.
  - simpl. rewrite H. auto.
  - simpl. rewrite H. simpl.
    destruct (IH (mkState (S (endIndex x)) (Some ch) (u ++ v) (captures x)) eq_refl)
      as (H1 & H2 & H3).
    rewrite H1, H2, H3. simpl. repeat split. lia.
Qed.

Lemma matcher_lits (fl : Flags) (s : str) (c : cont) (x : MatchState) :
  matcher fl (lits s) c x
  = if prefixMatches fl s (remaining x) then c (advance (length s) x) else None.
Proof.
  revert x. induction s as [|a s IH]; intros x.
  - reflexivity.
  - cbn [lits fold_right matcher]. fold (lits s). unfold charMatcher.
    destruct (remaining x) as [|ch rest] eqn:E; [reflexivity|].
    cbn [prefixMatches length advance]. rewrite E.
    destruct (sameChar fl a ch); [|reflexivity].
    rewrite IH. reflexivity.
Qed.

Lemma matcher_mkAlt (fl : Flags) (a b : regex) (rest : list regex) (c : cont)
  (x : MatchState) :
  matcher fl (mkAlt a (b :: rest)) c x
  = match matcher fl a c x with
    | Some z => Some z
    | None => matcher fl (mkAlt b rest) c x
    end.
Proof. reflexivity. Qed.

(** The first literal that matches and lets the continuation succeed is
    chosen. *)
Lemma matcher_alts_first (fl : Flags) (pre post : list str) (t : str) (c : cont)
  (x z : MatchState) :
  Forall (fun n => prefixMatches fl n (remaining x) = false) pre ->
  prefixMatches fl t (remaining x) = true ->
  c (advance (length t) x) = Some z ->
  matcher fl (altsOf (pre ++ t :: post)) c x = Some z.
Proof.
  intros Hpre Ht Hc. induction Hpre as [|n pre Hn _ IH].
  - destruct post as [|b post]; cbn [app altsOf map].
    + cbn [mkAlt]. now rewrite matcher_lits, Ht.
    + rewrite matcher_mkAlt, matcher_lits, Ht, Hc. reflexivity.
  - assert (E : altsOf ((n :: pre) ++ t :: post)
                = mkAlt (lits n) (map lits (pre ++ t :: post))) by reflexivity.
    rewrite E. destruct (pre ++ t :: post) as [|b l] eqn:El.
    + destruct pre; discriminate.
    + cbn [map]. rewrite matcher_mkAlt, matcher_lits, Hn.
      exact IH.
Qed.

(** No literal matches in a way the continuation accepts. *)
Lemma matcher_alts_none (fl : Flags) (names : list str) (c : cont)
  (x : MatchState) :
  Forall (fun n => prefixMatches fl n (remaining x) = true ->
                   c (advance (length n) x) = None) names ->
  c x = None ->
  matcher fl (altsOf names) c x = None.
Proof.
  intros H Hc. induction H as [|n names Hn _ IH].
  - exact Hc.
  - assert (Hone : matcher fl (lits n) c x = None).
    { rewrite matcher_lits.
      destruct (prefixMatches fl n (remaining x)); auto. }
    destruct names as [|b names].
    + exact Hone.
    + change (altsOf (n :: b :: names)) with (mkAlt (lits n) (lits b :: map lits names)).
      rewrite matcher_mkAlt, Hone. exact IH.
Qed.

(** *** Repetition *)

Section Repeat.

Variable body : cont -> MatchState -> option MatchState.
Variable gs : list nat.

(** A greedy unbounded repetition whose body matches once, up to [y],
    and cannot go on from there: the repetition ends at [y]. *)
Lemma repeat_once (fuel min : nat) (c : cont) (x y z : MatchState) :
  min <= 1 ->
  2 <= fuel ->
  (min = 0 -> endIndex y <> endIndex x) ->
  (forall k, k y = Some z -> body k (clearCaptures gs x) = Some z) ->
  (forall k, (forall s, endIndex s = endIndex y -> k s = None) ->
             body k (clearCaptures gs y) = None) ->
  c y = Some z ->
  repeatMatcher body gs fuel min None true c x = Some z.
Proof.
  intros Hmin Hfuel Hprog H1 H2 Hc.
  destruct fuel as [|[|fuel]]; try lia.
  assert (Hy : repeatMatcher body gs (S fuel) 0 None true c y = Some z).
  { cbn [repeatMatcher isZero Nat.eqb negb andb]. rewrite H2; [exact Hc|].
    intros s Hs. apply Nat.eqb_eq in Hs. now rewrite Hs. }
  destruct min as [|[|min]]; try lia.
  - cbn [repeatMatcher isZero Nat.eqb negb andb] in *.
    rewrite H1; [reflexivity|].
    destruct (endIndex y =? endIndex x) eqn:E.
    + apply Nat.eqb_eq in E. now specialize (Hprog eq_refl).
    + exact Hy.
  - cbn [repeatMatcher isZero Nat.eqb negb andb Nat.sub decr option_map] in *.
    apply H1. exact Hy.
Qed.

(** A repetition that must match once and cannot. *)
Lemma repeat_fails (fuel min : nat) (max : option nat) (greedy : bool)
  (c : cont) (x : MatchState) :
  isZero max = false ->
  min <> 0 ->
  (forall k, body k (clearCaptures gs x) = None) ->
  repeatMatcher body gs fuel min max greedy c x = None.
Proof.
  intros Hmax Hmin H. destruct fuel as [|fuel]; [reflexivity|].
  cbn [repeatMatcher]. rewrite Hmax.
  destruct (min =? 0) eqn:E; [apply Nat.eqb_eq in E; contradiction|].
  apply H.
Qed.

(** A greedy repetition whose body cannot match: zero iterations. *)
Lemma repeat_none (fuel : nat) (c : cont) (x : MatchState) :
  1 <= fuel ->
  (forall k, (forall s, endIndex s = endIndex x -> k s = None) ->
             body k (clearCaptures gs x) = None) ->
  repeatMatcher body gs fuel 0 None true c x = c x.
Proof.
  intros Hfuel H. destruct fuel as [|fuel]; [lia|].
  cbn [repeatMatcher isZero Nat.eqb negb andb]. rewrite H; [reflexivity|].
  intros s Hs. apply Nat.eqb_eq in Hs. now rewrite Hs.
Qed.

End Repeat.

(** A greedy repetition of a one-character pattern over a run of
    characters it accepts, followed by one it does not. *)
Lemma repeat_run (P : ascii -> bool) (run tail : str) (fuel : nat) (c : cont)
  (x z : MatchState) :
  remaining x = run ++ tail ->
  forallb P run = true ->
  match tail with [] => True | ch :: _ => P ch = false end ->
  length run < fuel ->
  c (advance (length run) x) = Some z ->
  repeatMatcher (charMatcher P) [] fuel 0 None true c x = Some z.
Proof.
  revert x fuel. induction run as [|ch run IH]; intros x fuel Hx HP Htail Hfuel Hc.
  - destruct fuel as [|fuel]; [simpl in Hfuel; lia|].
    cbn [repeatMatcher isZero Nat.eqb negb andb clearCaptures fold_left].
    unfold charMatcher. rewrite Hx. cbn [app].
    destruct tail as [|ch tail]; [exact Hc|]. rewrite Htail. exact Hc.
  - destruct fuel as [|fuel]; [simpl in Hfuel; lia|].
    cbn [forallb] in HP. apply andb_prop in HP. destruct HP as [Hch HP].
    cbn [repeatMatcher isZero Nat.eqb negb andb clearCaptures fold_left].
    unfold charMatcher at 1. rewrite Hx. cbn [app]. rewrite Hch.
    cbn [endIndex].
    replace (S (endIndex x) =? endIndex x) with false
      by (symmetry; apply Nat.eqb_neq; lia).
    cbn [Nat.sub decr option_map].
    rewrite (IH (mkState (S (endIndex x)) (Some ch) (run ++ tail) (captures x))
                fuel eq_refl HP Htail); [reflexivity|simpl in Hfuel; lia|].
    cbn [length advance] in Hc. rewrite Hx in Hc. exact Hc.
Qed.

Lemma advance_app (u v : str) (x : MatchState) :
  remaining x = u ++ v ->
  advance (length u) x
  = mkState (endIndex x + length u) (prevAfter (prevChar x) u) v (captures x).
Proof.
  revert x. induction u as [|ch u IH]; intros x H.
  - simpl. rewrite Nat.add_0_r. destruct x; simpl in *; now subst.
  - simpl. rewrite H. simpl.
    rewrite (IH (mkState (S (endIndex x)) (Some ch) (u ++ v) (captures x))
                eq_refl).
    simpl. f_equal. lia.
Qed.

Lemma sameText_prefix (fl : Flags) (s u v : str) :
  sameText fl s u = true ->
  prefixMatches fl s (u ++ v) = true /\ length s = length u.
Proof.
  revert u. induction s as [|a s IH]; intros [|ch u] H; try discriminate.
  - auto.
  - simpl in *. apply andb_prop in H. destruct H as [H1 H2].
    destruct (IH u H2) as [-> ->]. rewrite H1. auto.
Qed.

Lemma matcher_lits_at (fl : Flags) (s u v : str) (c : cont) (x : MatchState) :
  remaining x = u ++ v ->
  sameText fl s u = true ->
  matcher fl (lits s) c x
  = c (mkState (endIndex x + length u) (prevAfter (prevChar x) u) v (captures x)).
Proof.
  intros Hx Hs. destruct (sameText_prefix fl s u v Hs) as [Hp Hl].
  rewrite matcher_lits, Hx, Hp, Hl, (advance_app u v x Hx). reflexivity.
Qed.

Lemma matcher_lits_fails (fl : Flags) (s : str) (c : cont) (x : MatchState) :
  prefixMatches fl s (remaining x) = false ->
  matcher fl (lits s) c x = None.
Proof. intros H. now rewrite matcher_lits, H. Qed.

Lemma sameChar_refl (fl : Flags) (a : ascii) : sameChar fl a a = true.
Proof. unfold sameChar. destruct (ignoreCase fl); apply Ascii.eqb_refl. Qed.

Lemma sameText_refl (fl : Flags) (s : str) : sameText fl s s = true.
Proof.
  induction s as [|a s IH]; simpl; [reflexivity|].
  now rewrite sameChar_refl, IH.
Qed.

Lemma groupsOf_lits (s : str) : groupsOf (lits s) = [].
Proof. induction s as [|a s IH]; simpl; auto. Qed.

Lemma groupsOf_mkAlt_lits (a : str) (names : list str) :
  groupsOf (mkAlt (lits a) (map lits names)) = [].
Proof.
  revert a. induction names as [|b names IH]; intros a; simpl.
  - apply groupsOf_lits.
  - rewrite groupsOf_lits. apply IH.
Qed.

Lemma groupsOf_altsOf (names : list str) : groupsOf (altsOf names) = [].
Proof. destruct names; [reflexivity|apply groupsOf_mkAlt_lits]. Qed.

Lemma firstn_exact (u v : str) (e : nat) :
  firstn (e + length u - e) (u ++ v) = u.
Proof.
  replace (e + length u - e) with (length u + 0) by lia.
  rewrite firstn_app_2. simpl. apply app_nil_r.
Qed.





Lemma canonicalize_blank (ch : ascii) :
  isBlank ch = false ->
  sameChar flagsIG SPACE ch = false /\ sameChar flagsIG TAB ch = false.
Proof.
  destruct ch as [[] [] [] [] [] [] [] []]; intros H; try discriminate H;
    split; reflexivity.
Qed.

Ltac norm_state :=
  repeat match goal with
         | x := mkState _ _ _ _ |- _ => progress unfold x
         end;
  cbn [setCapture clearCaptures fold_left endIndex remaining captures prevChar
       setNth Nat.sub];
  rewrite ?firstn_exact.

Section SingleLine.

Variables (D : str) (names pre post : list str) (t TAG rest tail : str).
Variables (pos : nat) (prev : option ascii).

Let W := TAG ++ rest ++ tail.

Hypothesis D_nonempty : D <> [].
Hypothesis D_not_blank : forall v, prefixMatches flagsIG D (SPACE :: v) = false.
Hypothesis names_split : names = pre ++ t :: post.
Hypothesis earlier_fail :
  Forall (fun n => prefixMatches flagsIG n W = false) pre.
Hypothesis t_matches : sameText flagsIG t TAG = true.
Hypothesis no_repeat :
  Forall (fun n => n <> [] -> prefixMatches flagsIG n (rest ++ tail) = false)
         names.
Hypothesis no_blank : startsWithBlank W = false.
Hypothesis rest_line : forallb notTerminator rest = true.
Hypothesis tail_line : endsLine tail.

Lemma singleLine_matchAt :
  matchAt (mkRegExp (singleLinePattern D names) 4 flagsIG) pos prev
          (D ++ SPACE :: W)
  = Some (mkMatch pos [Some (D ++ SPACE :: TAG ++ rest); Some D;
                       Some [SPACE]; Some TAG; Some rest]).
Proof.
  unfold matchAt.
  cbn [pattern reFlags nGroups repeat].
  set (x0 := mkState pos prev (D ++ SPACE :: W) [None; None; None; None]).
  set (y1 := mkState (pos + length D) (prevAfter prev D) (SPACE :: W)
                     [Some D; None; None; None]).
  set (y2 := mkState (pos + length D + 1) (Some SPACE) W
                     [Some D; Some [SPACE]; None; None]).
  set (y3 := mkState (pos + length D + 1 + length TAG)
                     (prevAfter (Some SPACE) TAG) (rest ++ tail)
                     [Some D; Some [SPACE]; Some TAG; None]).
  set (yf := mkState (pos + length D + 1 + length TAG + length rest)
                     (prevAfter (prevAfter (Some SPACE) TAG) rest) tail
                     [Some D; Some [SPACE]; Some TAG; Some rest]).
  assert (Hm : matcher flagsIG (singleLinePattern D names) Some x0 = Some yf).
  { unfold singleLinePattern, plus, star.
    cbn [matcher groupsOf]. rewrite groupsOf_lits.
    apply repeat_once with (y := y1).
    - lia.
    - lia.
    - discriminate.
    - intros k Hk.
      rewrite matcher_lits_at with (u := D) (v := SPACE :: W);
        [|reflexivity|apply sameText_refl].
      norm_state. exact Hk.
    - intros k _. apply matcher_lits_fails. apply D_not_blank.
    - apply repeat_once with (y := y2).
      + lia.
      + cbn. lia.
      + intros _. cbn. lia.
      + intros k Hk.
        rewrite matcher_lits_at with (u := [SPACE]) (v := W);
          [|reflexivity|reflexivity].
        norm_state. cbn [length]. rewrite (firstn_exact [SPACE] W).
        match goal with |- context [k ?s] => change s with y2 end.
        rewrite Hk. reflexivity.
      + intros k _.
        assert (Hb : prefixMatches flagsIG [SPACE] W = false
                     /\ prefixMatches flagsIG [TAB] W = false).
        { destruct W as [|ch W']; [auto|].
          destruct (canonicalize_blank ch no_blank) as [H1 H2].
          cbn [prefixMatches]. rewrite H1, H2. auto. }
        rewrite !matcher_lits_fails; [reflexivity|apply Hb|apply Hb].
      + rewrite groupsOf_altsOf. apply repeat_once with (y := y3).
        * lia.
        * lia.
        * discriminate.
        * intros k Hk. rewrite names_split.
          apply matcher_alts_first.
          -- exact earlier_fail.
          -- apply (sameText_prefix flagsIG t TAG (rest ++ tail) t_matches).
          -- destruct (sameText_prefix flagsIG t TAG (rest ++ tail) t_matches)
               as [_ ->].
             rewrite (advance_app TAG (rest ++ tail)); [|reflexivity].
             norm_state. unfold W. rewrite firstn_exact. exact Hk.
        * intros k Hk.
          apply matcher_alts_none.
          -- eapply Forall_impl; [|exact no_repeat].
             intros n Hn Hp. destruct n as [|a n].
             ++ apply Hk. reflexivity.
             ++ change (prefixMatches flagsIG (a :: n) (rest ++ tail) = true)
                  in Hp.
                rewrite Hn in Hp; discriminate.
          -- apply Hk. reflexivity.
        * apply repeat_run with (run := rest) (tail := tail).
          -- reflexivity.
          -- exact rest_line.
          -- destruct tail as [|ch tl]; [exact I|].
             cbn in tail_line. unfold notTerminator.
             now rewrite tail_line.
          -- cbn [remaining y3]. rewrite length_app. lia.
          -- rewrite (advance_app rest tail); [|reflexivity].
             norm_state. cbn [matcher]. reflexivity. }
  rewrite Hm. cbn [endIndex captures yf].
  do 3 f_equal.
  replace (D ++ SPACE :: W) with ((D ++ SPACE :: TAG ++ rest) ++ tail).
  2:{ unfold W. rewrite <- !app_assoc. cbn [app]. rewrite <- app_assoc. reflexivity. }
  replace (pos + length D + 1 + length TAG + length rest - pos)
    with (length (D ++ SPACE :: TAG ++ rest) + 0).
  2:{ rewrite length_app. cbn [length]. rewrite length_app. lia. }
  rewrite firstn_app_2. cbn [firstn]. now rewrite app_nil_r.
Qed.

End SingleLine.

(** ** Case *)

Lemma toLowerChar_canonicalize (a : ascii) :
  toLowerChar (canonicalize a) = toLowerChar a.
Proof. destruct a as [[] [] [] [] [] [] [] []]; reflexivity. Qed.

Lemma canonicalize_toLowerChar (a : ascii) :
  canonicalize (toLowerChar a) = canonicalize a.
Proof. destruct a as [[] [] [] [] [] [] [] []]; reflexivity. Qed.

(** Two code units have the same canonical form exactly when they have the
    same lower-case form. *)
Lemma sameChar_lower (a b : ascii) :
  Ascii.eqb (canonicalize a) (canonicalize b)
  = Ascii.eqb (toLowerChar a) (toLowerChar b).
Proof.
  apply eq_true_iff_eq. rewrite !Ascii.eqb_eq. split; intros H.
  - now rewrite <- (toLowerChar_canonicalize a), H, toLowerChar_canonicalize.
  - now rewrite <- (canonicalize_toLowerChar a), H, canonicalize_toLowerChar.
Qed.



Lemma prefixMatches_ciPrefix (s input : str) :
  prefixMatches flagsIG s input = ciPrefix s input.
Proof.
  unfold ciPrefix. revert input.
  induction s as [|a s IH]; intros [|b input]; simpl; try reflexivity.
  unfold sameChar. cbn [ignoreCase flagsIG].
  now rewrite sameChar_lower, IH.
Qed.

Lemma str_eqb_eq (a b : str) : str_eqb a b = true <-> a = b.
Proof.
  revert b. induction a as [|x a IH]; intros [|y b]; simpl;
    try (split; (discriminate || reflexivity)).
  rewrite andb_true_iff, Ascii.eqb_eq, IH.
  split; [intros [-> ->]; reflexivity|intros H; injection H; auto].
Qed.

Lemma sameText_lower (s u : str) :
  sameText flagsIG s u = str_eqb (toLowerCase s) (toLowerCase u).
Proof.
  revert u. induction s as [|a s IH]; intros [|b u]; simpl; try reflexivity.
  unfold sameChar. cbn [ignoreCase flagsIG].
  now rewrite sameChar_lower, IH.
Qed.

Lemma ciPrefix_of_equal (s u v : str) :
  toLowerCase s = toLowerCase u -> ciPrefix s (u ++ v) = true.
Proof.
  intros H. rewrite <- prefixMatches_ciPrefix.
  apply sameText_prefix. rewrite sameText_lower. now apply str_eqb_eq.
Qed.

(** ** Finding the tag *)

Lemma findTag_first (ts : list CommentTag) (s : str) (k : nat) (t : CommentTag) :
  nth_error ts k = Some t ->
  toLowerCase (tag t) = toLowerCase s ->
  (forall j t', j < k -> nth_error ts j = Some t' ->
                toLowerCase (tag t') <> toLowerCase s) ->
  findTag ts s = Some k.
Proof.
  revert k. induction ts as [|a ts IH]; intros [|k] Hk Ht Hj;
    try discriminate; simpl in *.
  - injection Hk as ->. apply str_eqb_eq in Ht. now rewrite Ht.
  - destruct (str_eqb (toLowerCase (tag a)) (toLowerCase s)) eqn:E.
    + apply str_eqb_eq in E. exfalso. apply (Hj 0 a); [lia|reflexivity|exact E].
    + rewrite (IH k Hk Ht); [reflexivity|].
      intros j t' Hlt Hn. apply (Hj (S j) t'); [lia|exact Hn].
Qed.

(** ** The parser the constructor builds *)

Lemma fold_append_map (A B : Type) (f : A -> B) (l : list A) (acc : list B) :
  fold_left (fun ts item => ts ++ [f item]) l acc = acc ++ map f l.
Proof.
  revert acc. induction l as [|a l IH]; intros acc; simpl.
  - now rewrite app_nil_r.
  - rewrite IH, <- app_assoc. reflexivity.
Qed.

Lemma tags_newParser (cfg : Config.Contributions) :
  tags (newParser cfg) = map makeTag (Config.tags cfg).
Proof. unfold newParser, setTags. simpl. now rewrite fold_append_map. Qed.


Lemma escapedTags_newParser (cfg : Config.Contributions) :
  escapedTags (newParser cfg).
Proof.
  unfold escapedTags, characters. rewrite tags_newParser, !map_map.
  reflexivity.
Qed.

Lemma expression_SetRegex (languageCode : string) (p : Parser) :
  escapedTags p ->
  expression (SetRegex languageCode p)
  = singleLineSource (delimiter (setDelimiter languageCode p))
                     (map tag (tags p)).
Proof.
  intros H. unfold SetRegex, singleLineSource. cbv zeta.
  cbn [expression withExpression].
  unfold characters in *.
  destruct (setDelimiter_fields languageCode p) as (-> & _ & _).
  unfold escapedTags, characters in H. rewrite H.
  rewrite <- !app_assoc. reflexivity.
Qed.

(** ** The delimiters *)


Lemma delimiter_in_table (languageCode : string) (p : Parser) :
  inTable languageCode = true ->
  In (delimiter (setDelimiter languageCode p)) delimiters.
Proof.
  unfold inTable, languageTable, isOneOf.
  rewrite !existsb_app. simpl existsb at 3 5 8.
  unfold setDelimiter, isOneOf.
  repeat match goal with
         | |- context [existsb ?f ?l] => destruct (existsb f l)
         | |- context [String.eqb ?a ?b] => destruct (String.eqb a b)
         end; simpl; intros H; try discriminate; auto 10.
Qed.

Lemma delimiters_plain (D : str) :
  In D delimiters ->
  D <> [] /\ escapeSpecials D = D
  /\ (forall ch v, isBlank ch || isLineTerminator ch = true ->
                   prefixMatches flagsIG D (ch :: v) = false).
Proof.
  intros H. simpl in H.
  assert (Hc : forall ch, isBlank ch || isLineTerminator ch = true ->
                 forallb (fun d => negb (sameChar flagsIG d ch))
                         (chars "/#-'%;") = true).
  { intros ch. destruct ch as [[] [] [] [] [] [] [] []]; intros Hb;
      try discriminate Hb; reflexivity. }
  repeat destruct H as [<-|H]; try contradiction;
    (split; [discriminate|split; [reflexivity|]]);
    intros ch v Hb; specialize (Hc ch Hb); cbn [prefixMatches chars
      list_ascii_of_string];
    cbn [forallb chars list_ascii_of_string] in Hc;
    repeat (apply andb_prop in Hc; destruct Hc as [? Hc]);
    repeat match goal with
           | H : negb ?b = true |- _ => apply negb_true_iff in H; rewrite ?H
           end; reflexivity.
Qed.

Lemma singleLine_no_match (D : str) (names : list str) (pos : nat)
  (prev : option ascii) (rem : str) :
  prefixMatches flagsIG D rem = false ->
  matchAt (mkRegExp (singleLinePattern D names) 4 flagsIG) pos prev rem = None.
Proof.
  intros H. unfold matchAt, singleLinePattern, plus.
  cbn [pattern reFlags matcher groupsOf]. rewrite groupsOf_lits.
  rewrite repeat_fails; [reflexivity|reflexivity|discriminate|].
  intros k. apply matcher_lits_fails. exact H.
Qed.


Lemma nth_error_split_pre (A : Type) (l : list A) (k : nat) (a : A) :
  nth_error l k = Some a ->
  l = firstn k l ++ a :: skipn (S k) l /\ length (firstn k l) = k.
Proof.
  revert k. induction l as [|x l IH]; intros [|k] H; try discriminate.
  - injection H as ->. auto.
  - simpl in H. destruct (IH k H) as [E L]. cbn [firstn skipn app length].
    rewrite L. split; [|reflexivity]. f_equal. exact E.
Qed.

Lemma singleLineLoop_one_match (fuel : nat) (activeEditor : TextEditor)
  (regEx : RegExp) (p p' : Parser) (m : MatchResult) (last : nat) :
  2 <= fuel ->
  exec regEx (getText activeEditor) 0 = (Some m, last) ->
  0 < last ->
  singleLineMatch activeEditor m p = Done p' ->
  exec regEx (getText activeEditor) last = (None, 0) ->
  singleLineLoop fuel activeEditor regEx 0 p = Done p'.
Proof.
  intros Hfuel E0 Hlast Hbody E1.
  destruct fuel as [|[|fuel]]; try lia.
  cbn [singleLineLoop]. rewrite E0, Hbody.
  destruct (last <=? 0) eqn:E; [apply Nat.leb_le in E; lia|].
  now rewrite E1.
Qed.


(** ** Unsupported languages *)

(** C2 as worded fails: [FindSingleLineComments] does not look at
    [supportedLanguage].  After an identifier outside the table the
    pattern is built from the delimiter left in place, here the initial
    empty one, and the scan appends a range. *)
Lemma unsupported_language_still_scans :
  inTable "plaintext" = false
  /\ supportedLanguage (SetRegex "plaintext" (newParser sampleConfig)) = false
  /\ exists p',
      FindSingleLineComments (mkEditor (chars "TODO rest"))
        (SetRegex "plaintext" (newParser sampleConfig)) = Done p'
      /\ collected p' = [(chars "TODO", [lineRange 0 0 9])].
Proof.
  split; [reflexivity|split; [reflexivity|]].
  eexists. split; [vm_compute; reflexivity|reflexivity].
Qed.

(** C2, as the code has it.  Resolving an identifier outside the table is
    not an error: it clears [supportedLanguage] and leaves the tags with
    their ranges, the delimiter and the two flags as they were, so the
    caller can skip the scan; and when no tag holds a range the flush
    passes the empty list for every tag. *)
Theorem unsupported_language_resolves (languageCode : string) (p : Parser) :
  inTable languageCode = false ->
  supportedLanguage (SetRegex languageCode p) = false
  /\ tags (SetRegex languageCode p) = tags p
  /\ delimiter (SetRegex languageCode p) = delimiter p
  /\ highlightMultilineComments (SetRegex languageCode p)
     = highlightMultilineComments p
  /\ ignoreFirstLine (SetRegex languageCode p) = ignoreFirstLine p
  /\ (Forall (fun t => ranges t = []) (tags p) ->
      fst (ApplyDecorations (SetRegex languageCode p))
      = map (fun t => (decoration t, [])) (tags p)).
Proof.
  intros H.
  destruct (SetRegex_fields languageCode p) as (Ht & _ & Hd & Hh & Hi & Hs).
  rewrite Hd, Hh, Hi, Hs, (setDelimiter_unsupported languageCode p H).
  repeat split; try assumption.
  intros Hempty. unfold ApplyDecorations. rewrite flushTags_map, Ht.
  cbn [fst]. apply map_ext_in. intros t Hin.
  rewrite Forall_forall in Hempty. now rewrite (Hempty t Hin).
Qed.

Lemma unsupported_language_resolves_witness :
  supportedLanguage (SetRegex "plaintext" (newParser sampleConfig)) = false
  /\ tags (SetRegex "plaintext" (newParser sampleConfig))
     = tags (newParser sampleConfig)
  /\ delimiter (SetRegex "plaintext" (newParser sampleConfig))
     = delimiter (newParser sampleConfig)
  /\ highlightMultilineComments (SetRegex "plaintext" (newParser sampleConfig))
     = highlightMultilineComments (newParser sampleConfig)
  /\ ignoreFirstLine (SetRegex "plaintext" (newParser sampleConfig))
     = ignoreFirstLine (newParser sampleConfig)
  /\ (Forall (fun t => ranges t = []) (tags (newParser sampleConfig)) ->
      fst (ApplyDecorations (SetRegex "plaintext" (newParser sampleConfig)))
      = map (fun t => (decoration t, [])) (tags (newParser sampleConfig))).
Proof.
  apply (unsupported_language_resolves "plaintext" (newParser sampleConfig)).
  reflexivity.
Defined.

(** ** The first line *)

Lemma positionAt_origin (activeEditor : TextEditor) :
  positionAt activeEditor 0 = mkPosition 0 0.
Proof. unfold positionAt. destruct (getText activeEditor); reflexivity. Qed.

(** C6.  With [ignoreFirstLine] set, a match that starts at offset 0 leaves
    the parser as it was, and a match that starts on a later line is
    appended, with the range of the whole match, to the tag its third
    group names.  In a python document with the same comment on line 0
    and on line 2, only the one on line 2 is collected. *)
Theorem first_line_match_is_skipped (activeEditor : TextEditor)
  (m : MatchResult) (p : Parser) :
  ignoreFirstLine p = true ->
  (index m = 0 -> singleLineMatch activeEditor m p = Done p)
  /\ (forall s k,
        0 < line (positionAt activeEditor (index m)) ->
        group 3 m = Some s ->
        findTag (tags p) s = Some k ->
        singleLineMatch activeEditor m p
        = Done (withTags (updateAt (pushRange (wholeMatch activeEditor m)) k
                                   (tags p)) p))
  /\ (exists p',
        FindSingleLineComments (mkEditor pythonDocument)
          (SetRegex "python" (newParser sampleConfig)) = Done p'
        /\ collected p' = [(chars "TODO", [lineRange 2 0 12])]).
Proof.
  intros Hflag. split; [|split].
  - intros H0. unfold singleLineMatch.
    rewrite Hflag, H0, positionAt_origin. reflexivity.
  - intros s k Hline Hs Hk. unfold singleLineMatch, atOrigin.
    rewrite Hflag, Hs.
    destruct (line (positionAt activeEditor (index m))) as [|n]; [lia|].
    cbn [Nat.eqb andb]. unfold addRange. rewrite Hk. reflexivity.
  - eexists. split; [vm_compute; reflexivity|reflexivity].
Qed.

Lemma first_line_match_is_skipped_witness :
  let activeEditor := mkEditor pythonDocument in
  let p := SetRegex "python" (newParser sampleConfig) in
  let m := mkMatch 0 [Some (chars "# TODO first"); Some (chars "#");
                      Some [SPACE]; Some (chars "TODO");
                      Some (chars " first")] in
  (index m = 0 -> singleLineMatch activeEditor m p = Done p)
  /\ (forall s k,
        0 < line (positionAt activeEditor (index m)) ->
        group 3 m = Some s ->
        findTag (tags p) s = Some k ->
        singleLineMatch activeEditor m p
        = Done (withTags (updateAt (pushRange (wholeMatch activeEditor m)) k
                                   (tags p)) p))
  /\ (exists p',
        FindSingleLineComments (mkEditor pythonDocument)
          (SetRegex "python" (newParser sampleConfig)) = Done p'
        /\ collected p' = [(chars "TODO", [lineRange 2 0 12])]).
Proof.
  apply (first_line_match_is_skipped (mkEditor pythonDocument)
           (mkMatch 0 [Some (chars "# TODO first"); Some (chars "#");
                       Some [SPACE]; Some (chars "TODO");
                       Some (chars " first")])
           (SetRegex "python" (newParser sampleConfig))).
  reflexivity.
Defined.

(** ** Tags that start alike *)

Lemma setDelimiter_slash (languageCode : string) (p : Parser) :
  isOneOf languageCode slashLanguages = true ->
  setDelimiter languageCode p
  = withHighlightMultilineComments
      (Config.multilineComments (contributions p))
      (withDelimiter (chars "//") (withSupportedLanguage true p)).
Proof. intros H. unfold setDelimiter. rewrite H. reflexivity. Qed.

(** C7.  With the tags [!] and [!!] registered in this order, the line
    [// !! urgent] of a [//] language is one match whose third group is
    [!], and its range goes to the tag [!]; [!!] collects nothing. *)
Theorem first_registered_tag_wins (languageCode : string) (ml js : bool)
  (c1 c2 : str) (s1 s2 : bool) :
  isOneOf languageCode slashLanguages = true ->
  let p := SetRegex languageCode (newParser (bangTags ml js c1 c2 s1 s2)) in
  let text := chars "// !! urgent" in
  exists regEx p',
    newRegExp (expression p) flagsIG = Some regEx
    /\ exec regEx text 0
       = (Some (mkMatch 0 [Some text; Some (chars "//"); Some [SPACE];
                           Some (chars "!"); Some (chars " urgent")]), 12)
    /\ exec regEx text 12 = (None, 0)
    /\ FindSingleLineComments (mkEditor text) p = Done p'
    /\ collected p' = [(chars "!", [lineRange 0 0 12]); (chars "!!", [])].
Proof.
  intros H p text. unfold p, SetRegex. rewrite (setDelimiter_slash _ _ H).
  eexists. eexists. split; [vm_compute; reflexivity|].
  split; [vm_compute; reflexivity|].
  split; [vm_compute; reflexivity|].
  split; [vm_compute; reflexivity|reflexivity].
Qed.

Lemma first_registered_tag_wins_witness :
  let p := SetRegex "typescript"
             (newParser (bangTags true true (chars "#FF2D00") (chars "#FF8C00")
                                  false false)) in
  let text := chars "// !! urgent" in
  exists regEx p',
    newRegExp (expression p) flagsIG = Some regEx
    /\ exec regEx text 0
       = (Some (mkMatch 0 [Some text; Some (chars "//"); Some [SPACE];
                           Some (chars "!"); Some (chars " urgent")]), 12)
    /\ exec regEx text 12 = (None, 0)
    /\ FindSingleLineComments (mkEditor text) p = Done p'
    /\ collected p' = [(chars "!", [lineRange 0 0 12]); (chars "!!", [])].
Proof.
  apply (first_registered_tag_wins "typescript" true true (chars "#FF2D00")
           (chars "#FF8C00") false false).
  reflexivity.
Defined.

(** ** The range of a single-line match *)

Lemma withTags_same (p : Parser) : withTags (tags p) p = p.
Proof. destruct p; reflexivity. Qed.

Lemma singleLineMatch_Done (activeEditor : TextEditor) (m : MatchResult)
  (p p' : Parser) :
  singleLineMatch activeEditor m p = Done p' ->
  p' = withTags (collect activeEditor p [m] (tags p)) p.
Proof.
  unfold singleLineMatch, collect, receiver. cbn [fold_left].
  destruct (ignoreFirstLine p && atOrigin _).
  - intros H. injection H as <-. now rewrite withTags_same.
  - destruct (group 3 m) as [s|].
    + intros H. injection H as <-. unfold addRange.
      destruct (findTag (tags p) s); [reflexivity|now rewrite withTags_same].
    + destruct (tags p) eqn:E; [|discriminate].
      intros H. injection H as <-. now rewrite <- E, withTags_same.
Qed.

Lemma receiver_withTags (activeEditor : TextEditor) (p : Parser)
  (ts : list CommentTag) (m : MatchResult) :
  map tag ts = map tag (tags p) ->
  receiver activeEditor (withTags ts p) m = receiver activeEditor p m.
Proof.
  intros H. unfold receiver. cbn [ignoreFirstLine tags withTags].
  destruct (ignoreFirstLine p && atOrigin _); [reflexivity|].
  destruct (group 3 m) as [s|]; [|reflexivity].
  revert H. generalize (tags p). induction ts as [|t ts IH]; intros [|t0 ts0] H;
    try discriminate; [reflexivity|].
  cbn [map] in H. injection H as Ht Hts. cbn [findTag]. rewrite Ht.
  now rewrite (IH ts0 Hts).
Qed.

Lemma map_tag_updateAt (r : DecorationOptions) (k : nat)
  (ts : list CommentTag) :
  map tag (updateAt (pushRange r) k ts) = map tag ts.
Proof.
  revert k. induction ts as [|t ts IH]; intros [|k]; simpl; try reflexivity.
  now rewrite IH.
Qed.

Lemma map_tag_collect (activeEditor : TextEditor) (p : Parser)
  (ms : list MatchResult) (ts : list CommentTag) :
  map tag (collect activeEditor p ms ts) = map tag ts.
Proof.
  revert ts. induction ms as [|m ms IH]; intros ts; [reflexivity|].
  unfold collect in *. cbn [fold_left]. rewrite IH.
  destruct (receiver activeEditor p m); [apply map_tag_updateAt|reflexivity].
Qed.

Lemma collect_ext (activeEditor : TextEditor) (p q : Parser)
  (ms : list MatchResult) (ts : list CommentTag) :
  (forall m, receiver activeEditor q m = receiver activeEditor p m) ->
  collect activeEditor q ms ts = collect activeEditor p ms ts.
Proof.
  intros H. revert ts. induction ms as [|m ms IH]; intros ts; [reflexivity|].
  unfold collect in *. cbn [fold_left]. rewrite H. apply IH.
Qed.

(** The loop hands the matches of [execAll] out in order. *)
Lemma singleLineLoop_collects (activeEditor : TextEditor) (regEx : RegExp)
  (fuel lastIndex : nat) (p p' : Parser) :
  singleLineLoop fuel activeEditor regEx lastIndex p = Done p' ->
  p' = withTags
         (collect activeEditor p
            (execAll fuel regEx (getText activeEditor) lastIndex) (tags p))
         p.
Proof.
  revert lastIndex p. induction fuel as [|fuel IH]; intros lastIndex p H;
    [discriminate|].
  cbn [singleLineLoop execAll] in *.
  destruct (exec regEx (getText activeEditor) lastIndex) as [[m|] last].
  - destruct (singleLineMatch activeEditor m p) as [p1| | |] eqn:E;
      try discriminate.
    destruct (last <=? lastIndex); [discriminate|].
    apply singleLineMatch_Done in E. apply IH in H. rewrite H, E.
    cbn [tags withTags].
    rewrite (collect_ext activeEditor p).
    + unfold collect. cbn [fold_left]. destruct p; reflexivity.
    + intros m'. apply receiver_withTags. apply map_tag_collect.
  - injection H as <-. cbn [collect fold_left]. now rewrite withTags_same.
Qed.

Lemma nth_error_collect (activeEditor : TextEditor) (p : Parser)
  (ms : list MatchResult) (ts : list CommentTag) (k : nat) (t : CommentTag) :
  nth_error ts k = Some t ->
  exists t',
    nth_error (collect activeEditor p ms ts) k = Some t'
    /\ tag t' = tag t
    /\ decoration t' = decoration t
    /\ ranges t'
       = ranges t
         ++ map (wholeMatch activeEditor)
                (filter (receives activeEditor p k) ms).
Proof.
  revert ts t. induction ms as [|m ms IH]; intros ts t Ht.
  - exists t. cbn. rewrite app_nil_r. auto.
  - unfold collect in *. cbn [fold_left filter]. unfold receives at 1.
    destruct (receiver activeEditor p m) as [j|].
    + destruct (Nat.eqb_spec j k) as [->|Hne].
      * destruct (IH (updateAt (pushRange (wholeMatch activeEditor m)) k ts)
                     (pushRange (wholeMatch activeEditor m) t))
          as (t' & H1 & H2 & H3 & H4).
        { now rewrite nth_error_updateAt_same, Ht. }
        exists t'. repeat split; try assumption.
        rewrite H4. cbn [ranges pushRange map]. now rewrite <- app_assoc.
      * apply IH. rewrite nth_error_updateAt_other; [exact Ht|congruence].
    + apply IH. exact Ht.
Qed.

(** *** What [exec] returns *)

Lemma matchAt_whole (re : RegExp) (pos : nat) (prev : option ascii)
  (rest : str) (m : MatchResult) :
  matchAt re pos prev rest = Some m ->
  index m = pos /\ exists n, group 0 m = Some (firstn n rest).
Proof.
  unfold matchAt. destruct (matcher _ _ _ _) as [y|]; [|discriminate].
  intros H. injection H as <-. split; [reflexivity|].
  eexists. reflexivity.
Qed.

Lemma search_whole (re : RegExp) (rest : str) (pos : nat) (prev : option ascii)
  (m : MatchResult) :
  search re pos prev rest = Some m ->
  exists d n,
    index m = pos + d /\ group 0 m = Some (firstn n (skipn d rest)).
Proof.
  revert pos prev. induction rest as [|ch rest IH]; intros pos prev H;
    cbn [search] in H;
    destruct (matchAt re pos prev _) as [m'|] eqn:E; try discriminate.
  - injection H as <-. destruct (matchAt_whole _ _ _ _ _ E) as (Hi & n & Hn).
    exists 0, n. rewrite Nat.add_0_r. auto.
  - injection H as <-. destruct (matchAt_whole _ _ _ _ _ E) as (Hi & n & Hn).
    exists 0, n. rewrite Nat.add_0_r. auto.
  - destruct (IH _ _ H) as (d & n & Hi & Hn).
    exists (S d), n. split; [lia|exact Hn].
Qed.

Lemma firstn_length_firstn (A : Type) (n : nat) (l : list A) :
  firstn (length (firstn n l)) l = firstn n l.
Proof.
  revert n. induction l as [|a l IH]; intros [|n]; simpl; try reflexivity.
  now rewrite IH.
Qed.

(** A match is the text from its index on, as long as its first group. *)
Lemma exec_whole (re : RegExp) (text : str) (lastIndex last : nat)
  (m : MatchResult) :
  exec re text lastIndex = (Some m, last) ->
  lastIndex <= index m
  /\ last = index m + matchLength m
  /\ group 0 m
     = Some (firstn (matchLength m) (skipn (index m) text)).
Proof.
  unfold exec. destruct (length text <? lastIndex); [discriminate|].
  destruct (search re lastIndex _ _) as [m'|] eqn:E; [|discriminate].
  intros H. injection H as -> <-.
  destruct (search_whole _ _ _ _ _ E) as (d & n & Hi & Hn).
  split; [lia|split; [reflexivity|]].
  rewrite skipn_skipn in Hn. rewrite Nat.add_comm, <- Hi in Hn.
  unfold matchLength, group in *.
  destruct (groups m) as [|g gs]; [discriminate|].
  cbn [nth] in *. rewrite Hn.
  now rewrite firstn_length_firstn.
Qed.

Lemma execAll_whole (regEx : RegExp) (text : str) (fuel lastIndex : nat) :
  Forall (fun m => group 0 m
                   = Some (firstn (matchLength m) (skipn (index m) text)))
         (execAll fuel regEx text lastIndex).
Proof.
  revert lastIndex. induction fuel as [|fuel IH]; intros lastIndex;
    cbn [execAll]; [constructor|].
  destruct (exec regEx text lastIndex) as [[m|] last] eqn:E; [|constructor].
  constructor.
  - apply (exec_whole _ _ _ _ _ E).
  - destruct (last <=? lastIndex); [constructor|apply IH].
Qed.

(** C10.  When the single-line scan returns, every tag holds the ranges it
    held before followed by one range for each match the scan gave it, in
    the order of the matches; that range runs from [positionAt(match.index)]
    to [positionAt(match.index + match[0].length)], and [match[0]] is the
    text from [match.index] on, delimiter and blanks included. *)
Theorem single_line_range_is_whole_match (activeEditor : TextEditor)
  (p p' : Parser) :
  FindSingleLineComments activeEditor p = Done p' ->
  exists regEx,
    newRegExp (expression p) flagsIG = Some regEx
    /\ let text := getText activeEditor in
       let ms := execAll (S (length text)) regEx text 0 in
       (forall k t,
           nth_error (tags p) k = Some t ->
           exists t',
             nth_error (tags p') k = Some t'
             /\ tag t' = tag t
             /\ decoration t' = decoration t
             /\ ranges t'
                = ranges t
                  ++ map (fun m =>
                            mkDecorationOptions
                              (newRange
                                 (positionAt activeEditor (index m))
                                 (positionAt activeEditor
                                    (index m + matchLength m))))
                         (filter (receives activeEditor p k) ms))
       /\ Forall (fun m =>
                    group 0 m
                    = Some (firstn (matchLength m) (skipn (index m) text)))
                 ms.
Proof.
  unfold FindSingleLineComments.
  destruct (newRegExp (expression p) flagsIG) as [regEx|]; [|discriminate].
  intros H. exists regEx. split; [reflexivity|]. cbv zeta. split.
  - apply singleLineLoop_collects in H. rewrite H. cbn [tags withTags].
    intros k t Ht. apply nth_error_collect. exact Ht.
  - apply execAll_whole.
Qed.

Lemma single_line_range_is_whole_match_witness :
  exists regEx,
    newRegExp (expression (SetRegex "javascript" (newParser sampleConfig)))
              flagsIG = Some regEx
    /\ let text := getText (mkEditor (chars "x = 1; // todo: check")) in
       let ms := execAll (S (length text)) regEx text 0 in
       (forall k t,
           nth_error (tags (SetRegex "javascript" (newParser sampleConfig))) k
           = Some t ->
           exists t',
             nth_error
               (tags (withTags
                        [mkCommentTag (chars "TODO") (chars "TODO")
                           (renderOptions (plainTag "TODO"))
                           [lineRange 0 7 21]]
                        (SetRegex "javascript" (newParser sampleConfig)))) k
             = Some t'
             /\ tag t' = tag t
             /\ decoration t' = decoration t
             /\ ranges t'
                = ranges t
                  ++ map (fun m =>
                            mkDecorationOptions
                              (newRange
                                 (positionAt (mkEditor (chars "x = 1; // todo: check"))
                                             (index m))
                                 (positionAt (mkEditor (chars "x = 1; // todo: check"))
                                    (index m + matchLength m))))
                         (filter (receives (mkEditor (chars "x = 1; // todo: check"))
                                    (SetRegex "javascript" (newParser sampleConfig)) k)
                                 ms))
       /\ Forall (fun m =>
                    group 0 m
                    = Some (firstn (matchLength m) (skipn (index m) text)))
                 ms.
Proof.
  apply (single_line_range_is_whole_match
           (mkEditor (chars "x = 1; // todo: check"))
           (SetRegex "javascript" (newParser sampleConfig))).
  vm_compute. reflexivity.
Defined.

(** ** What every match guarantees *)

Lemma length_setNth (A : Type) (k : nat) (v : A) (l : list A) :
  length (setNth k v l) = length l.
Proof.
  revert k. induction l as [|a l IH]; intros [|k]; simpl; auto.
Qed.

Lemma nth_setNth_same (A : Type) (k : nat) (v d : A) (l : list A) :
  k < length l -> nth k (setNth k v l) d = v.
Proof.
  revert k. induction l as [|a l IH]; intros [|k] H; simpl in *;
    try lia; auto. apply IH. lia.
Qed.

Lemma nth_setNth_other (A : Type) (k j : nat) (v d : A) (l : list A) :
  j <> k -> nth j (setNth k v l) d = nth j l d.
Proof.
  revert k j. induction l as [|a l IH]; intros [|k] [|j] H; simpl;
    try congruence; auto.
Qed.

Lemma capture_setCapture_same (n : nat) (v : option str) (x : MatchState) :
  1 <= n -> n <= length (captures x) -> capture n (setCapture n v x) = v.
Proof.
  intros H1 H2. unfold capture, setCapture. cbn [captures].
  apply nth_setNth_same. lia.
Qed.

Lemma capture_setCapture_other (n g : nat) (v : option str) (x : MatchState) :
  1 <= n -> 1 <= g -> n <> g -> capture n (setCapture g v x) = capture n x.
Proof.
  intros H1 H2 H3. unfold capture, setCapture. cbn [captures].
  apply nth_setNth_other. lia.
Qed.

Lemma clearCaptures_fields (gs : list nat) (x : MatchState) :
  endIndex (clearCaptures gs x) = endIndex x
  /\ remaining (clearCaptures gs x) = remaining x
  /\ prevChar (clearCaptures gs x) = prevChar x
  /\ length (captures (clearCaptures gs x)) = length (captures x).
Proof.
  revert x. induction gs as [|g gs IH]; intros x; [auto|].
  unfold clearCaptures in *. cbn [fold_left].
  destruct (IH (setCapture g None x)) as (H1 & H2 & H3 & H4).
  rewrite H1, H2, H3, H4. cbn. now rewrite length_setNth.
Qed.

Lemma clearCaptures_keeps (gs : list nat) (x : MatchState) :
  Forall (fun g => 1 <= g) gs -> keeps gs x (clearCaptures gs x).
Proof.
  intros Hgs. revert x. induction Hgs as [|g gs Hg _ IH]; intros x n Hn Hm.
  - reflexivity.
  - cbn [mentions existsb] in Hm. apply orb_false_elim in Hm.
    destruct Hm as [Hne Hm]. apply Nat.eqb_neq in Hne.
    unfold clearCaptures in *. cbn [fold_left].
    rewrite (IH (setCapture g None x) n Hn Hm).
    now apply capture_setCapture_other.
Qed.

Lemma mentions_app (a b : list nat) (n : nat) :
  mentions (a ++ b) n = mentions a n || mentions b n.
Proof. apply existsb_app. Qed.

Lemma groupsOf_positive (k : nat) (r : regex) :
  wellFormed k r = true -> Forall (fun g => 1 <= g) (groupsOf r).
Proof.
  induction r; cbn [wellFormed groupsOf]; intros H; try constructor.
  - apply andb_prop in H. destruct H. apply Forall_app. auto.
  - apply andb_prop in H. destruct H. apply Forall_app. auto.
  - apply andb_prop in H. destruct H as [H _].
    apply andb_prop in H. destruct H as [H _]. now apply Nat.leb_le.
  - apply andb_prop in H. destruct H. auto.
  - apply andb_prop in H. destruct H. auto.
Qed.

Lemma definite_positive (k : nat) (r : regex) :
  wellFormed k r = true -> Forall (fun g => 1 <= g) (definite r).
Proof.
  induction r; cbn [wellFormed definite]; intros H; try constructor.
  - apply andb_prop in H. destruct H as [H1 H2]. apply Forall_app. split.
    + apply Forall_forall. intros n Hn. apply filter_In in Hn.
      destruct Hn as [Hn _]. specialize (IHr1 H1).
      rewrite Forall_forall in IHr1. now apply IHr1.
    + auto.
  - apply andb_prop in H. destruct H as [H _].
    apply andb_prop in H. destruct H as [H _]. now apply Nat.leb_le.
  - constructor.
  - apply andb_prop in H. destruct H as [_ H].
    destruct (min =? 0); [constructor|auto].
Qed.

Lemma consumed_refl (x : MatchState) : consumed [] x x.
Proof. unfold consumed. cbn. auto. Qed.

Lemma consumed_trans (u v : str) (x y z : MatchState) :
  consumed u x y -> consumed v y z -> consumed (u ++ v) x z.
Proof.
  intros (H1 & H2 & H3) (H4 & H5 & H6). unfold consumed.
  rewrite H1, H4, H5, H2, H6, H3, length_app, <- app_assoc.
  repeat split. lia.
Qed.

Lemma consumed_clear (gs : list nat) (u : str) (x y : MatchState) :
  consumed u (clearCaptures gs x) y -> consumed u x y.
Proof.
  destruct (clearCaptures_fields gs x) as (H1 & H2 & _ & H4).
  unfold consumed. now rewrite H1, H2, H4.
Qed.

Section Sound.

Variable fl : Flags.
Variable k : nat.

Lemma charMatcher_sound (P : ascii -> bool) (c : cont) (x z : MatchState) :
  charMatcher P c x = Some z ->
  exists y u, c y = Some z /\ consumed u x y /\ length u = 1
              /\ captures y = captures x.
Proof.
  unfold charMatcher. destruct (remaining x) as [|ch rest] eqn:E;
    [discriminate|].
  destruct (P ch); [|discriminate]. intros H.
  eexists. exists [ch]. split; [exact H|]. unfold consumed. cbn.
  rewrite E. repeat split. lia.
Qed.

(** The repetition of a body that satisfies [matched r]. *)
Lemma repeat_sound (r : regex) (body : cont -> MatchState -> option MatchState) :
  Forall (fun g => 1 <= g) (groupsOf r) ->
  (forall c x z, fits k x -> body c x = Some z ->
                 exists y, c y = Some z /\ matched r x y) ->
  forall fuel min max greedy c x z,
    match max with Some m => min <= m | None => True end ->
    fits k x ->
    repeatMatcher body (groupsOf r) fuel min max greedy c x = Some z ->
    exists y u,
      c y = Some z /\ consumed u x y /\ keeps (groupsOf r) x y
      /\ ((minLen r <= length u /\ defines (definite r) y)
          \/ (min = 0 /\ captures y = captures x)).
Proof.
  intros Hpos Hbody.
  induction fuel as [|fuel IH]; intros min max greedy c x z Hb Hx H;
    [discriminate|].
  cbn [repeatMatcher] in H.
  assert (Hstay : c x = Some z ->
            exists y u, c y = Some z /\ consumed u x y
              /\ keeps (groupsOf r) x y
              /\ ((minLen r <= length u /\ defines (definite r) y)
                  \/ (0 = 0 /\ captures y = captures x))).
  { intros Hc. exists x, []. split; [exact Hc|].
    split; [apply consumed_refl|]. split; [intros n _ _; reflexivity|].
    right. auto. }
  destruct (isZero max) eqn:Ez.
  { destruct max as [[|m]|]; try discriminate.
    assert (min = 0) by lia. subst min. now apply Hstay. }
  set (d := fun y : MatchState =>
              if (min =? 0) && (endIndex y =? endIndex x) then None
              else repeatMatcher body (groupsOf r) fuel (min - 1) (decr max)
                                 greedy c y) in H.
  assert (Hiter : body d (clearCaptures (groupsOf r) x) = Some z ->
            exists y u, c y = Some z /\ consumed u x y
              /\ keeps (groupsOf r) x y
              /\ ((minLen r <= length u /\ defines (definite r) y)
                  \/ (min = 0 /\ captures y = captures x))).
  { intros Hbd.
    destruct (clearCaptures_fields (groupsOf r) x) as (_ & _ & _ & Hlen).
    destruct (Hbody d _ z (eq_trans Hlen Hx) Hbd)
      as (y1 & Hd & u1 & Hc1 & Hm1 & Hk1 & Hd1).
    unfold d in Hd.
    destruct ((min =? 0) && (endIndex y1 =? endIndex x)); [discriminate|].
    assert (Hb' : match decr max with
                  | Some m => min - 1 <= m
                  | None => True
                  end).
    { destruct max as [m|]; cbn; [|exact I]. destruct m; cbn in *; lia. }
    assert (Hy1 : fits k y1).
    { unfold fits. destruct Hc1 as (_ & _ & ->). now rewrite Hlen. }
    destruct (IH _ _ _ _ _ _ Hb' Hy1 Hd)
      as (y & u2 & Hc & Hc2 & Hk2 & Hor).
    exists y, (u1 ++ u2). split; [exact Hc|].
    split; [apply consumed_clear with (gs := groupsOf r);
            now apply consumed_trans with (y := y1)|].
    split.
    { intros n Hn Hg. rewrite (Hk2 n Hn Hg), (Hk1 n Hn Hg).
      now apply clearCaptures_keeps. }
    left. rewrite length_app. split; [lia|].
    destruct Hor as [[_ Hdef]|[_ Hsame]]; [exact Hdef|].
    intros n Hn. unfold capture. rewrite Hsame. now apply Hd1. }
  destruct (min =? 0) eqn:Emin; cbn [negb] in H.
  - apply Nat.eqb_eq in Emin. subst min.
    destruct greedy.
    + destruct (body d _) as [z'|] eqn:Eb.
      * injection H as ->. now apply Hiter.
      * now apply Hstay.
    + destruct (c x) as [z'|] eqn:Ec.
      * injection H as ->. now apply Hstay.
      * now apply Hiter.
  - now apply Hiter.
Qed.

Theorem matcher_sound (r : regex) :
  wellFormed k r = true ->
  forall c x z,
    fits k x ->
    matcher fl r c x = Some z ->
    exists y, c y = Some z /\ matched r x y.
Proof.
  induction r as [|a| |inv items| | |r1 IH1 r2 IH2|r1 IH1 r2 IH2|g r IH
                  |min max greedy r IH];
    intros Hwf c x z Hx H; cbn [matcher wellFormed] in *.
  - exists x. split; [exact H|]. exists []. split; [apply consumed_refl|].
    split; [cbn; lia|]. split; [intros n _ _; reflexivity|intros n []].
  - destruct (charMatcher_sound _ _ _ _ H) as (y & u & Hc & Hu & Hl & Hcap).
    exists y. split; [exact Hc|]. exists u. split; [exact Hu|].
    split; [cbn; lia|].
    split; [intros n _ _; unfold capture; now rewrite Hcap|intros n []].
  - destruct (charMatcher_sound _ _ _ _ H) as (y & u & Hc & Hu & Hl & Hcap).
    exists y. split; [exact Hc|]. exists u. split; [exact Hu|].
    split; [cbn; lia|].
    split; [intros n _ _; unfold capture; now rewrite Hcap|intros n []].
  - destruct (charMatcher_sound _ _ _ _ H) as (y & u & Hc & Hu & Hl & Hcap).
    exists y. split; [exact Hc|]. exists u. split; [exact Hu|].
    split; [cbn; lia|].
    split; [intros n _ _; unfold capture; now rewrite Hcap|intros n []].
  - assert (Hc : c x = Some z).
    { destruct (prevChar x) as [ch|]; [|exact H].
      destruct (multiline fl && isLineTerminator ch); [exact H|discriminate]. }
    exists x. split; [exact Hc|]. exists []. split; [apply consumed_refl|].
    split; [cbn; lia|]. split; [intros n _ _; reflexivity|intros n []].
  - assert (Hc : c x = Some z).
    { destruct (remaining x) as [|ch rest]; [exact H|].
      destruct (multiline fl && isLineTerminator ch); [exact H|discriminate]. }
    exists x. split; [exact Hc|]. exists []. split; [apply consumed_refl|].
    split; [cbn; lia|]. split; [intros n _ _; reflexivity|intros n []].
  - apply andb_prop in Hwf. destruct Hwf as [Hw1 Hw2].
    destruct (IH1 Hw1 _ _ _ Hx H) as (y1 & H1 & u1 & Hc1 & Hm1 & Hk1 & Hd1).
    assert (Hy1 : fits k y1).
    { unfold fits. destruct Hc1 as (_ & _ & ->). exact Hx. }
    destruct (IH2 Hw2 _ _ _ Hy1 H1) as (y & Hc & u2 & Hc2 & Hm2 & Hk2 & Hd2).
    exists y. split; [exact Hc|]. exists (u1 ++ u2).
    split; [now apply consumed_trans with (y := y1)|].
    split; [rewrite length_app; cbn [minLen]; lia|].
    split.
    + intros n Hn Hg. cbn [groupsOf] in Hg. rewrite mentions_app in Hg.
      apply orb_false_elim in Hg. destruct Hg as [Hg1 Hg2].
      now rewrite (Hk2 n Hn Hg2), (Hk1 n Hn Hg1).
    + intros n Hn. cbn [definite] in Hn. apply in_app_or in Hn.
      destruct Hn as [Hn|Hn]; [|now apply Hd2].
      apply filter_In in Hn. destruct Hn as [Hn Hg].
      apply negb_true_iff in Hg.
      assert (Hpos : 1 <= n).
      { pose proof (definite_positive _ _ Hw1) as Hp.
        rewrite Forall_forall in Hp. now apply Hp. }
      rewrite (Hk2 n Hpos Hg). now apply Hd1.
  - apply andb_prop in Hwf. destruct Hwf as [Hw1 Hw2].
    assert (Hside : forall r',
               (exists y, c y = Some z /\ matched r' x y) ->
               minLen (RAlt r1 r2) <= minLen r' ->
               (forall n, mentions (groupsOf (RAlt r1 r2)) n = false ->
                          mentions (groupsOf r') n = false) ->
               exists y, c y = Some z /\ matched (RAlt r1 r2) x y).
    { intros r' (y & Hc & u & Hcu & Hm & Hk & _) Hmin Hment.
      exists y. split; [exact Hc|]. exists u. split; [exact Hcu|].
      split; [lia|]. split; [|intros n []].
      intros n Hn Hg. apply Hk; auto. }
    destruct (matcher fl r1 c x) as [z'|] eqn:E1.
    + injection H as ->. apply (Hside r1).
      * now apply IH1.
      * cbn [minLen]. lia.
      * intros n Hg. cbn [groupsOf] in Hg. rewrite mentions_app in Hg.
        now apply orb_false_elim in Hg.
    + apply (Hside r2).
      * now apply IH2.
      * cbn [minLen]. lia.
      * intros n Hg. cbn [groupsOf] in Hg. rewrite mentions_app in Hg.
        now apply orb_false_elim in Hg.
  - apply andb_prop in Hwf. destruct Hwf as [Hg Hw].
    apply andb_prop in Hg. destruct Hg as [Hg1 Hg2].
    apply Nat.leb_le in Hg1. apply Nat.leb_le in Hg2.
    destruct (IH Hw _ _ _ Hx H) as (y1 & Hc & u & Hcu & Hm & Hk & _).
    eexists. split; [exact Hc|]. exists u.
    destruct Hcu as (Hu1 & Hu2 & Hu3).
    split; [|split; [exact Hm|split]].
    + unfold consumed. cbn [remaining endIndex captures setCapture].
      now rewrite length_setNth.
    + intros n Hn Hment. cbn [groupsOf mentions existsb] in Hment.
      apply orb_false_elim in Hment. destruct Hment as [Hne Hment].
      apply Nat.eqb_neq in Hne.
      rewrite capture_setCapture_other by assumption. now apply Hk.
    + intros n [<-|[]]. rewrite capture_setCapture_same; [discriminate| |];
        unfold fits in Hx; lia.
  - apply andb_prop in Hwf. destruct Hwf as [Hb Hw].
    assert (Hb' : match max with Some m => min <= m | None => True end).
    { destruct max; [now apply Nat.leb_le|exact I]. }
    destruct (repeat_sound r (matcher fl r) (groupsOf_positive _ _ Hw)
                (IH Hw) _ _ _ _ _ _ _ Hb' Hx H)
      as (y & u & Hc & Hcu & Hk & Hor).
    exists y. split; [exact Hc|]. exists u. split; [exact Hcu|].
    cbn [minLen definite groupsOf].
    destruct (min =? 0) eqn:E.
    + split; [lia|]. split; [exact Hk|intros n []].
    + apply Nat.eqb_neq in E.
      destruct Hor as [[Hm Hd]|[Hz _]]; [|contradiction].
      split; [exact Hm|]. split; [exact Hk|exact Hd].
Qed.

End Sound.

(** ** The patterns of the multi-line scan *)

Lemma block_parses (findJSDoc : bool) :
  newRegExp (blockSource findJSDoc) flagsGM
  = Some (mkRegExp (blockPattern findJSDoc) 4 flagsGM).
Proof. destruct findJSDoc; reflexivity. Qed.

Lemma line_parses (findJSDoc : bool) (names : list str) :
  parsePattern (lineSource findJSDoc names)
  = Some (linePattern findJSDoc names, 5).
Proof.
  unfold parsePattern, lineSource.
  destruct findJSDoc.
  - rewrite (lex_app (chars "(^)+([ \t]*\*[ \t]*)(") _ LNormal
               [TOpen; TCaret; TClose; TPlus; TOpen;
                TSet false [CIChar SPACE; CIChar TAB]; TStar; TLit "*";
                TSet false [CIChar SPACE; CIChar TAB]; TStar; TClose; TOpen]
               eq_refl).
    rewrite (lex_app _ _ LNormal _ (joined_tags_lex names)).
    change (lex LNormal (chars ")([ ]*|[:])+([^*/][^\r\n]*)"))
      with (Some [TClose; TOpen; TSet false [CIChar SPACE]; TStar; TBar;
                  TSet false [CIChar ":"]; TClose; TPlus; TOpen;
                  TSet true [CIChar "*"; CIChar "/"];
                  TSet true [CIChar CR; CIChar LF]; TStar; TClose]).
    cbn [prepend option_map app].
    cbn [parseTokens parseStep initialParse current outer nextGroup withFrame
         option_map quantify makeLazy pushTerm fquant fseq falts fgroup].
    rewrite parse_alternatives_any. reflexivity.
  - rewrite (lex_app (chars "(^)+([ \t]*[ \t]*)(") _ LNormal
               [TOpen; TCaret; TClose; TPlus; TOpen;
                TSet false [CIChar SPACE; CIChar TAB]; TStar;
                TSet false [CIChar SPACE; CIChar TAB]; TStar; TClose; TOpen]
               eq_refl).
    rewrite (lex_app _ _ LNormal _ (joined_tags_lex names)).
    change (lex LNormal (chars ")([ ]*|[:])+([^*/][^\r\n]*)"))
      with (Some [TClose; TOpen; TSet false [CIChar SPACE]; TStar; TBar;
                  TSet false [CIChar ":"]; TClose; TPlus; TOpen;
                  TSet true [CIChar "*"; CIChar "/"];
                  TSet true [CIChar CR; CIChar LF]; TStar; TClose]).
    cbn [prepend option_map app].
    cbn [parseTokens parseStep initialParse current outer nextGroup withFrame
         option_map quantify makeLazy pushTerm fquant fseq falts fgroup].
    rewrite parse_alternatives_any. reflexivity.
Qed.

Lemma commentMatchString_lineSource (findJSDoc : bool) (p : Parser) :
  escapedTags p ->
  commentMatchString findJSDoc p = lineSource findJSDoc (map tag (tags p)).
Proof.
  intros H. unfold commentMatchString, lineSource. cbv zeta.
  unfold escapedTags in H. rewrite H, <- app_assoc. reflexivity.
Qed.

(** *** Their shape *)

Lemma minLen_lits (s : str) : minLen (lits s) = length s.
Proof. induction s as [|a s IH]; simpl; auto. Qed.

Lemma definite_lits (s : str) : definite (lits s) = [].
Proof.
  induction s as [|a s IH]; [reflexivity|].
  cbn [lits fold_right definite filter app]. exact IH.
Qed.

Lemma wellFormed_lits (k : nat) (s : str) : wellFormed k (lits s) = true.
Proof. induction s as [|a s IH]; simpl; auto. Qed.

Lemma wellFormed_mkAlt_lits (k : nat) (a : str) (names : list str) :
  wellFormed k (mkAlt (lits a) (map lits names)) = true.
Proof.
  revert a. induction names as [|b names IH]; intros a; cbn [map mkAlt].
  - apply wellFormed_lits.
  - cbn [wellFormed]. now rewrite wellFormed_lits, IH.
Qed.

Lemma wellFormed_altsOf (k : nat) (names : list str) :
  wellFormed k (altsOf names) = true.
Proof. destruct names; [reflexivity|apply wellFormed_mkAlt_lits]. Qed.

Lemma singleLinePattern_shape (D : str) (names : list str) :
  wellFormed 4 (singleLinePattern D names) = true
  /\ length D <= minLen (singleLinePattern D names)
  /\ In 3 (definite (singleLinePattern D names)).
Proof.
  unfold singleLinePattern, plus, star.
  cbn [wellFormed minLen definite groupsOf Nat.eqb Nat.leb andb].
  rewrite wellFormed_lits, wellFormed_altsOf, minLen_lits, !groupsOf_lits,
    groupsOf_altsOf.
  cbn. repeat split; [lia|auto].
Qed.

Lemma linePattern_shape (findJSDoc : bool) (names : list str) :
  wellFormed 5 (linePattern findJSDoc names) = true
  /\ 1 <= minLen (linePattern findJSDoc names)
  /\ In 2 (definite (linePattern findJSDoc names))
  /\ In 3 (definite (linePattern findJSDoc names)).
Proof.
  unfold linePattern, plus, star.
  cbn [wellFormed minLen definite groupsOf Nat.eqb Nat.leb andb].
  rewrite wellFormed_altsOf, groupsOf_altsOf.
  destruct findJSDoc; cbn; repeat split; try lia; auto.
Qed.

Lemma blockPattern_shape (findJSDoc : bool) :
  wellFormed 4 (blockPattern findJSDoc) = true
  /\ 1 <= minLen (blockPattern findJSDoc).
Proof. destruct findJSDoc; cbn; split; (reflexivity || lia). Qed.

(** ** Every match makes progress *)

Lemma matchAt_sound (re : RegExp) (pos : nat) (prev : option ascii)
  (rest : str) (m : MatchResult) :
  wellFormed (nGroups re) (pattern re) = true ->
  matchAt re pos prev rest = Some m ->
  index m = pos
  /\ minLen (pattern re) <= matchLength m
  /\ matchLength m <= length rest
  /\ group 0 m <> None
  /\ (forall n, In n (definite (pattern re)) -> group n m <> None).
Proof.
  intros Hwf H. unfold matchAt in H.
  destruct (matcher _ _ _ _) as [z|] eqn:E; [|discriminate].
  injection H as <-.
  assert (Hfit : fits (nGroups re)
                   (mkState pos prev rest (repeat None (nGroups re)))).
  { unfold fits. cbn [captures]. apply repeat_length. }
  destruct (matcher_sound (reFlags re) (nGroups re) (pattern re) Hwf _ _ _
              Hfit E)
    as (y & Hy & u & (Hu1 & Hu2 & Hu3) & Hmin & _ & Hdef).
  injection Hy as ->. cbn [remaining endIndex] in Hu1, Hu2.
  unfold matchLength, group. cbn [index groups nth].
  rewrite Hu2, Hu1.
  replace (pos + length u - pos) with (length u + 0) by lia.
  rewrite firstn_app_2. cbn [firstn]. rewrite app_nil_r, length_app.
  repeat split; try lia; try discriminate.
  intros n Hn.
  assert (Hpos : 1 <= n).
  { pose proof (definite_positive _ _ Hwf) as Hp.
    rewrite Forall_forall in Hp. now apply Hp. }
  destruct n as [|n]; [lia|]. cbn [nth].
  specialize (Hdef (S n) Hn). unfold capture in Hdef.
  now replace (S n - 1) with n in Hdef by lia.
Qed.

Lemma search_sound (re : RegExp) (rest : str) (pos : nat) (prev : option ascii)
  (m : MatchResult) :
  wellFormed (nGroups re) (pattern re) = true ->
  search re pos prev rest = Some m ->
  pos <= index m
  /\ minLen (pattern re) <= matchLength m
  /\ index m + matchLength m <= pos + length rest
  /\ group 0 m <> None
  /\ (forall n, In n (definite (pattern re)) -> group n m <> None).
Proof.
  intros Hwf. revert pos prev.
  induction rest as [|ch rest IH]; intros pos prev H; cbn [search] in H;
    destruct (matchAt re pos prev _) as [m'|] eqn:E; try discriminate.
  - injection H as <-.
    destruct (matchAt_sound _ _ _ _ _ Hwf E) as (H1 & H2 & H3 & H4 & H5).
    repeat split; try assumption; lia.
  - injection H as <-.
    destruct (matchAt_sound _ _ _ _ _ Hwf E) as (H1 & H2 & H3 & H4 & H5).
    repeat split; try assumption; lia.
  - destruct (IH _ _ H) as (H1 & H2 & H3 & H4 & H5).
    repeat split; try assumption; cbn [length]; lia.
Qed.

Lemma exec_sound (re : RegExp) (text : str) (lastIndex last : nat)
  (m : MatchResult) :
  wellFormed (nGroups re) (pattern re) = true ->
  exec re text lastIndex = (Some m, last) ->
  lastIndex + minLen (pattern re) <= last
  /\ last <= length text
  /\ group 0 m <> None
  /\ (forall n, In n (definite (pattern re)) -> group n m <> None).
Proof.
  intros Hwf. unfold exec.
  destruct (length text <? lastIndex) eqn:El; [discriminate|].
  apply Nat.ltb_ge in El.
  destruct (search re lastIndex _ _) as [m'|] eqn:E; [|discriminate].
  intros H. injection H as -> <-.
  destruct (search_sound _ _ _ _ _ Hwf E) as (H1 & H2 & H3 & H4 & H5).
  rewrite length_skipn in H3.
  repeat split; try assumption; lia.
Qed.

(** ** The scans return *)

Lemma singleLineLoop_returns (activeEditor : TextEditor) (regEx : RegExp) :
  wellFormed (nGroups regEx) (pattern regEx) = true ->
  1 <= minLen (pattern regEx) ->
  In 3 (definite (pattern regEx)) ->
  forall fuel lastIndex p,
    lastIndex <= length (getText activeEditor) ->
    length (getText activeEditor) < fuel + lastIndex ->
    exists p', singleLineLoop fuel activeEditor regEx lastIndex p = Done p'.
Proof.
  intros Hwf Hmin Hdef.
  induction fuel as [|fuel IH]; intros lastIndex p Hle Hfuel; [lia|].
  cbn [singleLineLoop].
  destruct (exec regEx (getText activeEditor) lastIndex) as [[m|] last] eqn:E;
    [|eexists; reflexivity].
  destruct (exec_sound _ _ _ _ _ Hwf E) as (H1 & H2 & _ & H4).
  unfold singleLineMatch.
  destruct (ignoreFirstLine p && atOrigin _).
  - destruct (last <=? lastIndex) eqn:El; [apply Nat.leb_le in El; lia|].
    apply IH; lia.
  - destruct (group 3 m) as [s|] eqn:Eg; [|now apply H4 in Eg].
    destruct (last <=? lastIndex) eqn:El; [apply Nat.leb_le in El; lia|].
    apply IH; lia.
Qed.

Lemma lineLoop_returns (activeEditor : TextEditor) (commentRegEx : RegExp)
  (blockIndex : nat) (commentBlock : str) :
  wellFormed (nGroups commentRegEx) (pattern commentRegEx) = true ->
  1 <= minLen (pattern commentRegEx) ->
  In 2 (definite (pattern commentRegEx)) ->
  In 3 (definite (pattern commentRegEx)) ->
  forall fuel lastIndex p,
    lastIndex <= length commentBlock ->
    length commentBlock < fuel + lastIndex ->
    exists p',
      lineLoop fuel activeEditor commentRegEx blockIndex commentBlock
               lastIndex p = Done p'.
Proof.
  intros Hwf Hmin Hd2 Hd3.
  induction fuel as [|fuel IH]; intros lastIndex p Hle Hfuel; [lia|].
  cbn [lineLoop].
  destruct (exec commentRegEx commentBlock lastIndex) as [[m|] last] eqn:E;
    [|eexists; reflexivity].
  destruct (exec_sound _ _ _ _ _ Hwf E) as (H1 & H2 & _ & H4).
  unfold multilineMatch.
  destruct (group 2 m) as [s2|] eqn:E2; [|now apply H4 in E2].
  destruct (group 3 m) as [s3|] eqn:E3; [|now apply H4 in E3].
  destruct (last <=? lastIndex) eqn:El; [apply Nat.leb_le in El; lia|].
  apply IH; lia.
Qed.

Lemma blockLoop_returns (activeEditor : TextEditor)
  (regEx commentRegEx : RegExp) :
  wellFormed (nGroups regEx) (pattern regEx) = true ->
  1 <= minLen (pattern regEx) ->
  wellFormed (nGroups commentRegEx) (pattern commentRegEx) = true ->
  1 <= minLen (pattern commentRegEx) ->
  In 2 (definite (pattern commentRegEx)) ->
  In 3 (definite (pattern commentRegEx)) ->
  forall fuel lastIndex p,
    lastIndex <= length (getText activeEditor) ->
    length (getText activeEditor) < fuel + lastIndex ->
    exists p',
      blockLoop fuel activeEditor regEx commentRegEx lastIndex p = Done p'.
Proof.
  intros Hwf Hmin Hwf' Hmin' Hd2 Hd3.
  induction fuel as [|fuel IH]; intros lastIndex p Hle Hfuel; [lia|].
  cbn [blockLoop].
  destruct (exec regEx (getText activeEditor) lastIndex) as [[m|] last] eqn:E;
    [|eexists; reflexivity].
  destruct (exec_sound _ _ _ _ _ Hwf E) as (H1 & H2 & H3 & _).
  destruct (group 0 m) as [commentBlock|]; [|contradiction].
  destruct (lineLoop_returns activeEditor commentRegEx (index m) commentBlock
              Hwf' Hmin' Hd2 Hd3 (S (length commentBlock)) 0 p)
    as (p1 & ->); [lia|lia|].
  destruct (last <=? lastIndex) eqn:El; [apply Nat.leb_le in El; lia|].
  apply IH; lia.
Qed.

Lemma FindSingleLineComments_returns (activeEditor : TextEditor) (p : Parser)
  (D : str) (names : list str) :
  In D delimiters ->
  expression p = singleLineSource D names ->
  exists p', FindSingleLineComments activeEditor p = Done p'.
Proof.
  intros HD He. destruct (delimiters_plain D HD) as (Hne & Hesc & _).
  unfold FindSingleLineComments, newRegExp.
  rewrite He, (singleLine_parses D names Hesc).
  destruct (singleLinePattern_shape D names) as (Hwf & Hmin & Hdef).
  apply singleLineLoop_returns; cbn [pattern nGroups]; try assumption;
    try lia.
  destruct D; [contradiction|cbn [length] in Hmin; lia].
Qed.

Lemma FindMultilineComments_returns (activeEditor : TextEditor)
  (findJSDoc : bool) (p : Parser) :
  escapedTags p ->
  exists p', FindMultilineComments activeEditor findJSDoc p = Done p'.
Proof.
  intros He. unfold FindMultilineComments.
  destruct (highlightMultilineComments p); cbn [negb]; [|eexists; reflexivity].
  rewrite block_parses. unfold newRegExp.
  rewrite (commentMatchString_lineSource findJSDoc p He), line_parses.
  destruct (blockPattern_shape findJSDoc) as (Hwf & Hmin).
  destruct (linePattern_shape findJSDoc (map tag (tags p)))
    as (Hwf' & Hmin' & Hd2 & Hd3).
  apply blockLoop_returns; cbn [pattern nGroups]; try assumption; lia.
Qed.

(** ** The scans change ranges only *)

Lemma sameButRanges_refl (p : Parser) : sameButRanges p p.
Proof. split; [now rewrite withTags_same|reflexivity]. Qed.

Lemma sameButRanges_trans (p q r : Parser) :
  sameButRanges p q -> sameButRanges q r -> sameButRanges p r.
Proof.
  intros [H1 H2] [H3 H4]. split.
  - rewrite H3, H1. reflexivity.
  - now rewrite H4.
Qed.

Lemma clearRanges_updateAt (r : DecorationOptions) (k : nat)
  (ts : list CommentTag) :
  map clearRanges (updateAt (pushRange r) k ts) = map clearRanges ts.
Proof.
  revert k. induction ts as [|t ts IH]; intros [|k]; simpl; try reflexivity.
  now rewrite IH.
Qed.

Lemma addRange_sameButRanges (s : str) (r : DecorationOptions) (p : Parser) :
  sameButRanges p (addRange s r p).
Proof.
  unfold addRange. destruct (findTag (tags p) s) as [k|];
    [|apply sameButRanges_refl].
  split; [reflexivity|apply clearRanges_updateAt].
Qed.

Lemma singleLineLoop_sameButRanges (activeEditor : TextEditor) (regEx : RegExp)
  (fuel lastIndex : nat) (p p' : Parser) :
  singleLineLoop fuel activeEditor regEx lastIndex p = Done p' ->
  sameButRanges p p'.
Proof.
  revert lastIndex p. induction fuel as [|fuel IH]; intros lastIndex p H;
    [discriminate|].
  cbn [singleLineLoop] in H.
  destruct (exec regEx (getText activeEditor) lastIndex) as [[m|] last].
  - destruct (singleLineMatch activeEditor m p) as [p1| | |] eqn:E;
      try discriminate.
    destruct (last <=? lastIndex); [discriminate|].
    apply sameButRanges_trans with (q := p1); [|now apply IH in H].
    unfold singleLineMatch in E.
    destruct (ignoreFirstLine p && atOrigin _).
    + injection E as <-. apply sameButRanges_refl.
    + destruct (group 3 m).
      * injection E as <-. apply addRange_sameButRanges.
      * destruct (tags p); [|discriminate]. injection E as <-.
        apply sameButRanges_refl.
  - injection H as <-. apply sameButRanges_refl.
Qed.

Lemma lineLoop_sameButRanges (activeEditor : TextEditor) (commentRegEx : RegExp)
  (blockIndex : nat) (commentBlock : str) (fuel lastIndex : nat)
  (p p' : Parser) :
  lineLoop fuel activeEditor commentRegEx blockIndex commentBlock lastIndex p
  = Done p' ->
  sameButRanges p p'.
Proof.
  revert lastIndex p. induction fuel as [|fuel IH]; intros lastIndex p H;
    [discriminate|].
  cbn [lineLoop] in H.
  destruct (exec commentRegEx commentBlock lastIndex) as [[m|] last].
  - destruct (multilineMatch activeEditor blockIndex m p) as [p1| | |] eqn:E;
      try discriminate.
    destruct (last <=? lastIndex); [discriminate|].
    apply sameButRanges_trans with (q := p1); [|now apply IH in H].
    unfold multilineMatch in E.
    destruct (group 2 m); [|discriminate].
    destruct (group 3 m).
    + injection E as <-. apply addRange_sameButRanges.
    + destruct (tags p); [|discriminate]. injection E as <-.
      apply sameButRanges_refl.
  - injection H as <-. apply sameButRanges_refl.
Qed.

Lemma blockLoop_sameButRanges (activeEditor : TextEditor)
  (regEx commentRegEx : RegExp) (fuel lastIndex : nat) (p p' : Parser) :
  blockLoop fuel activeEditor regEx commentRegEx lastIndex p = Done p' ->
  sameButRanges p p'.
Proof.
  revert lastIndex p. induction fuel as [|fuel IH]; intros lastIndex p H;
    [discriminate|].
  cbn [blockLoop] in H.
  destruct (exec regEx (getText activeEditor) lastIndex) as [[m|] last].
  - destruct (group 0 m) as [commentBlock|]; [|discriminate].
    destruct (lineLoop _ _ _ _ _ _ p) as [p1| | |] eqn:E; try discriminate.
    destruct (last <=? lastIndex); [discriminate|].
    apply sameButRanges_trans with (q := p1); [|now apply IH in H].
    now apply lineLoop_sameButRanges in E.
  - injection H as <-. apply sameButRanges_refl.
Qed.

Lemma FindSingleLineComments_sameButRanges (activeEditor : TextEditor)
  (p p' : Parser) :
  FindSingleLineComments activeEditor p = Done p' -> sameButRanges p p'.
Proof.
  unfold FindSingleLineComments.
  destruct (newRegExp _ _); [|discriminate].
  apply singleLineLoop_sameButRanges.
Qed.

Lemma FindMultilineComments_sameButRanges (activeEditor : TextEditor)
  (findJSDoc : bool) (p p' : Parser) :
  FindMultilineComments activeEditor findJSDoc p = Done p' ->
  sameButRanges p p'.
Proof.
  unfold FindMultilineComments.
  destruct (negb _).
  - intros H. injection H as <-. apply sameButRanges_refl.
  - destruct (newRegExp _ _); [|discriminate].
    destruct (newRegExp _ _); [|discriminate].
    apply blockLoop_sameButRanges.
Qed.

(** ** The parsers the calls of [SetRegex] build *)

Lemma built_newParser (cfg : Config.Contributions) : built cfg (newParser cfg).
Proof.
  split; [apply tags_newParser|]. split; [left; reflexivity|].
  intros H. now contradiction H.
Qed.

Lemma built_escapedTags (cfg : Config.Contributions) (p : Parser) :
  built cfg p -> escapedTags p.
Proof.
  intros (Ht & _). unfold escapedTags, characters. rewrite Ht, !map_map.
  reflexivity.
Qed.

Lemma built_SetRegex (cfg : Config.Contributions) (languageCode : string)
  (p : Parser) :
  built cfg p -> built cfg (SetRegex languageCode p).
Proof.
  intros Hb. pose proof (built_escapedTags cfg p Hb) as He.
  destruct Hb as (Ht & Hd & _).
  destruct (SetRegex_fields languageCode p) as (Ht' & _ & Hd' & _).
  split; [now rewrite Ht'|]. split.
  - rewrite Hd'. destruct (inTable languageCode) eqn:E.
    + right. now apply delimiter_in_table.
    + now rewrite (setDelimiter_unsupported languageCode p E).
  - intros _. rewrite (expression_SetRegex languageCode p He), Hd', Ht, map_map.
    reflexivity.
Qed.

Lemma built_resolveAll (cfg : Config.Contributions) (langs : list string)
  (p : Parser) :
  built cfg p -> built cfg (resolveAll langs p).
Proof.
  revert p. induction langs as [|l langs IH]; intros p H; [exact H|].
  apply IH. now apply built_SetRegex.
Qed.

Lemma built_no_ranges (cfg : Config.Contributions) (p : Parser) :
  built cfg p -> map clearRanges (tags p) = tags p.
Proof.
  intros (-> & _). rewrite map_map. reflexivity.
Qed.

(** ** Two cycles in a row *)

Lemma scanCycle_restores (activeEditor : TextEditor) (findJSDoc : bool)
  (p p1 : Parser) (calls : list Decorations) :
  map clearRanges (tags p) = tags p ->
  scanCycle activeEditor findJSDoc p = Done (calls, p1) ->
  p1 = p.
Proof.
  intros Hp. unfold scanCycle.
  destruct (FindSingleLineComments activeEditor p) as [q| | |] eqn:E1;
    try discriminate.
  destruct (FindMultilineComments activeEditor findJSDoc q) as [r| | |] eqn:E2;
    try discriminate.
  apply FindSingleLineComments_sameButRanges in E1.
  apply FindMultilineComments_sameButRanges in E2.
  destruct (sameButRanges_trans _ _ _ E1 E2) as [H1 H2].
  unfold ApplyDecorations. rewrite flushTags_map.
  intros H. injection H as _ <-.
  rewrite H2, Hp, H1. destruct p; reflexivity.
Qed.

(** C9.  On a parser made by the constructor and any calls of [SetRegex],
    a scan cycle that returns leaves the parser as it found it, so the
    next cycle over the same document makes the same calls to
    [setDecorations]; and once a language of the table has been resolved
    the cycle does return. *)
Theorem scan_cycle_repeats (cfg : Config.Contributions) (langs : list string)
  (activeEditor : TextEditor) (findJSDoc : bool) :
  (forall calls p1,
      scanCycle activeEditor findJSDoc (resolveAll langs (newParser cfg))
      = Done (calls, p1) ->
      p1 = resolveAll langs (newParser cfg)
      /\ scanCycle activeEditor findJSDoc p1 = Done (calls, p1))
  /\ (delimiter (resolveAll langs (newParser cfg)) <> [] ->
      exists calls,
        scanCycle activeEditor findJSDoc (resolveAll langs (newParser cfg))
        = Done (calls, resolveAll langs (newParser cfg))).
Proof.
  set (p := resolveAll langs (newParser cfg)).
  assert (Hb : built cfg p) by apply built_resolveAll, built_newParser.
  pose proof (built_no_ranges cfg p Hb) as Hr.
  split.
  - intros calls p1 H.
    pose proof (scanCycle_restores _ _ _ _ _ Hr H) as ->. auto.
  - intros Hd. destruct Hb as (Ht & [Hd'|Hd'] & He);
      [now contradiction Hd|].
    destruct (FindSingleLineComments_returns activeEditor p _ _ Hd' (He Hd))
      as (q & Hq).
    pose proof (FindSingleLineComments_sameButRanges _ _ _ Hq) as Hs.
    assert (Hqe : escapedTags q).
    { destruct Hs as [Hs1 Hs2]. unfold escapedTags, characters.
      assert (Hm : forall f : CommentTag -> str,
                 (forall t, f (clearRanges t) = f t) ->
                 map f (tags q) = map f (tags p)).
      { intros f Hf.
        rewrite <- (map_ext _ _ (fun t => Hf t)), <- map_map, Hs2, map_map.
        apply map_ext. exact Hf. }
      rewrite (Hm escapedTag), (Hm tag) by reflexivity.
      rewrite Ht, !map_map. reflexivity. }
    destruct (FindMultilineComments_returns activeEditor findJSDoc q Hqe)
      as (r & Hr').
    assert (Hc : exists calls p1,
               scanCycle activeEditor findJSDoc p = Done (calls, p1)).
    { unfold scanCycle. rewrite Hq, Hr'.
      destruct (ApplyDecorations r) as [calls p1]. eauto. }
    destruct Hc as (calls & p1 & Hc).
    exists calls. now rewrite <- (scanCycle_restores _ _ _ _ _ Hr Hc) at 2.
Qed.

(** ** Patterns that cannot match *)

Section Blocks.

Variable fl : Flags.

Lemma blocks_weaken (r : regex) (P P' Q Q' : str -> Prop) :
  (forall s, P' s -> P s) -> (forall s, Q s -> Q' s) ->
  blocks fl r P Q -> blocks fl r P' Q'.
Proof.
  intros HP HQ H c x Hx Hc. apply H; [now apply HP|].
  intros y Hy. apply Hc. now apply HQ.
Qed.

Lemma blocks_nowhere (r : regex) (Q : str -> Prop) : blocks fl r nowhere Q.
Proof. intros c x []. Qed.

Lemma blocks_empty (P : str -> Prop) : blocks fl REmpty P P.
Proof. intros c x Hx Hc. now apply Hc. Qed.

Lemma blocks_bol (P : str -> Prop) : blocks fl RBol P P.
Proof.
  intros c x Hx Hc. cbn [matcher].
  destruct (prevChar x) as [ch|]; [|now apply Hc].
  destruct (multiline fl && isLineTerminator ch); [now apply Hc|reflexivity].
Qed.

Lemma blocks_char (r : regex) (test : ascii -> bool) (P Q : str -> Prop) :
  charTest fl r = Some test ->
  (forall ch rest, P (ch :: rest) -> test ch = true -> Q rest) ->
  blocks fl r P Q.
Proof.
  intros Hr H c x Hx Hc.
  assert (Hm : charMatcher test c x = None).
  { unfold charMatcher. destruct (remaining x) as [|ch rest]; [reflexivity|].
    destruct (test ch) eqn:E; [|reflexivity].
    apply Hc. cbn [remaining]. now apply (H ch rest). }
  destruct r; try discriminate; injection Hr as <-; exact Hm.
Qed.

Lemma blocks_seq (r1 r2 : regex) (P R Q : str -> Prop) :
  blocks fl r1 P R -> blocks fl r2 R Q -> blocks fl (RSeq r1 r2) P Q.
Proof.
  intros H1 H2 c x Hx Hc. cbn [matcher]. apply H1; [exact Hx|].
  intros y Hy. now apply H2.
Qed.

Lemma blocks_alt (r1 r2 : regex) (P Q : str -> Prop) :
  blocks fl r1 P Q -> blocks fl r2 P Q -> blocks fl (RAlt r1 r2) P Q.
Proof.
  intros H1 H2 c x Hx Hc. cbn [matcher].
  rewrite (H1 c x Hx Hc). now apply H2.
Qed.

Lemma blocks_group (n : nat) (r : regex) (P Q : str -> Prop) :
  blocks fl r P Q -> blocks fl (RGroup n r) P Q.
Proof.
  intros H c x Hx Hc. cbn [matcher]. apply H; [exact Hx|].
  intros y Hy. apply Hc. exact Hy.
Qed.

Lemma repeat_blocks (body : cont -> MatchState -> option MatchState)
  (gs : list nat) (P : str -> Prop) :
  (forall c x, P (remaining x) ->
               (forall y, P (remaining y) -> c y = None) ->
               body c x = None) ->
  forall fuel min max greedy c x,
    P (remaining x) ->
    (forall y, P (remaining y) -> c y = None) ->
    repeatMatcher body gs fuel min max greedy c x = None.
Proof.
  intros Hbody. induction fuel as [|fuel IH];
    intros min max greedy c x Hx Hc; [reflexivity|].
  cbn [repeatMatcher].
  destruct (isZero max); [now apply Hc|].
  assert (Hb : body
                 (fun y => if (min =? 0) && (endIndex y =? endIndex x)
                           then None
                           else repeatMatcher body gs fuel (min - 1)
                                              (decr max) greedy c y)
                 (clearCaptures gs x) = None).
  { apply Hbody.
    - now rewrite (proj1 (proj2 (clearCaptures_fields gs x))).
    - intros y Hy. destruct (_ && _); [reflexivity|now apply IH]. }
  destruct (negb (min =? 0)); [exact Hb|].
  destruct greedy; rewrite Hb, (Hc x Hx); reflexivity.
Qed.

Lemma blocks_repeat (min : nat) (max : option nat) (greedy : bool)
  (r : regex) (P : str -> Prop) :
  blocks fl r P P -> blocks fl (RRepeat min max greedy r) P P.
Proof.
  intros H c x Hx Hc. cbn [matcher].
  apply repeat_blocks with (P := P); assumption.
Qed.

(** A literal moves on by its own length, when it matches at all. *)
Lemma blocks_lits (s : str) (P Q : str -> Prop) :
  (forall rem, P rem -> prefixMatches fl s rem = true ->
               Q (skipn (length s) rem)) ->
  blocks fl (lits s) P Q.
Proof.
  intros H c x Hx Hc. rewrite matcher_lits.
  destruct (prefixMatches fl s (remaining x)) eqn:E; [|reflexivity].
  apply Hc.
  assert (Hrem : forall n y, remaining (advance n y) = skipn n (remaining y)).
  { induction n as [|n IHn]; intros y; [reflexivity|].
    cbn [advance]. destruct (remaining y) as [|ch rest] eqn:Ey.
    - now rewrite Ey.
    - rewrite IHn. reflexivity. }
  rewrite Hrem. now apply H.
Qed.

Lemma blocks_altsOf (names : list str) (P Q : str -> Prop) :
  (forall s, P s -> Q s) ->
  Forall (fun n => forall rem, P rem -> prefixMatches fl n rem = true ->
                               Q (skipn (length n) rem)) names ->
  blocks fl (altsOf names) P Q.
Proof.
  intros HPQ H. destruct H as [|n names Hn H].
  - apply blocks_weaken with (P := P) (Q := P); auto. apply blocks_empty.
  - cbn [altsOf]. revert n Hn.
    induction H as [|b names Hb H IH]; intros n Hn; cbn [map mkAlt].
    + now apply blocks_lits.
    + apply blocks_alt; [now apply blocks_lits|now apply IH].
Qed.

End Blocks.

(** A pattern that reaches nowhere from [x] does not match at [x]. *)
Lemma blocked_matchAt (re : RegExp) (P : str -> Prop) (pos : nat)
  (prev : option ascii) (rest : str) :
  blocks (reFlags re) (pattern re) P nowhere ->
  P rest ->
  matchAt re pos prev rest = None.
Proof.
  intros H HP. unfold matchAt. rewrite H; [reflexivity|exact HP|].
  intros y [].
Qed.

(** A pattern that starts with [(^)+] does not match inside a line. *)
Lemma inside_line_matchAt (re : RegExp) (r : regex) (pos : nat) (ch : ascii)
  (rest : str) :
  pattern re = RSeq (plus (RGroup 1 (RSeq RBol REmpty))) r ->
  isLineTerminator ch = false ->
  matchAt re pos (Some ch) rest = None.
Proof.
  intros Hp Hch. unfold matchAt. rewrite Hp. unfold plus.
  cbn [matcher groupsOf app].
  rewrite repeat_fails; [reflexivity|reflexivity|discriminate|].
  intros k. cbn [clearCaptures fold_left setCapture prevChar].
  now rewrite Hch, andb_false_r.
Qed.

(** ** The block pattern *)

(** A lazy repetition of a one-character pattern stops at the first
    position where the continuation succeeds. *)
Lemma repeat_lazy_run (P : ascii -> bool) (run tail : str) (fuel : nat)
  (c : cont) (x z : MatchState) :
  remaining x = run ++ tail ->
  forallb P run = true ->
  (forall a b, run = a ++ b -> b <> [] -> c (advance (length a) x) = None) ->
  c (advance (length run) x) = Some z ->
  length run < fuel ->
  repeatMatcher (charMatcher P) [] fuel 0 None false c x = Some z.
Proof.
  revert x fuel. induction run as [|ch run IH];
    intros x fuel Hx HP Hearly Hc Hfuel;
    (destruct fuel as [|fuel]; [simpl in Hfuel; lia|]);
    cbn [repeatMatcher isZero Nat.eqb negb andb clearCaptures fold_left].
  - cbn [length advance] in Hc. now rewrite Hc.
  - assert (H0 : c x = None).
    { apply (Hearly [] (ch :: run) eq_refl). discriminate. }
    rewrite H0.
    cbn [forallb] in HP. apply andb_prop in HP. destruct HP as [Hch HP].
    unfold charMatcher at 1. rewrite Hx. cbn [app]. rewrite Hch.
    cbn [endIndex].
    replace (S (endIndex x) =? endIndex x) with false
      by (symmetry; apply Nat.eqb_neq; lia).
    cbn [Nat.sub decr option_map].
    apply (IH (mkState (S (endIndex x)) (Some ch) (run ++ tail) (captures x)));
      try assumption; try reflexivity.
    + intros a b Hab Hb. specialize (Hearly (ch :: a) b).
      cbn [length advance app] in Hearly. rewrite Hx in Hearly.
      apply Hearly; [now rewrite Hab|exact Hb].
    + cbn [length advance] in Hc. now rewrite Hx in Hc.
    + simpl in Hfuel. lia.
Qed.

Lemma hasClose_inside (a r : str) :
  hasClose (a ++ "*"%char :: "/"%char :: r) = true.
Proof.
  induction a as [|ch a IH]; [reflexivity|].
  cbn [app hasClose]. rewrite IH. apply orb_true_r.
Qed.

(** Before the end of a text without [*/], the closing pattern fails. *)
Lemma no_close_before (a b tl : str) :
  hasClose (a ++ b) = false ->
  b <> [] ->
  prefixMatches flagsGM (chars "*/") (b ++ chars "*/" ++ tl) = false.
Proof.
  intros H Hb. destruct b as [|ch b]; [contradiction|].
  cbn [chars list_ascii_of_string app prefixMatches sameChar ignoreCase flagsGM].
  destruct (Ascii.eqb "*" ch) eqn:E1; [|reflexivity].
  apply Ascii.eqb_eq in E1. subst ch.
  destruct b as [|ch' b]; [reflexivity|].
  cbn [app]. destruct (Ascii.eqb "/" ch') eqn:E2; [|reflexivity].
  apply Ascii.eqb_eq in E2. subst ch'.
  now rewrite hasClose_inside in H.
Qed.

Lemma opener_matches (findJSDoc : bool) (k : cont) (x : MatchState)
  (rest : str) :
  remaining x = openerText findJSDoc ++ rest ->
  matcher flagsGM (blockOpener findJSDoc) k x
  = k (mkState (endIndex x + 3)
               (Some (if findJSDoc then "*"%char else SPACE)) rest
               (captures x)).
Proof.
  intros H. destruct x as [e pv rem caps]. cbn [remaining] in H. subst rem.
  cbn [endIndex captures].
  replace (e + 3) with (S (S (S e))) by lia.
  destruct findJSDoc; reflexivity.
Qed.

Lemma opener_fails (findJSDoc : bool) (k : cont) (x : MatchState)
  (ch : ascii) (rest : str) :
  remaining x = ch :: rest ->
  Ascii.eqb "/" ch = false ->
  matcher flagsGM (blockOpener findJSDoc) k x = None.
Proof.
  intros H Hch. destruct x as [e pv rem caps]. cbn [remaining] in H. subst rem.
  destruct findJSDoc;
    cbn [blockOpener lits chars list_ascii_of_string fold_right matcher
         charMatcher remaining sameChar ignoreCase flagsGM];
    now rewrite Hch.
Qed.

(** *** One step of the matcher *)

Ltac norm_caps :=
  norm_state; unfold setCapture;
  cbn [endIndex remaining captures prevChar setNth Nat.sub Nat.add].

Lemma matcher_seq (fl : Flags) (r1 r2 : regex) (c : cont) (x : MatchState) :
  matcher fl (RSeq r1 r2) c x = matcher fl r1 (matcher fl r2 c) x.
Proof. reflexivity. Qed.

Lemma matcher_empty (fl : Flags) (c : cont) (x : MatchState) :
  matcher fl REmpty c x = c x.
Proof. reflexivity. Qed.

Lemma matcher_group (fl : Flags) (n : nat) (r : regex) (c : cont)
  (x : MatchState) :
  matcher fl (RGroup n r) c x
  = matcher fl r
      (fun y => c (setCapture n
                     (Some (firstn (endIndex y - endIndex x) (remaining x)))
                     y))
      x.
Proof. reflexivity. Qed.

Lemma matcher_alt (fl : Flags) (r1 r2 : regex) (c : cont) (x : MatchState) :
  matcher fl (RAlt r1 r2) c x
  = match matcher fl r1 c x with
    | Some z => Some z
    | None => matcher fl r2 c x
    end.
Proof. reflexivity. Qed.

Lemma matcher_repeat (fl : Flags) (min : nat) (max : option nat)
  (greedy : bool) (r : regex) (c : cont) (x : MatchState) :
  matcher fl (RRepeat min max greedy r) c x
  = repeatMatcher (matcher fl r) (groupsOf r)
                  (S (min + length (remaining x))) min max greedy c x.
Proof. reflexivity. Qed.

Lemma matcher_bol (fl : Flags) (c : cont) (x : MatchState) :
  match prevChar x with
  | None => True
  | Some ch => multiline fl && isLineTerminator ch = true
  end ->
  matcher fl RBol c x = c x.
Proof.
  intros H. cbn [matcher]. destruct (prevChar x) as [ch|]; [|reflexivity].
  now rewrite H.
Qed.

Lemma matcher_char_fun (fl : Flags) (r : regex) (test : ascii -> bool) :
  charTest fl r = Some test ->
  matcher fl r = charMatcher test.
Proof. destruct r; intros H; try discriminate; injection H as <-; reflexivity. Qed.

(** A text that starts with an opener, goes on without [*/] and without
    a second opener, and ends in [*/], is one block. *)
Lemma block_matchAt (findJSDoc : bool) (ch : ascii) (run : str) :
  Ascii.eqb "/" ch = false ->
  hasClose (ch :: run) = false ->
  matchAt (mkRegExp (blockPattern findJSDoc) 4 flagsGM) 0 None
          (openerText findJSDoc ++ ch :: run ++ chars "*/")
  = Some (mkMatch 0
            [Some (openerText findJSDoc ++ ch :: run ++ chars "*/");
             Some []; Some (openerText findJSDoc); Some (ch :: run);
             Some (chars "*/")]).
Proof.
  intros Hch Hclose. unfold matchAt.
  cbn [pattern reFlags nGroups repeat].
  set (text := openerText findJSDoc ++ ch :: run ++ chars "*/").
  set (prevO := Some (if findJSDoc then "*"%char else SPACE)).
  set (x0 := mkState 0 None text [None; None; None; None]).
  set (y1 := mkState 0 None text [Some []; None; None; None]).
  set (y2 := mkState 3 prevO (ch :: run ++ chars "*/")
                     [Some []; Some (openerText findJSDoc); None; None]).
  set (yf := mkState (3 + length (ch :: run) + 2) (Some "/"%char) []
                     [Some []; Some (openerText findJSDoc); Some (ch :: run);
                      Some (chars "*/")]).
  assert (Hopen : length (openerText findJSDoc) = 3)
    by (destruct findJSDoc; reflexivity).
  assert (Hg : groupsOf (blockOpener findJSDoc) = [])
    by (destruct findJSDoc; reflexivity).
  assert (Hm : matcher flagsGM (blockPattern findJSDoc) Some x0 = Some yf).
  { unfold blockPattern, plus.
    rewrite matcher_seq, matcher_group, matcher_alt, matcher_seq,
      matcher_bol, matcher_empty by exact I.
    norm_state. cbn [firstn].
    match goal with
    | |- context [matcher _ _ Some (setCapture 1 (Some []) ?s)] =>
      change (setCapture 1 (Some []) s) with y1
    end.
    assert (Hrest : matcher flagsGM
              (RSeq (RRepeat 1 None true (RGroup 2 (blockOpener findJSDoc)))
                 (RSeq (RGroup 3
                          (RSeq (RRepeat 0 None false
                                   (RSet false [CISpace false; CISpace true]))
                                REmpty))
                    (RSeq (RGroup 4 (lits (chars "*/"))) REmpty)))
              Some y1 = Some yf); [|now rewrite Hrest].
    rewrite matcher_seq, matcher_repeat. cbn [groupsOf]. rewrite Hg.
    apply repeat_once with (y := y2).
    - lia.
    - lia.
    - discriminate.
    - intros k Hk. rewrite matcher_group.
      rewrite (opener_matches findJSDoc _ _ (ch :: run ++ chars "*/"));
        [|reflexivity].
      norm_caps.
      replace (firstn 3 text) with (openerText findJSDoc).
      2:{ unfold text. rewrite <- Hopen at 1.
          rewrite <- (Nat.add_0_r (length _)), firstn_app_2.
          cbn [firstn]. now rewrite app_nil_r. }
      exact Hk.
    - intros k _. rewrite matcher_group.
      apply (opener_fails findJSDoc _ _ ch (run ++ chars "*/"));
        [reflexivity|exact Hch].
    - rewrite matcher_seq, matcher_group, matcher_seq, matcher_repeat.
      cbn [groupsOf].
      rewrite (matcher_char_fun flagsGM
                 (RSet false [CISpace false; CISpace true]) _ eq_refl).
      apply repeat_lazy_run with (run := ch :: run) (tail := chars "*/").
      + reflexivity.
      + apply forallb_forall. intros a _.
        unfold setMatches. cbn [existsb itemMatches xorb].
        destruct (isWhiteSpace a); reflexivity.
      + intros a b Hab Hb.
        assert (Hrem : remaining y2 = a ++ (b ++ chars "*/")).
        { cbn [remaining y2]. change (ch :: run ++ chars "*/")
            with ((ch :: run) ++ chars "*/").
          now rewrite Hab, <- app_assoc. }
        rewrite (advance_app a _ y2 Hrem).
        rewrite matcher_empty, matcher_seq, matcher_group.
        apply matcher_lits_fails.
        cbn [setCapture remaining].
        rewrite <- (app_nil_r (chars "*/")) at 2.
        apply (no_close_before a b []); [now rewrite <- Hab|exact Hb].
      + rewrite (advance_app (ch :: run) (chars "*/") y2 eq_refl).
        rewrite matcher_empty, matcher_seq, matcher_group.
        rewrite matcher_lits_at with (u := chars "*/") (v := []);
          [|reflexivity|reflexivity].
        rewrite matcher_empty.
        norm_state.
        change (ch :: run ++ chars "*/") with ((ch :: run) ++ chars "*/").
        rewrite firstn_exact.
        cbn [length chars list_ascii_of_string prevAfter fold_left].
        rewrite (firstn_exact (chars "*/") []).
        reflexivity.
      + cbn [remaining y2 length]. rewrite length_app. cbn. lia. }
  rewrite Hm. cbn [endIndex captures yf]. do 3 f_equal.
  unfold text.
  replace (3 + length (ch :: run) + 2 - 0)
    with (length (openerText findJSDoc ++ ch :: run ++ chars "*/")).
  - now rewrite firstn_all.
  - rewrite length_app, Hopen. cbn [length]. rewrite length_app. cbn. lia.
Qed.

(** ** The line pattern *)

Lemma forallb_same (A : Type) (f g : A -> bool) (l : list A) :
  (forall a, f a = g a) -> forallb f l = forallb g l.
Proof.
  intros H. induction l as [|a l IH]; simpl; [reflexivity|].
  now rewrite H, IH.
Qed.

Lemma blank_test (ch : ascii) :
  setMatches flagsIGM false [CIChar SPACE; CIChar TAB] ch = isBlank ch.
Proof. destruct ch as [[] [] [] [] [] [] [] []]; reflexivity. Qed.

Lemma terminator_test (ch : ascii) :
  setMatches flagsIGM true [CIChar CR; CIChar LF] ch = notTerminator ch.
Proof. destruct ch as [[] [] [] [] [] [] [] []]; reflexivity. Qed.

Lemma ordinary_tests (ch : ascii) :
  ordinary ch = true ->
  setMatches flagsIGM false [CIChar SPACE] ch = false
  /\ setMatches flagsIGM false [CIChar ":"] ch = false
  /\ setMatches flagsIGM true [CIChar "*"; CIChar "/"] ch = true.
Proof.
  destruct ch as [[] [] [] [] [] [] [] []]; intros H; try discriminate H;
    repeat split; reflexivity.
Qed.

Lemma blanks_run (run tail : str) (c : cont) (x z : MatchState) :
  remaining x = run ++ tail ->
  forallb isBlank run = true ->
  startsWithBlank tail = false ->
  c (advance (length run) x) = Some z ->
  matcher flagsIGM blanks c x = Some z.
Proof.
  intros Hx Hrun Htail Hc. unfold blanks, star.
  rewrite matcher_repeat. cbn [groupsOf].
  rewrite (matcher_char_fun flagsIGM (RSet false [CIChar SPACE; CIChar TAB])
             _ eq_refl).
  apply repeat_run with (run := run) (tail := tail); try assumption.
  - rewrite <- Hrun. apply forallb_same. intros a. apply blank_test.
  - destruct tail as [|ch tail]; [exact I|].
    rewrite blank_test. exact Htail.
  - rewrite Hx, length_app. lia.
Qed.

Lemma linePrefix_matches (findJSDoc : bool) (W : str) (c : cont)
  (x z : MatchState) :
  remaining x = linePrefixText findJSDoc ++ W ->
  startsWithBlank W = false ->
  c (mkState (endIndex x + length (linePrefixText findJSDoc)) (Some SPACE) W
             (captures x)) = Some z ->
  matcher flagsIGM (linePrefix findJSDoc) c x = Some z.
Proof.
  intros Hx HW Hc. destruct x as [e pv rem caps].
  cbn [remaining endIndex captures] in *. subst rem.
  destruct findJSDoc; unfold linePrefix, linePrefixText in *;
    cbn [chars list_ascii_of_string app length] in *; rewrite matcher_seq.
  - apply blanks_run with (run := [SPACE]) (tail := chars "* " ++ W);
      [reflexivity|reflexivity|reflexivity|].
    cbn [length advance remaining endIndex captures app chars
         list_ascii_of_string].
    rewrite matcher_seq.
    rewrite (matcher_char_fun flagsIGM (RChar "*") _ eq_refl).
    unfold charMatcher at 1. cbn [remaining endIndex captures].
    change (sameChar flagsIGM "*" "*") with true. cbv iota.
    rewrite matcher_seq.
    apply blanks_run with (run := [SPACE]) (tail := W);
      [reflexivity|reflexivity|exact HW|].
    cbn [length advance remaining endIndex captures app].
    rewrite matcher_empty.
    replace (S (S (S e))) with (e + 3) by lia. exact Hc.
  - apply blanks_run with (run := [SPACE]) (tail := W);
      [reflexivity|reflexivity|exact HW|].
    cbn [length advance remaining endIndex captures app].
    rewrite matcher_seq.
    apply blanks_run with (run := []) (tail := W);
      [reflexivity|reflexivity|exact HW|].
    cbn [length advance]. rewrite matcher_empty.
    replace (S e) with (e + 1) by lia. exact Hc.
Qed.

Section Line.

Variables (findJSDoc : bool) (names pre post : list str).
Variables (t TAG : str) (b : ascii) (body tail : str) (pos : nat).
Variable eol : ascii.

Let pfx := linePrefixText findJSDoc.
Let W := TAG ++ SPACE :: b :: body ++ tail.

Hypothesis after_terminator : isLineTerminator eol = true.
Hypothesis names_split : names = pre ++ t :: post.
Hypothesis earlier_fail :
  Forall (fun n => prefixMatches flagsIGM n W = false) pre.
Hypothesis t_matches : sameText flagsIGM t TAG = true.
Hypothesis no_blank : startsWithBlank W = false.
Hypothesis b_ordinary : ordinary b = true.
Hypothesis body_line : forallb notTerminator (b :: body) = true.
Hypothesis tail_line : endsLine tail.

(** At the start of a line [prefix TAG text], the line pattern matches up
    to the end of the line. *)
Lemma line_matchAt :
  matchAt (mkRegExp (linePattern findJSDoc names) 5 flagsIGM) pos (Some eol)
          (pfx ++ W)
  = Some (mkMatch pos [Some (pfx ++ TAG ++ SPACE :: b :: body); Some [];
                       Some pfx; Some TAG; Some [SPACE]; Some (b :: body)]).
Proof.
  unfold matchAt. cbn [pattern reFlags nGroups repeat].
  set (x0 := mkState pos (Some eol) (pfx ++ W) [None; None; None; None; None]).
  set (y1 := mkState pos (Some eol) (pfx ++ W)
                     [Some []; None; None; None; None]).
  set (y2 := mkState (pos + length pfx) (Some SPACE) W
                     [Some []; Some pfx; None; None; None]).
  set (y3 := mkState (pos + length pfx + length TAG)
                     (prevAfter (Some SPACE) TAG)
                     (SPACE :: b :: body ++ tail)
                     [Some []; Some pfx; Some TAG; None; None]).
  set (y4 := mkState (pos + length pfx + length TAG + 1) (Some SPACE)
                     (b :: body ++ tail)
                     [Some []; Some pfx; Some TAG; Some [SPACE]; None]).
  set (yf := mkState (pos + length pfx + length TAG + 1 + length (b :: body))
                     (prevAfter (Some SPACE) (b :: body)) tail
                     [Some []; Some pfx; Some TAG; Some [SPACE];
                      Some (b :: body)]).
  destruct (ordinary_tests b b_ordinary) as (Hb1 & Hb2 & Hb3).
  assert (Hm : matcher flagsIGM (linePattern findJSDoc names) Some x0
               = Some yf).
  { unfold linePattern, plus.
    rewrite matcher_seq, matcher_repeat. cbn [groupsOf app].
    apply repeat_once with (y := y1).
    - lia.
    - lia.
    - discriminate.
    - intros k Hk.
      rewrite matcher_group, matcher_seq, matcher_bol, matcher_empty.
      + norm_caps. rewrite Nat.sub_diag. exact Hk.
      + cbn [prevChar clearCaptures fold_left setCapture multiline flagsIGM andb].
        exact after_terminator.
    - intros k Hk.
      rewrite matcher_group, matcher_seq, matcher_bol, matcher_empty.
      + apply Hk. reflexivity.
      + cbn [prevChar clearCaptures fold_left setCapture multiline flagsIGM andb
             y1].
        exact after_terminator.
    - rewrite matcher_seq, matcher_group.
      apply linePrefix_matches with (W := W); [reflexivity|exact no_blank|].
      norm_caps. fold pfx.
      replace (firstn (pos + length pfx - pos) (pfx ++ W)) with pfx
        by (symmetry; apply firstn_exact).
      rewrite matcher_seq, matcher_group, names_split.
      apply matcher_alts_first.
      + exact earlier_fail.
      + apply (sameText_prefix flagsIGM t TAG _ t_matches).
      + destruct (sameText_prefix flagsIGM t TAG (SPACE :: b :: body ++ tail)
                    t_matches) as [_ ->].
        rewrite (advance_app TAG (SPACE :: b :: body ++ tail));
          [|reflexivity].
        norm_caps. fold W. unfold W at 1. rewrite firstn_exact.
        change (mkState (pos + length pfx + length TAG)
                        (prevAfter (Some SPACE) TAG)
                        (SPACE :: b :: body ++ tail)
                        [Some []; Some pfx; Some TAG; None; None]) with y3.
        rewrite matcher_seq, matcher_repeat. unfold separator, star.
        cbn [groupsOf app].
        apply repeat_once with (y := y4).
        * lia.
        * cbn. lia.
        * discriminate.
        * intros k Hk.
          rewrite matcher_group, matcher_alt, matcher_seq, matcher_repeat.
          cbn [groupsOf].
          rewrite (matcher_char_fun flagsIGM (RSet false [CIChar SPACE]) _
                     eq_refl).
          rewrite repeat_run with (run := [SPACE]) (tail := b :: body ++ tail)
                                  (z := yf); [reflexivity|reflexivity|reflexivity
                                              |exact Hb1|cbn; lia|].
          rewrite matcher_empty.
          norm_caps. cbn [length advance remaining endIndex captures].
          replace (S (pos + length pfx + length TAG)
                   - (pos + length pfx + length TAG)) with 1 by lia.
          cbn [firstn prevChar].
          replace (S (pos + length pfx + length TAG))
            with (pos + length pfx + length TAG + 1) by lia.
          exact Hk.
        * intros k Hk.
          rewrite matcher_group, matcher_alt, !matcher_seq, matcher_repeat.
          cbn [groupsOf].
          rewrite (matcher_char_fun flagsIGM (RSet false [CIChar SPACE]) _
                     eq_refl).
          rewrite (matcher_char_fun flagsIGM (RSet false [CIChar ":"]) _
                     eq_refl).
          rewrite repeat_none.
          -- rewrite matcher_empty, Hk by reflexivity.
             unfold charMatcher.
             cbn [remaining clearCaptures fold_left setCapture y4].
             now rewrite Hb2.
          -- lia.
          -- intros k' _. unfold charMatcher.
             cbn [remaining clearCaptures fold_left setCapture y4].
             now rewrite Hb1.
        * rewrite matcher_seq, matcher_group. unfold lineText, star.
          rewrite matcher_seq.
          rewrite (matcher_char_fun flagsIGM
                     (RSet true [CIChar "*"; CIChar "/"]) _ eq_refl).
          unfold charMatcher at 1. cbn [remaining y4]. rewrite Hb3.
          rewrite matcher_seq, matcher_repeat. cbn [groupsOf].
          rewrite (matcher_char_fun flagsIGM
                     (RSet true [CIChar CR; CIChar LF]) _ eq_refl).
          pose proof body_line as Hbl.
          cbn [forallb] in Hbl. apply andb_prop in Hbl.
          apply repeat_run with (run := body) (tail := tail).
          -- reflexivity.
          -- etransitivity; [|exact (proj2 Hbl)]. apply forallb_same.
             intros a. apply terminator_test.
          -- destruct tail as [|ch tl]; [exact I|].
             rewrite terminator_test. unfold notTerminator.
             cbn in tail_line. now rewrite tail_line.
          -- cbn [remaining]. rewrite length_app. lia.
          -- rewrite (advance_app body tail); [|reflexivity].
             rewrite !matcher_empty.
             cbn [endIndex prevChar remaining captures y4].
             unfold setCapture. cbn [endIndex prevChar remaining captures
                                     setNth Nat.sub].
             replace (S (pos + length pfx + length TAG + 1) + length body
                      - (pos + length pfx + length TAG + 1))
               with (length (b :: body) + 0) by (cbn [length]; lia).
             change (b :: body ++ tail) with ((b :: body) ++ tail).
             rewrite firstn_app_2. cbn [firstn]. rewrite app_nil_r.
             unfold yf. cbn [length prevAfter fold_left].
             f_equal. f_equal. lia. }
  rewrite Hm. cbn [endIndex captures yf]. do 3 f_equal.
  replace (pfx ++ W) with ((pfx ++ TAG ++ SPACE :: b :: body) ++ tail).
  2:{ unfold W. rewrite <- !app_assoc. reflexivity. }
  replace (pos + length pfx + length TAG + 1 + length (b :: body) - pos)
    with (length (pfx ++ TAG ++ SPACE :: b :: body) + 0).
  2:{ rewrite !length_app. cbn [length]. lia. }
  rewrite firstn_app_2. cbn [firstn]. now rewrite app_nil_r.
Qed.

End Line.

(** ** Where the line pattern does not match *)

Lemma blocks_plus_bol (fl : Flags) (P : str -> Prop) :
  blocks fl (plus (RGroup 1 (RSeq RBol REmpty))) P P.
Proof.
  apply blocks_repeat, blocks_group.
  apply blocks_seq with (R := P); [apply blocks_bol|apply blocks_empty].
Qed.

Lemma blocks_test (fl : Flags) (r : regex) (test : ascii -> bool)
  (P : str -> Prop) :
  charTest fl r = Some test ->
  (forall ch rest, P (ch :: rest) -> test ch = false) ->
  blocks fl r P nowhere.
Proof.
  intros Hr H. apply blocks_char with (test := test); [exact Hr|].
  intros ch rest HP Ht. rewrite (H ch rest HP) in Ht. discriminate.
Qed.

Lemma blocks_stay (fl : Flags) (r : regex) (test : ascii -> bool)
  (P : str -> Prop) :
  charTest fl r = Some test ->
  (forall ch rest, P (ch :: rest) -> test ch = false) ->
  blocks fl r P P.
Proof.
  intros Hr H. apply blocks_weaken with (P := P) (Q := nowhere);
    [auto|intros s []|].
  now apply blocks_test with (test := test).
Qed.

(** After the tag, on a text that starts with none of blank, colon and
    ordinary character, the rest of the line pattern fails. *)
Lemma blocks_after_tag (P : str -> Prop) :
  (forall ch rest, P (ch :: rest) ->
                   Ascii.eqb ch "*" || Ascii.eqb ch "/" = true) ->
  blocks flagsIGM
    (RSeq (plus (RGroup 4 separator)) (RSeq (RGroup 5 lineText) REmpty))
    P nowhere.
Proof.
  intros HP.
  assert (Htest : forall test,
             test "*"%char = false -> test "/"%char = false ->
             forall ch rest, P (ch :: rest) -> test ch = false).
  { intros test H1 H2 ch rest Hp. specialize (HP ch rest Hp).
    apply orb_prop in HP. destruct HP as [H|H]; apply Ascii.eqb_eq in H;
      now subst ch. }
  apply blocks_seq with (R := P).
  - apply blocks_repeat, blocks_group. unfold separator.
    apply blocks_alt.
    + apply blocks_seq with (R := P); [|apply blocks_empty].
      apply blocks_repeat.
      apply blocks_stay with (test := setMatches flagsIGM false [CIChar SPACE]);
        [reflexivity|]. now apply Htest.
    + apply blocks_seq with (R := P); [|apply blocks_empty].
      apply blocks_stay with (test := setMatches flagsIGM false [CIChar ":"]);
        [reflexivity|]. now apply Htest.
  - apply blocks_seq with (R := nowhere); [|apply blocks_nowhere].
    apply blocks_group. unfold lineText.
    apply blocks_seq with (R := nowhere); [|apply blocks_nowhere].
    apply blocks_test
      with (test := setMatches flagsIGM true [CIChar "*"; CIChar "/"]);
      [reflexivity|]. now apply Htest.
Qed.

Lemma blocks_blanks (P : str -> Prop) :
  (forall ch rest, P (ch :: rest) -> isBlank ch = true -> P rest) ->
  blocks flagsIGM blanks P P.
Proof.
  intros H. apply blocks_repeat.
  apply blocks_char
    with (test := setMatches flagsIGM false [CIChar SPACE; CIChar TAB]);
    [reflexivity|].
  intros ch rest HP Ht. rewrite blank_test in Ht. now apply (H ch rest).
Qed.

Lemma blocks_altsOf_some (fl : Flags) (names : list str) (P Q : str -> Prop) :
  names <> [] ->
  Forall (fun n => forall rem, P rem -> prefixMatches fl n rem = true ->
                               Q (skipn (length n) rem)) names ->
  blocks fl (altsOf names) P Q.
Proof.
  intros Hne H. destruct H as [|n names Hn H]; [contradiction|].
  clear Hne. cbn [altsOf]. revert n Hn.
  induction H as [|b names Hb H IH]; intros n Hn; cbn [map mkAlt].
  - now apply blocks_lits.
  - apply blocks_alt; [now apply blocks_lits|now apply IH].
Qed.

(** The last line of a block, [ */], is no tagged line: in the
    documentation style whatever the tags, in the plain style when no tag
    is empty. *)
Lemma last_line_blocked (findJSDoc : bool) (names : list str) :
  names <> [] ->
  (findJSDoc = false -> Forall (fun n => n <> []) names) ->
  blocks flagsIGM (linePattern findJSDoc names) (oneOf [" */"%string]) nowhere.
Proof.
  intros Hne Hfull. unfold linePattern.
  apply blocks_seq with (R := oneOf [" */"%string]); [apply blocks_plus_bol|].
  destruct findJSDoc.
  - apply blocks_seq with (R := oneOf ["/"%string]).
    + apply blocks_group. unfold linePrefix.
      apply blocks_seq with (R := oneOf [" */"; "*/"]%string).
      * apply blocks_weaken with (P := oneOf [" */"; "*/"]%string)
                                 (Q := oneOf [" */"; "*/"]%string);
          [intros s [<-|[]]; left; reflexivity|auto|].
        apply blocks_blanks. intros ch rest [H|[H|[]]] Hb.
        -- injection H as <- <-. right. left. reflexivity.
        -- injection H as <- <-. discriminate.
      * apply blocks_seq with (R := oneOf ["/"%string]).
        -- apply blocks_char with (test := sameChar flagsIGM "*");
             [reflexivity|].
           intros ch rest [H|[H|[]]] Ht.
           ++ injection H as <- <-. discriminate.
           ++ injection H as <- <-. left. reflexivity.
        -- apply blocks_seq with (R := oneOf ["/"%string]);
             [|apply blocks_empty].
           apply blocks_blanks. intros ch rest [H|[]] Hb.
           injection H as <- <-. discriminate.
    + apply blocks_seq with (R := oneOf ["/"; ""]%string).
      * apply blocks_group, blocks_altsOf_some; [exact Hne|].
        apply Forall_forall. intros n _ rem [<-|[]] _.
        destruct n as [|a [|a' n]]; cbn; rewrite ?skipn_nil; auto 6.
      * apply blocks_after_tag. intros ch rest [H|[H|[]]].
        -- injection H as <- <-. reflexivity.
        -- discriminate.
  - specialize (Hfull eq_refl).
    apply blocks_seq with (R := oneOf [" */"; "*/"]%string).
    + apply blocks_group. unfold linePrefix.
      assert (Hb : blocks flagsIGM blanks (oneOf [" */"; "*/"]%string)
                          (oneOf [" */"; "*/"]%string)).
      { apply blocks_blanks. intros ch rest [H|[H|[]]] Hb.
        - injection H as <- <-. right. left. reflexivity.
        - injection H as <- <-. discriminate. }
      apply blocks_seq with (R := oneOf [" */"; "*/"]%string).
      * apply blocks_weaken with (P := oneOf [" */"; "*/"]%string)
                                 (Q := oneOf [" */"; "*/"]%string);
          [intros s [<-|[]]; left; reflexivity|auto|exact Hb].
      * apply blocks_seq with (R := oneOf [" */"; "*/"]%string);
          [exact Hb|apply blocks_empty].
    + apply blocks_seq with (R := oneOf ["*/"; "/"; ""]%string).
      * apply blocks_group, blocks_altsOf_some; [exact Hne|].
        rewrite Forall_forall in Hfull.
        apply Forall_forall. intros n Hn rem Hrem _.
        specialize (Hfull n Hn).
        destruct n as [|a n]; [contradiction|].
        destruct Hrem as [<-|[<-|[]]];
          destruct n as [|a2 [|a3 n]]; cbn; rewrite ?skipn_nil; auto 6.
      * apply blocks_after_tag. intros ch rest [H|[H|[H|[]]]].
        -- injection H as <- <-. reflexivity.
        -- injection H as <- <-. reflexivity.
        -- discriminate.
Qed.

Lemma sameChar_ci (fl : Flags) (a b : ascii) :
  ignoreCase fl = true ->
  sameChar fl a b = Ascii.eqb (toLowerChar a) (toLowerChar b).
Proof. intros H. unfold sameChar. rewrite H. apply sameChar_lower. Qed.

Lemma prefixMatches_ci (fl : Flags) (s input : str) :
  ignoreCase fl = true ->
  prefixMatches fl s input = ciPrefix s input.
Proof.
  intros H. unfold ciPrefix. revert input.
  induction s as [|a s IH]; intros [|b input]; simpl; try reflexivity.
  now rewrite (sameChar_ci fl a b H), IH.
Qed.

Lemma sameText_ci (fl : Flags) (s u : str) :
  ignoreCase fl = true ->
  sameText fl s u = str_eqb (toLowerCase s) (toLowerCase u).
Proof.
  intros H. revert u.
  induction s as [|a s IH]; intros [|b u]; simpl; try reflexivity.
  now rewrite (sameChar_ci fl a b H), IH.
Qed.

(** The first line of a block, the opener, is no tagged line: in the
    documentation style whatever the tags, in the plain style when no tag
    starts with the opener. *)
Lemma first_line_blocked (findJSDoc : bool) (names : list str) :
  names <> [] ->
  (findJSDoc = false ->
   Forall (fun n => ciPrefix (chars "/*") n = false) names) ->
  blocks flagsIGM (linePattern findJSDoc names) atOpener nowhere.
Proof.
  intros Hne Hopen. unfold linePattern.
  apply blocks_seq with (R := atOpener); [apply blocks_plus_bol|].
  assert (Hb : blocks flagsIGM blanks atOpener atOpener).
  { apply blocks_blanks. intros ch rest (tl & H) Hbl.
    injection H as -> _. discriminate. }
  destruct findJSDoc.
  - apply blocks_seq with (R := nowhere); [|apply blocks_nowhere].
    apply blocks_group. unfold linePrefix.
    apply blocks_seq with (R := atOpener); [exact Hb|].
    apply blocks_seq with (R := nowhere); [|apply blocks_nowhere].
    apply blocks_test with (test := sameChar flagsIGM "*"); [reflexivity|].
    intros ch rest (tl & H). injection H as -> _. reflexivity.
  - specialize (Hopen eq_refl).
    apply blocks_seq with (R := atOpener).
    + apply blocks_group. unfold linePrefix.
      apply blocks_seq with (R := atOpener); [exact Hb|].
      apply blocks_seq with (R := atOpener); [exact Hb|apply blocks_empty].
    + apply blocks_seq with (R := inOpener).
      * apply blocks_group, blocks_altsOf_some; [exact Hne|].
        rewrite Forall_forall in Hopen.
        apply Forall_forall. intros n Hn rem (tl & ->) Hp.
        specialize (Hopen n Hn).
        destruct n as [|a [|a' n]].
        -- exists tl. left. reflexivity.
        -- exists tl. right. reflexivity.
        -- exfalso. rewrite prefixMatches_ci in Hp by reflexivity.
           unfold ciPrefix in *.
           cbn [toLowerCase map startsWith chars list_ascii_of_string] in *.
           apply andb_prop in Hp. destruct Hp as [H1 Hp].
           apply andb_prop in Hp. destruct Hp as [H2 _].
           apply Ascii.eqb_eq in H1, H2. rewrite H1, H2 in Hopen.
           discriminate.
      * apply blocks_after_tag. intros ch rest (tl & [H|H]).
        -- injection H as -> _. reflexivity.
        -- injection H as -> _. reflexivity.
Qed.

(** ** Searching *)

Lemma search_skip (re : RegExp) (pos : nat) (prev : option ascii) (ch : ascii)
  (rest : str) :
  matchAt re pos prev (ch :: rest) = None ->
  search re pos prev (ch :: rest) = search re (S pos) (Some ch) rest.
Proof. intros H. cbn [search]. now rewrite H. Qed.

Lemma search_here (re : RegExp) (pos : nat) (prev : option ascii) (rest : str)
  (m : MatchResult) :
  matchAt re pos prev rest = Some m ->
  search re pos prev rest = Some m.
Proof. intros H. destruct rest; cbn [search]; now rewrite H. Qed.

Lemma search_end (re : RegExp) (pos : nat) (prev : option ascii) :
  matchAt re pos prev [] = None -> search re pos prev [] = None.
Proof. intros H. cbn [search]. now rewrite H. Qed.

Lemma lastOf_app (a : str) (ch : ascii) : lastOf (a ++ [ch]) = Some ch.
Proof. unfold lastOf. now rewrite rev_app_distr. Qed.

Lemma exec_at_split (re : RegExp) (a b : str) :
  exec re (a ++ b) (length a)
  = match search re (length a) (lastOf a) b with
    | Some m => (Some m, index m + matchLength m)
    | None => (None, 0)
    end.
Proof.
  unfold exec.
  replace (length (a ++ b) <? length a) with false.
  2:{ symmetry. apply Nat.ltb_ge. rewrite length_app. lia. }
  rewrite firstn_app, skipn_app, Nat.sub_diag, firstn_all, skipn_all.
  cbn [firstn skipn app]. now rewrite app_nil_r.
Qed.

Lemma exec_at_start (re : RegExp) (text : str) :
  exec re text 0
  = match search re 0 None text with
    | Some m => (Some m, index m + matchLength m)
    | None => (None, 0)
    end.
Proof. reflexivity. Qed.

Lemma hasClose_app_blank (a b : str) :
  hasClose (a ++ SPACE :: b) = hasClose a || hasClose b.
Proof.
  induction a as [|ch a IH]; [reflexivity|].
  cbn [app hasClose]. rewrite IH.
  destruct a as [|ch' a]; cbn [app hasClose].
  - change (Ascii.eqb SPACE "/") with false.
    destruct (Ascii.eqb ch "*"); reflexivity.
  - now rewrite orb_assoc.
Qed.

(** ** One block with one tagged line *)

Section BlockScan.

Variables (findJSDoc : bool) (names pre post : list str).
Variables (t TAG : str) (b : ascii) (text' : str).

Let text := b :: text'.
Let doc := blockText findJSDoc TAG text.
Let fromTag := TAG ++ SPACE :: text ++ SPACE :: LF :: chars " */".
Let blockRe := mkRegExp (blockPattern findJSDoc) 4 flagsGM.
Let lineRe := mkRegExp (linePattern findJSDoc names) 5 flagsIGM.

Hypothesis names_split : names = pre ++ t :: post.
Hypothesis earlier_fail :
  Forall (fun n => prefixMatches flagsIGM n fromTag = false) pre.
Hypothesis t_matches : sameText flagsIGM t TAG = true.
Hypothesis no_blank : startsWithBlank fromTag = false.
Hypothesis b_ordinary : ordinary b = true.
Hypothesis text_line : forallb notTerminator text = true.
Hypothesis no_close : hasClose (TAG ++ SPACE :: text) = false.
Hypothesis plain_tags :
  findJSDoc = false ->
  Forall (fun n => n <> [] /\ ciPrefix (chars "/*") n = false) names.

Lemma block_exec :
  exec blockRe doc 0 = (Some (blockMatch findJSDoc TAG text), length doc).
Proof.
  clear names_split earlier_fail t_matches no_blank plain_tags lineRe.
  rewrite exec_at_start.
  assert (Hclose : hasClose (TAG ++ SPACE :: text ++ [SPACE; LF; SPACE])
                   = false).
  { change (TAG ++ SPACE :: text ++ [SPACE; LF; SPACE])
      with (TAG ++ SPACE :: text ++ SPACE :: [LF; SPACE]).
    replace (TAG ++ SPACE :: text ++ SPACE :: [LF; SPACE])
      with ((TAG ++ SPACE :: text) ++ SPACE :: [LF; SPACE])
      by (now rewrite <- app_assoc).
    now rewrite hasClose_app_blank, no_close. }
  assert (Hm : matchAt blockRe 0 None doc
               = Some (blockMatch findJSDoc TAG text)).
  { unfold doc, blockText, blockMatch, blockRe.
    destruct findJSDoc.
    - pose proof (block_matchAt true SPACE
                    (LF :: linePrefixText true ++ TAG
                        ++ SPACE :: text ++ [SPACE; LF; SPACE])) as H.
      replace (openerText true ++ SPACE
               :: (LF :: linePrefixText true ++ TAG
                      ++ SPACE :: text ++ [SPACE; LF; SPACE]) ++ chars "*/")
        with (openerText true ++ gap true ++ linePrefixText true ++ TAG
              ++ SPACE :: text ++ SPACE :: LF :: chars " */") in H.
      2:{ cbn [gap app linePrefixText chars list_ascii_of_string].
          repeat (rewrite <- ?app_assoc, <- ?app_comm_cons; cbn [app]).
          reflexivity. }
      apply H; [reflexivity|].
      cbn [hasClose linePrefixText chars list_ascii_of_string app].
      exact Hclose.
    - pose proof (block_matchAt false LF
                    (linePrefixText false ++ TAG
                        ++ SPACE :: text ++ [SPACE; LF; SPACE])) as H.
      replace (openerText false ++ LF
               :: (linePrefixText false ++ TAG
                      ++ SPACE :: text ++ [SPACE; LF; SPACE]) ++ chars "*/")
        with (openerText false ++ gap false ++ linePrefixText false ++ TAG
              ++ SPACE :: text ++ SPACE :: LF :: chars " */") in H.
      2:{ cbn [gap app linePrefixText chars list_ascii_of_string].
          repeat (rewrite <- ?app_assoc, <- ?app_comm_cons; cbn [app]).
          reflexivity. }
      apply H; [reflexivity|].
      cbn [hasClose linePrefixText chars list_ascii_of_string app].
      exact Hclose. }
  rewrite (search_here _ _ _ _ _ Hm). reflexivity.
Qed.

Lemma block_exec_end : exec blockRe doc (length doc) = (None, 0).
Proof.
  clear names_split earlier_fail t_matches no_blank plain_tags lineRe.
  pose proof (exec_at_split blockRe doc []) as H.
  rewrite app_nil_r in H. rewrite H.
  replace (lastOf doc) with (Some "/"%char).
  2:{ unfold doc, blockText.
      change (chars " */") with ([SPACE; "*"%char] ++ ["/"%char]).
      change (SPACE :: LF :: [SPACE; "*"%char] ++ ["/"%char])
        with ([SPACE; LF; SPACE; "*"%char] ++ ["/"%char]).
      change (SPACE :: text ++ [SPACE; LF; SPACE; "*"%char] ++ ["/"%char])
        with ((SPACE :: text) ++ [SPACE; LF; SPACE; "*"%char] ++ ["/"%char]).
      rewrite !app_assoc. now rewrite lastOf_app. }
  rewrite search_end; [reflexivity|].
  unfold blockRe. destruct findJSDoc; reflexivity.
Qed.

Lemma names_nonempty : names <> [].
Proof.
  clear earlier_fail plain_tags. rewrite names_split. now destruct pre.
Qed.

Lemma fromTag_line :
  fromTag = TAG ++ SPACE :: b :: (text' ++ [SPACE]) ++ LF :: chars " */".
Proof.
  unfold fromTag, text. cbn [app]. now rewrite <- app_assoc.
Qed.

Lemma line_search :
  search lineRe 0 None doc = Some (lineMatch findJSDoc TAG text).
Proof.
  assert (Hline : forall pos,
    matchAt lineRe pos (Some LF) (linePrefixText findJSDoc ++ fromTag)
    = Some (mkMatch pos
              [Some (linePrefixText findJSDoc ++ TAG ++ SPACE :: text
                     ++ [SPACE]);
               Some []; Some (linePrefixText findJSDoc); Some TAG;
               Some [SPACE]; Some (text ++ [SPACE])])).
  { intros pos. rewrite fromTag_line. unfold lineRe.
    apply (line_matchAt findJSDoc names pre post t TAG b (text' ++ [SPACE])
             (LF :: chars " */") pos LF).
    - reflexivity.
    - exact names_split.
    - rewrite <- fromTag_line. exact earlier_fail.
    - exact t_matches.
    - rewrite <- fromTag_line. exact no_blank.
    - exact b_ordinary.
    - change (b :: text' ++ [SPACE]) with (text ++ [SPACE]).
      rewrite forallb_app, text_line. reflexivity.
    - reflexivity. }
  assert (Hin : forall pos ch rest, isLineTerminator ch = false ->
                matchAt lineRe pos (Some ch) rest = None).
  { intros pos ch rest Hch.
    eapply inside_line_matchAt; [reflexivity|exact Hch]. }
  assert (H0 : forall rest, atOpener rest ->
               matchAt lineRe 0 None rest = None).
  { intros rest Hrest. apply blocked_matchAt with (P := atOpener).
    - apply first_line_blocked; [exact names_nonempty|].
      intros Hp. specialize (plain_tags Hp).
      eapply Forall_impl; [|exact plain_tags]. now intros n [_ Hn].
    - exact Hrest. }
  unfold doc, blockText, lineMatch.
  destruct findJSDoc;
    cbn [openerText gap chars list_ascii_of_string app length Nat.add].
  - rewrite search_skip by (apply H0; eexists; reflexivity).
    do 4 (rewrite search_skip by (apply Hin; reflexivity)).
    apply search_here. apply Hline.
  - rewrite search_skip by (apply H0; eexists; reflexivity).
    do 3 (rewrite search_skip by (apply Hin; reflexivity)).
    apply search_here. apply Hline.
Qed.

Lemma line_exec :
  exec lineRe doc 0
  = (Some (lineMatch findJSDoc TAG text),
     3 + length (gap findJSDoc)
     + length (linePrefixText findJSDoc ++ TAG ++ SPACE :: text ++ [SPACE])).
Proof. rewrite exec_at_start, line_search. reflexivity. Qed.

Lemma line_exec_end :
  exec lineRe doc
    (3 + length (gap findJSDoc)
     + length (linePrefixText findJSDoc ++ TAG ++ SPACE :: text ++ [SPACE]))
  = (None, 0).
Proof.
  clear earlier_fail t_matches no_blank.
  assert (Hin : forall pos ch rest, isLineTerminator ch = false ->
                matchAt lineRe pos (Some ch) rest = None).
  { intros pos ch rest Hch.
    eapply inside_line_matchAt; [reflexivity|exact Hch]. }
  assert (Hlast : forall pos prev,
                  matchAt lineRe pos prev (chars " */") = None).
  { intros pos prev. apply blocked_matchAt with (P := oneOf [" */"%string]).
    - apply last_line_blocked; [exact names_nonempty|].
      intros Hp. specialize (plain_tags Hp).
      eapply Forall_impl; [|exact plain_tags]. now intros n [Hn _].
    - left. reflexivity. }
  set (head := (openerText findJSDoc ++ gap findJSDoc
                ++ linePrefixText findJSDoc ++ TAG ++ SPACE :: text)
               ++ [SPACE]).
  assert (Hdoc : doc = head ++ LF :: chars " */").
  { unfold doc, blockText, head.
    repeat (rewrite <- ?app_assoc, <- ?app_comm_cons; cbn [app]).
    reflexivity. }
  assert (Hlen : 3 + length (gap findJSDoc)
                 + length (linePrefixText findJSDoc ++ TAG
                           ++ SPACE :: text ++ [SPACE])
                 = length head).
  { unfold head. rewrite !length_app. cbn [length]. rewrite !length_app.
    destruct findJSDoc; cbn [openerText gap chars list_ascii_of_string length];
      lia. }
  rewrite Hlen, Hdoc, exec_at_split. unfold head. rewrite lastOf_app.
  rewrite search_skip by (apply Hin; reflexivity).
  cbn [chars list_ascii_of_string].
  rewrite search_skip by (apply Hlast).
  do 2 (rewrite search_skip by (apply Hin; reflexivity)).
  rewrite search_end by (apply Hin; reflexivity).
  reflexivity.
Qed.

End BlockScan.

(** ** The scan of one block *)

Lemma lineLoop_one_match (fuel : nat) (activeEditor : TextEditor)
  (commentRegEx : RegExp) (blockIndex : nat) (commentBlock : str)
  (p p' : Parser) (ln : MatchResult) (last : nat) :
  2 <= fuel ->
  exec commentRegEx commentBlock 0 = (Some ln, last) ->
  0 < last ->
  multilineMatch activeEditor blockIndex ln p = Done p' ->
  exec commentRegEx commentBlock last = (None, 0) ->
  lineLoop fuel activeEditor commentRegEx blockIndex commentBlock 0 p
  = Done p'.
Proof.
  intros Hfuel E0 Hlast Hbody E1.
  destruct fuel as [|[|fuel]]; try lia.
  cbn [lineLoop]. rewrite E0, Hbody.
  destruct (last <=? 0) eqn:E; [apply Nat.leb_le in E; lia|].
  now rewrite E1.
Qed.

Lemma blockLoop_one_match (fuel : nat) (activeEditor : TextEditor)
  (regEx commentRegEx : RegExp) (p p' : Parser) (m : MatchResult)
  (commentBlock : str) (last : nat) :
  2 <= fuel ->
  exec regEx (getText activeEditor) 0 = (Some m, last) ->
  0 < last ->
  group 0 m = Some commentBlock ->
  lineLoop (S (length commentBlock)) activeEditor commentRegEx (index m)
           commentBlock 0 p = Done p' ->
  exec regEx (getText activeEditor) last = (None, 0) ->
  blockLoop fuel activeEditor regEx commentRegEx 0 p = Done p'.
Proof.
  intros Hfuel E0 Hlast Hg Hbody E1.
  destruct fuel as [|[|fuel]]; try lia.
  cbn [blockLoop]. rewrite E0, Hg, Hbody.
  destruct (last <=? 0) eqn:E; [apply Nat.leb_le in E; lia|].
  now rewrite E1.
Qed.

Lemma blockText_length (findJSDoc : bool) (TAG text : str) :
  length (blockText findJSDoc TAG text)
  = 3 + length (gap findJSDoc)
    + length (linePrefixText findJSDoc ++ TAG ++ SPACE :: text ++ [SPACE])
    + 4.
Proof.
  unfold blockText. rewrite !length_app. cbn [length]. rewrite !length_app.
  destruct findJSDoc;
    cbn [openerText gap linePrefixText chars list_ascii_of_string length]; lia.
Qed.

Lemma blockText_tagged (findJSDoc : bool) (TAG text : str) :
  firstn (length (TAG ++ SPACE :: text ++ [SPACE]))
         (skipn (3 + length (gap findJSDoc)
                 + length (linePrefixText findJSDoc))
                (blockText findJSDoc TAG text))
  = TAG ++ SPACE :: text ++ [SPACE].
Proof.
  unfold blockText.
  replace (openerText findJSDoc ++ gap findJSDoc ++ linePrefixText findJSDoc
           ++ TAG ++ SPACE :: text ++ SPACE :: LF :: chars " */")
    with ((openerText findJSDoc ++ gap findJSDoc ++ linePrefixText findJSDoc)
          ++ (TAG ++ SPACE :: text ++ [SPACE]) ++ LF :: chars " */").
  2:{ repeat (rewrite <- ?app_assoc, <- ?app_comm_cons; cbn [app]).
      reflexivity. }
  replace (3 + length (gap findJSDoc) + length (linePrefixText findJSDoc))
    with (length (openerText findJSDoc ++ gap findJSDoc
                  ++ linePrefixText findJSDoc) + 0).
  2:{ rewrite !length_app. destruct findJSDoc; cbn; lia. }
  rewrite skipn_app, skipn_all2 by lia.
  replace (_ + 0 - _) with 0 by lia.
  cbn [skipn app].
  rewrite firstn_app, Nat.sub_diag, firstn_all. cbn [firstn].
  now rewrite app_nil_r.
Qed.

(** ** The tags after one range was pushed *)

Lemma length_updateAt (A : Type) (f : A -> A) (k : nat) (l : list A) :
  length (updateAt f k l) = length l.
Proof.
  revert k. induction l as [|a l IH]; intros [|k]; cbn [updateAt length];
    auto.
Qed.

Lemma pushRange_at (r : DecorationOptions) (k : nat) (ts : list CommentTag)
  (j : nat) (t : CommentTag) :
  nth_error ts j = Some t ->
  nth_error (updateAt (pushRange r) k ts) j
  = Some (mkCommentTag (tag t) (escapedTag t) (decoration t)
                       (ranges t ++ if j =? k then [r] else [])).
Proof.
  intros H. destruct (Nat.eqb_spec j k) as [->|Hjk].
  - rewrite nth_error_updateAt_same, H. reflexivity.
  - rewrite nth_error_updateAt_other, H by exact Hjk.
    destruct t as [name escaped deco rs]. cbn. now rewrite app_nil_r.
Qed.

Lemma pushRange_at_fresh (r : DecorationOptions) (k : nat)
  (items : list Config.TagItem) (j : nat) (other : Config.TagItem) :
  nth_error items j = Some other ->
  nth_error (updateAt (pushRange r) k (map makeTag items)) j
  = Some (mkCommentTag (Config.tag other) (escapedTag (makeTag other))
                       (decoration (makeTag other))
                       (if j =? k then [r] else [])).
Proof.
  intros H.
  rewrite (pushRange_at r k (map makeTag items) j (makeTag other)).
  - reflexivity.
  - now rewrite nth_error_map, H.
Qed.



(** The two blocks of C4 run through the scan: one range each, on the line
    of the tag, from the tag to the end of the line. *)
Example doc_block_ranges :
  let p := SetRegex "javascript" (newParser sampleTags) in
  option_map collected
    (match FindMultilineComments
             (mkEditor (blockText true (chars "TODO") (chars "text"))) true p
     with Done p' => Some p' | _ => None end)
  = Some [(chars "!", []); (chars "TODO", [lineRange 1 3 13])].
Proof. vm_compute. reflexivity. Qed.

Example plain_block_ranges :
  let p := SetRegex "javascript" (newParser sampleTags) in
  option_map collected
    (match FindMultilineComments
             (mkEditor (blockText false (chars "TODO") (chars "text"))) false p
     with Done p' => Some p' | _ => None end)
  = Some [(chars "!", []); (chars "TODO", [lineRange 1 1 11])].
Proof. vm_compute. reflexivity. Qed.


(** ** The state over a history of calls *)

Lemma resolveAll_snoc (langs : list string) (languageCode : string)
  (p : Parser) :
  resolveAll (langs ++ [languageCode]) p
  = SetRegex languageCode (resolveAll langs p).
Proof. unfold resolveAll. now rewrite fold_left_app. Qed.

Lemma resolveAll_contributions (langs : list string) (p : Parser) :
  contributions (resolveAll langs p) = contributions p.
Proof.
  revert p. induction langs as [|l langs IH]; intros p; [reflexivity|].
  cbn [resolveAll fold_left]. fold (resolveAll langs (SetRegex l p)).
  rewrite IH. apply SetRegex_fields.
Qed.

Lemma resolveAll_highlight (langs : list string) (p : Parser) :
  highlightMultilineComments (resolveAll langs p)
  = if existsb setsMultiline langs
    then Config.multilineComments (contributions p)
    else highlightMultilineComments p.
Proof.
  induction langs as [|l langs IH] using rev_ind; [reflexivity|].
  rewrite resolveAll_snoc, existsb_app. cbn [existsb]. rewrite orb_false_r.
  destruct (SetRegex_fields l (resolveAll langs p)) as (_ & _ & _ & -> & _).
  rewrite setDelimiter_highlight, resolveAll_contributions, IH.
  destruct (setsMultiline l); [now rewrite orb_true_r|now rewrite orb_false_r].
Qed.

Lemma contributions_newParser (cfg : Config.Contributions) :
  contributions (newParser cfg) = cfg.
Proof. reflexivity. Qed.

Lemma clearRanges_makeTag (items : list Config.TagItem) :
  map clearRanges (map makeTag items) = map makeTag items.
Proof. rewrite map_map. reflexivity. Qed.

Lemma clearRanges_twice (ts : list CommentTag) :
  map clearRanges (map clearRanges ts) = map clearRanges ts.
Proof. rewrite map_map. reflexivity. Qed.

Lemma sameButRanges_contributions (p p' : Parser) :
  sameButRanges p p' -> contributions p' = contributions p.
Proof. intros [-> _]. reflexivity. Qed.

(** Every call leaves the tags as they are, their ranges apart, and the
    configuration as it is. *)
Lemma perform_keeps (c : call) (p p' : Parser) :
  perform c p = Done p' ->
  map clearRanges (tags p') = map clearRanges (tags p)
  /\ contributions p' = contributions p.
Proof.
  destruct c as [l|ed|ed b|]; cbn [perform]; intros H.
  - injection H as <-.
    destruct (SetRegex_fields l p) as (-> & -> & _). now split.
  - apply FindSingleLineComments_sameButRanges in H.
    split; [apply H|now apply sameButRanges_contributions].
  - apply FindMultilineComments_sameButRanges in H.
    split; [apply H|now apply sameButRanges_contributions].
  - injection H as <-. unfold ApplyDecorations.
    rewrite flushTags_map. cbn [snd withTags tags contributions].
    split; [apply clearRanges_twice|reflexivity].
Qed.

Lemma performAll_keeps (cs : list call) (p p' : Parser) :
  performAll cs p = Done p' ->
  map clearRanges (tags p') = map clearRanges (tags p)
  /\ contributions p' = contributions p.
Proof.
  revert p. induction cs as [|c cs IH]; intros p H; cbn [performAll] in H.
  - injection H as <-. now split.
  - destruct (perform c p) as [q| | |] eqn:E; try discriminate.
    destruct (perform_keeps _ _ _ E) as [Ht Hc].
    destruct (IH _ H) as [Ht' Hc']. split; congruence.
Qed.

Lemma inTable_cases (languageCode : string) :
  inTable languageCode
  = isOneOf languageCode slashLanguages
    || isOneOf languageCode hashLanguages
    || String.eqb languageCode "python"
    || isOneOf languageCode dashLanguages
    || String.eqb languageCode "vb"
    || isOneOf languageCode percentLanguages
    || isOneOf languageCode semicolonLanguages
    || String.eqb languageCode "terraform".
Proof.
  unfold inTable, languageTable, isOneOf. rewrite !existsb_app.
  cbn [existsb]. rewrite !orb_false_r, !orb_assoc. reflexivity.
Qed.

Lemma prefixMatches_length (fl : Flags) (s input : str) :
  prefixMatches fl s input = true -> length s <= length input.
Proof.
  revert input. induction s as [|a s IH]; intros [|b input] H; simpl in *;
    try lia; try discriminate.
  apply andb_true_iff in H. destruct H as [_ H]. apply IH in H. lia.
Qed.

Lemma escapedTag_parses (item : Config.TagItem) :
  parsePattern (escapedTag (makeTag item))
  = Some (lits (Config.tag item), 0).
Proof.
  cbn [escapedTag makeTag]. unfold parsePattern.
  change (escapeSlashes (escapeSpecials (Config.tag item)))
    with (escapeTag (Config.tag item)).
  rewrite escapeTag_lexes.
  rewrite <- (app_nil_r (map TLit (Config.tag item))), parse_lits.
  cbn [parseTokens initialParse outer current nextGroup].
  rewrite closeFrame_pushLits. reflexivity.
Qed.

(** What the pattern of a literal matches. *)
Lemma lits_matchAt (fl : Flags) (s : str) (pos : nat) (prev : option ascii)
  (input : str) :
  matchAt (mkRegExp (lits s) 0 fl) pos prev input
  = if prefixMatches fl s input
    then Some (mkMatch pos [Some (firstn (length s) input)])
    else None.
Proof.
  unfold matchAt. cbn [reFlags pattern nGroups repeat].
  rewrite matcher_lits. cbn [remaining].
  destruct (prefixMatches fl s input) eqn:E; [|reflexivity].
  apply prefixMatches_length in E.
  set (x := mkState pos prev input []).
  destruct (advance_fields (firstn (length s) input)
                           (skipn (length s) input) x) as (H1 & _ & H3).
  { cbn [remaining x]. now rewrite firstn_skipn. }
  rewrite length_firstn, Nat.min_l in H1, H3 by exact E.
  rewrite H1, H3. cbn [endIndex captures x].
  now rewrite Nat.add_comm, Nat.add_sub.
Qed.


(** X1.  Resolving the same language twice in a row is the same as
    resolving it once: [SetRegex] rebuilds the delimiter, the flags and the
    expression from the language, the configuration and the tags alone. *)
Theorem SetRegex_idempotent (languageCode : string) (p : Parser) :
  SetRegex languageCode (SetRegex languageCode p) = SetRegex languageCode p.
Proof.
  unfold SetRegex, setDelimiter. destruct p as [ts e d h i s c].
  repeat match goal with
         | |- context [if ?b then _ else _] => destruct b eqn:?
         end; reflexivity.
Qed.

(** X2.  A language of the table replaces what the language before it
    left: the delimiter, the expression and [supportedLanguage] after
    [SetRegex] are those of a parser that never saw the earlier language,
    and the delimiter is one of the six of the table. *)
Theorem supported_language_overrides (earlier languageCode : string)
  (p : Parser) :
  inTable languageCode = true ->
  delimiter (SetRegex languageCode (SetRegex earlier p))
  = delimiter (SetRegex languageCode p)
  /\ expression (SetRegex languageCode (SetRegex earlier p))
     = expression (SetRegex languageCode p)
  /\ supportedLanguage (SetRegex languageCode (SetRegex earlier p)) = true
  /\ In (delimiter (SetRegex languageCode p)) delimiters.
Proof.
  intros H. rewrite inTable_cases in H.
  assert (Hd : forall q, delimiter (SetRegex languageCode q)
                         = delimiter (SetRegex languageCode p)
                         /\ supportedLanguage (SetRegex languageCode q) = true
                         /\ In (delimiter (SetRegex languageCode p))
                               delimiters).
  { intros q. unfold SetRegex, setDelimiter, delimiters.
    destruct (isOneOf languageCode slashLanguages); [cbn; auto 10|].
    destruct (isOneOf languageCode hashLanguages); [cbn; auto 10|].
    destruct (String.eqb languageCode "python"); [cbn; auto 10|].
    destruct (isOneOf languageCode dashLanguages); [cbn; auto 10|].
    destruct (String.eqb languageCode "vb"); [cbn; auto 10|].
    destruct (isOneOf languageCode percentLanguages); [cbn; auto 10|].
    destruct (isOneOf languageCode semicolonLanguages); [cbn; auto 10|].
    destruct (String.eqb languageCode "terraform"); [cbn; auto 10|].
    discriminate. }
  destruct (Hd (SetRegex earlier p)) as (H1 & H2 & H3).
  split; [exact H1|]. split; [|split; assumption].
  assert (He : forall q, expression (SetRegex languageCode q)
             = chars "(" ++ escapeSlashes (delimiter (SetRegex languageCode q))
               ++ chars ")+( |" ++ [TAB] ++ chars ")*(" 
               ++ join (chars "|") (characters q) ++ chars ")+(.*)").
  { intros q. destruct (SetRegex_fields languageCode q) as (_ & _ & -> & _).
    unfold SetRegex. cbn [expression withExpression].
    unfold characters at 1.
    destruct (setDelimiter_fields languageCode q) as (-> & _).
    rewrite <- !app_assoc. reflexivity. }
  rewrite (He (SetRegex earlier p)), (He p), H1.
  unfold characters.
  destruct (SetRegex_fields earlier p) as (-> & _). reflexivity.
Qed.

Lemma supported_language_overrides_witness :
  delimiter (SetRegex "ruby" (SetRegex "javascript" (newParser sampleTags)))
  = delimiter (SetRegex "ruby" (newParser sampleTags))
  /\ expression (SetRegex "ruby" (SetRegex "javascript" (newParser sampleTags)))
     = expression (SetRegex "ruby" (newParser sampleTags))
  /\ supportedLanguage
       (SetRegex "ruby" (SetRegex "javascript" (newParser sampleTags))) = true
  /\ In (delimiter (SetRegex "ruby" (newParser sampleTags))) delimiters.
Proof.
  apply (supported_language_overrides "javascript" "ruby"
           (newParser sampleTags)).
  reflexivity.
Defined.

(** X3.  Over any history of languages, oldest first, a parser has
    [ignoreFirstLine] set when python was ever resolved, and
    [highlightMultilineComments] set when the configuration asks for
    multi-line comments and a language of the [//] family or terraform was
    ever resolved; [supportedLanguage] alone follows the last language. *)
Theorem flags_over_history (cfg : Config.Contributions)
  (langs : list string) :
  ignoreFirstLine (resolveAll langs (newParser cfg))
  = existsb (fun l => String.eqb l "python") langs
  /\ highlightMultilineComments (resolveAll langs (newParser cfg))
     = Config.multilineComments cfg && existsb setsMultiline langs
  /\ (forall languageCode,
        supportedLanguage (resolveAll (langs ++ [languageCode]) (newParser cfg))
        = inTable languageCode).
Proof.
  split; [|split].
  - rewrite resolveAll_ignoreFirstLine. reflexivity.
  - rewrite resolveAll_highlight, contributions_newParser.
    destruct (existsb setsMultiline langs);
      [now rewrite andb_true_r|now rewrite andb_false_r].
  - intros l. rewrite resolveAll_snoc.
    destruct (SetRegex_fields l (resolveAll langs (newParser cfg)))
      as (_ & _ & _ & _ & _ & ->).
    apply setDelimiter_supported.
Qed.

(** X4.  When the configuration turns multi-line comments off, or no
    language of the [//] family and no terraform was ever resolved, the
    multi-line scan returns at once, whatever the document and the style,
    and leaves the parser as it is. *)
Theorem multiline_off_never_scans (cfg : Config.Contributions)
  (langs : list string) (activeEditor : TextEditor) (findJSDoc : bool) :
  Config.multilineComments cfg && existsb setsMultiline langs = false ->
  FindMultilineComments activeEditor findJSDoc
    (resolveAll langs (newParser cfg))
  = Done (resolveAll langs (newParser cfg)).
Proof.
  intros H. unfold FindMultilineComments.
  rewrite resolveAll_highlight, contributions_newParser.
  destruct (existsb setsMultiline langs).
  - rewrite andb_true_r in H. rewrite H. reflexivity.
  - reflexivity.
Qed.

Lemma multiline_off_never_scans_witness :
  FindMultilineComments (mkEditor plainBlock) false
    (resolveAll ["python"; "ruby"]%string (newParser sampleConfig))
  = Done (resolveAll ["python"; "ruby"]%string (newParser sampleConfig)).
Proof.
  apply (multiline_off_never_scans sampleConfig ["python"; "ruby"]%string
           (mkEditor plainBlock) false).
  reflexivity.
Defined.

(** X5.  The tags are fixed by the constructor: after any calls of
    [SetRegex], the two scans and [ApplyDecorations] that all returned, the
    parser holds one tag per configured item, in the order of the
    configuration, with the literal, the escaped literal and the decoration
    the constructor gave it (only the ranges differ), and the
    configuration it was built from. *)
Theorem tags_fixed_at_construction (cfg : Config.Contributions)
  (cs : list call) (p : Parser) :
  performAll cs (newParser cfg) = Done p ->
  map clearRanges (tags p) = map makeTag (Config.tags cfg)
  /\ contributions p = cfg.
Proof.
  intros H. destruct (performAll_keeps _ _ _ H) as [Ht Hc].
  rewrite Ht, Hc, tags_newParser, clearRanges_makeTag. now split.
Qed.

Lemma tags_fixed_at_construction_witness :
  map clearRanges
      (tags (withTags
               (updateAt (pushRange (lineRange 0 0 9)) 1
                         (tags (SetRegex "javascript" (newParser sampleTags))))
               (SetRegex "javascript" (newParser sampleTags))))
  = map makeTag (Config.tags sampleTags)
  /\ contributions
       (withTags
          (updateAt (pushRange (lineRange 0 0 9)) 1
                    (tags (SetRegex "javascript" (newParser sampleTags))))
          (SetRegex "javascript" (newParser sampleTags)))
     = sampleTags.
Proof.
  apply (tags_fixed_at_construction sampleTags
           [CallSetRegex "javascript";
            CallFindSingleLineComments (mkEditor (chars "// TODO x"))]).
  vm_compute. reflexivity.
Defined.

(** X6.  [setTags] escapes a tag so that the pattern reads it literally:
    for every tag, whatever characters it holds, the escaped tag parses to
    the pattern of its own characters in sequence, without a group, and
    that pattern matches at a position exactly when the input there starts
    with the tag (up to case under the flag [i]); the match is the text of
    the tag's length. *)
Theorem escaped_tag_is_literal (item : Config.TagItem) (fl : Flags) :
  exists re,
    newRegExp (escapedTag (makeTag item)) fl = Some re
    /\ pattern re = lits (Config.tag item)
    /\ nGroups re = 0
    /\ forall pos prev input,
        matchAt re pos prev input
        = if prefixMatches fl (Config.tag item) input
          then Some (mkMatch pos
                       [Some (firstn (length (Config.tag item)) input)])
          else None.
Proof.
  exists (mkRegExp (lits (Config.tag item)) 0 fl).
  split; [|split; [reflexivity|split; [reflexivity|]]].
  - unfold newRegExp. now rewrite escapedTag_parses.
  - intros pos prev input. apply lits_matchAt.
Qed.

(** ** Reached parsers *)

Lemma shaped_names (cfg : Config.Contributions) (p : Parser) :
  shaped cfg p ->
  map tag (tags p) = map Config.tag (Config.tags cfg)
  /\ escapedTags p.
Proof.
  intros (Ht & _).
  assert (H1 : map tag (tags p) = map tag (map clearRanges (tags p))).
  { rewrite map_map. reflexivity. }
  assert (H2 : map escapedTag (tags p)
               = map escapedTag (map clearRanges (tags p))).
  { rewrite map_map. reflexivity. }
  split.
  - rewrite H1, Ht, map_map. reflexivity.
  - unfold escapedTags, characters. rewrite H2, H1, Ht, !map_map.
    reflexivity.
Qed.

Lemma shaped_newParser (cfg : Config.Contributions) :
  shaped cfg (newParser cfg).
Proof.
  split; [|split; [reflexivity|split; [left; reflexivity|]]].
  - rewrite tags_newParser. apply clearRanges_makeTag.
  - intros H. now contradiction H.
Qed.

Lemma shaped_sameButRanges (cfg : Config.Contributions) (p p' : Parser) :
  shaped cfg p -> sameButRanges p p' -> shaped cfg p'.
Proof.
  intros (Ht & Hc & Hd & He) [Hp Hr].
  rewrite Hp. cbn [shaped tags contributions delimiter expression withTags].
  unfold shaped. cbn [tags contributions delimiter expression withTags].
  rewrite Hr. auto.
Qed.

Lemma shaped_perform (cfg : Config.Contributions) (c : call) (p p' : Parser) :
  shaped cfg p -> perform c p = Done p' -> shaped cfg p'.
Proof.
  intros Hs H. destruct c as [l|ed|ed b|]; cbn [perform] in H.
  - injection H as <-.
    destruct (shaped_names cfg p Hs) as [Hn He].
    destruct Hs as (Ht & Hc & Hd & _).
    destruct (SetRegex_fields l p) as (Ht' & Hc' & Hd' & _).
    split; [now rewrite Ht'|]. split; [now rewrite Hc'|]. split.
    + rewrite Hd'. destruct (inTable l) eqn:E.
      * right. now apply delimiter_in_table.
      * now rewrite (setDelimiter_unsupported l p E).
    + intros _. rewrite (expression_SetRegex l p He), Hd', Hn. reflexivity.
  - apply (shaped_sameButRanges cfg p p' Hs).
    now apply FindSingleLineComments_sameButRanges in H.
  - apply (shaped_sameButRanges cfg p p' Hs).
    now apply FindMultilineComments_sameButRanges in H.
  - injection H as <-. apply (shaped_sameButRanges cfg p _ Hs).
    unfold ApplyDecorations. rewrite flushTags_map. cbn [snd].
    split; [reflexivity|]. cbn [tags withTags]. apply clearRanges_twice.
Qed.

Lemma shaped_performAll (cfg : Config.Contributions) (cs : list call)
  (p p' : Parser) :
  shaped cfg p -> performAll cs p = Done p' -> shaped cfg p'.
Proof.
  revert p. induction cs as [|c cs IH]; intros p Hs H; cbn [performAll] in H.
  - now injection H as <-.
  - destruct (perform c p) as [q| | |] eqn:E; try discriminate.
    apply (IH q); [|exact H]. now apply (shaped_perform cfg c p q).
Qed.

Lemma reached_shaped (cfg : Config.Contributions) (p : Parser) :
  reached cfg p -> shaped cfg p.
Proof.
  intros [cs H]. apply (shaped_performAll cfg cs _ p (shaped_newParser cfg) H).
Qed.

Lemma reached_resolveAll (cfg : Config.Contributions) (langs : list string) :
  reached cfg (resolveAll langs (newParser cfg)).
Proof.
  exists (map CallSetRegex langs). generalize (newParser cfg).
  induction langs as [|l langs IH]; intros p; [reflexivity|].
  cbn [map performAll perform resolveAll fold_left]. apply IH.
Qed.

(** X7.  A parser the constructor built, whatever calls that returned came
    after, never fails in a scan that has its patterns: the multi-line scan
    returns for every document and style, and the single-line scan returns
    for every document once a language of the table has been resolved
    (the delimiter is no longer empty).  No tag, however written, makes a
    pattern that does not parse or a scan that does not end. *)
Theorem scans_always_return (cfg : Config.Contributions) (p : Parser)
  (activeEditor : TextEditor) (findJSDoc : bool) :
  reached cfg p ->
  (exists p', FindMultilineComments activeEditor findJSDoc p = Done p')
  /\ (delimiter p <> [] ->
      exists p', FindSingleLineComments activeEditor p = Done p').
Proof.
  intros Hr. apply reached_shaped in Hr.
  destruct (shaped_names cfg p Hr) as [_ He].
  destruct Hr as (_ & _ & Hd & Hx). split.
  - now apply FindMultilineComments_returns.
  - intros Hne. destruct Hd as [Hd|Hd]; [now contradiction Hne|].
    apply (FindSingleLineComments_returns activeEditor p (delimiter p)
             (map Config.tag (Config.tags cfg)) Hd (Hx Hne)).
Qed.

Lemma scans_always_return_witness :
  (exists p',
      FindMultilineComments (mkEditor docBlock) true
        (SetRegex "javascript" (newParser sampleTags)) = Done p')
  /\ (delimiter (SetRegex "javascript" (newParser sampleTags)) <> [] ->
      exists p',
        FindSingleLineComments (mkEditor docBlock)
          (SetRegex "javascript" (newParser sampleTags)) = Done p').
Proof.
  apply (scans_always_return sampleTags
           (SetRegex "javascript" (newParser sampleTags))
           (mkEditor docBlock) true).
  exists [CallSetRegex "javascript"]. reflexivity.
Defined.

(** X8.  The single-line scan of a parser that never resolved a language
    throws: the expression is still empty, so the first [exec] matches the
    empty text at offset 0 without a third group, and the comparison with
    the first tag reads [toLowerCase] of [undefined].  This holds for every
    document; the configuration has to hold a tag for the comparison to
    run. *)
Theorem scan_before_SetRegex_throws (cfg : Config.Contributions)
  (activeEditor : TextEditor) :
  Config.tags cfg <> [] ->
  expression (newParser cfg) = []
  /\ exec (mkRegExp REmpty 0 flagsIG) (getText activeEditor) 0
     = (Some (mkMatch 0 [Some []]), 0)
  /\ FindSingleLineComments activeEditor (newParser cfg) = TypeError.
Proof.
  intros Hne. split; [reflexivity|].
  assert (E : exec (mkRegExp REmpty 0 flagsIG) (getText activeEditor) 0
              = (Some (mkMatch 0 [Some []]), 0)).
  { rewrite exec_at_start.
    rewrite (search_here _ _ _ _ (mkMatch 0 [Some []])); [reflexivity|].
    unfold matchAt. cbn. reflexivity. }
  split; [exact E|].
  unfold FindSingleLineComments.
  change (newRegExp (expression (newParser cfg)) flagsIG)
    with (Some (mkRegExp REmpty 0 flagsIG)).
  cbn [singleLineLoop]. rewrite E.
  unfold singleLineMatch.
  change (ignoreFirstLine (newParser cfg)) with false.
  cbn [andb group nth groups]. rewrite tags_newParser.
  destruct (Config.tags cfg); [contradiction|reflexivity].
Qed.

Lemma scan_before_SetRegex_throws_witness :
  expression (newParser sampleTags) = []
  /\ exec (mkRegExp REmpty 0 flagsIG) (getText (mkEditor (chars "// TODO x"))) 0
     = (Some (mkMatch 0 [Some []]), 0)
  /\ FindSingleLineComments (mkEditor (chars "// TODO x"))
       (newParser sampleTags) = TypeError.
Proof.
  apply (scan_before_SetRegex_throws sampleTags
           (mkEditor (chars "// TODO x"))).
  discriminate.
Defined.

(** ** Patterns that match the empty text *)

Section Total.

Variable body : cont -> MatchState -> option MatchState.
Variable gs : list nat.

Lemma repeat_total_zero (fuel : nat) (max : option nat) (greedy : bool)
  (c : cont) (x : MatchState) :
  0 < fuel ->
  (forall y, c y <> None) ->
  repeatMatcher body gs fuel 0 max greedy c x <> None.
Proof.
  intros Hf Hc. destruct fuel as [|fuel]; [lia|].
  cbn [repeatMatcher Nat.eqb negb andb].
  destruct (isZero max); [apply Hc|].
  destruct greedy.
  - destruct (body _ _); [discriminate|apply Hc].
  - specialize (Hc x). destruct (c x); [discriminate|contradiction].
Qed.

Hypothesis body_total :
  forall c x, (forall y, c y <> None) -> body c x <> None.

Lemma repeat_total (greedy : bool) (c : cont) :
  (forall y, c y <> None) ->
  forall fuel min max x,
    min < fuel ->
    repeatMatcher body gs fuel min max greedy c x <> None.
Proof.
  intros Hc. induction fuel as [|fuel IH]; intros min max' x Hf; [lia|].
  destruct min as [|min]; [now apply repeat_total_zero|].
  cbn [repeatMatcher Nat.eqb negb andb].
  destruct (isZero max'); [apply Hc|].
  apply body_total. intros y. apply IH. cbn [Nat.sub]. lia.
Qed.

End Total.

Lemma matcher_total (fl : Flags) (r : regex) :
  nullable r = true ->
  forall c x, (forall y, c y <> None) -> matcher fl r c x <> None.
Proof.
  induction r as [|a| |inv items| | |r1 IH1 r2 IH2|r1 IH1 r2 IH2|n r IH
                  |min max greedy r IH];
    cbn [nullable]; intros Hn c x Hc; try discriminate.
  - apply Hc.
  - apply andb_true_iff in Hn. destruct Hn as [H1 H2].
    cbn [matcher]. apply IH1; [exact H1|]. intros y. now apply IH2.
  - cbn [matcher].
    destruct (matcher fl r1 c x) eqn:E; [discriminate|].
    destruct (nullable r1); [now apply IH1 in E|].
    cbn [orb] in Hn. now apply IH2.
  - cbn [matcher]. apply IH; [exact Hn|]. intros y. apply Hc.
  - cbn [matcher]. destruct (nullable r).
    + apply repeat_total; [|exact Hc|lia].
      intros c' x' Hc'. now apply IH.
    + rewrite orb_false_r in Hn. apply Nat.eqb_eq in Hn. subst min.
      apply repeat_total_zero; [lia|exact Hc].
Qed.

Lemma nullable_matchAt (re : RegExp) (pos : nat) (prev : option ascii)
  (rest : str) :
  nullable (pattern re) = true ->
  exists m, matchAt re pos prev rest = Some m.
Proof.
  intros Hn. unfold matchAt.
  destruct (matcher _ _ _ _) eqn:E; [eexists; reflexivity|].
  exfalso. revert E. apply matcher_total; [exact Hn|]. discriminate.
Qed.

Lemma nullable_lits (s : str) :
  nullable (lits s) = match s with [] => true | _ => false end.
Proof. destruct s; reflexivity. Qed.

Lemma nullable_mkAlt (first : regex) (others : list regex) :
  nullable (mkAlt first others) = nullable first || existsb nullable others.
Proof.
  revert first. induction others as [|r rs IH]; intros first; cbn.
  - now rewrite orb_false_r.
  - now rewrite IH.
Qed.

Lemma nullable_altsOf (names : list str) :
  names = [] \/ In [] names -> nullable (altsOf names) = true.
Proof.
  intros [->|H]; [reflexivity|].
  destruct names as [|a rest]; [contradiction|].
  cbn [altsOf]. rewrite nullable_mkAlt, nullable_lits.
  destruct H as [->|H]; [reflexivity|].
  destruct a; [reflexivity|]. cbn [orb].
  apply existsb_exists. exists (lits []). split; [|reflexivity].
  apply in_map_iff. now exists [].
Qed.

(** A scan whose pattern matches the empty text never returns: the
    matches it finds end at the end of the text at the latest, where the
    next one is empty and leaves [lastIndex] in place. *)
Lemma singleLineLoop_diverges (activeEditor : TextEditor) (regEx : RegExp) :
  wellFormed (nGroups regEx) (pattern regEx) = true ->
  In 3 (definite (pattern regEx)) ->
  nullable (pattern regEx) = true ->
  forall fuel lastIndex p,
    lastIndex <= length (getText activeEditor) ->
    singleLineLoop fuel activeEditor regEx lastIndex p = Diverges.
Proof.
  intros Hwf Hdef Hn. induction fuel as [|fuel IH]; intros lastIndex p Hle;
    [reflexivity|].
  cbn [singleLineLoop].
  destruct (exec regEx (getText activeEditor) lastIndex) as [[m|] last] eqn:E.
  - destruct (exec_sound _ _ _ _ _ Hwf E) as (_ & Hlast & _ & Hg).
    specialize (Hg 3 Hdef).
    unfold singleLineMatch.
    destruct (ignoreFirstLine p && atOrigin _).
    + destruct (last <=? lastIndex); [reflexivity|now apply IH].
    + destruct (group 3 m) as [s|]; [|contradiction].
      destruct (last <=? lastIndex); [reflexivity|now apply IH].
  - exfalso. unfold exec in E.
    destruct (length (getText activeEditor) <? lastIndex) eqn:El.
    { apply Nat.ltb_lt in El. lia. }
    destruct (nullable_matchAt regEx lastIndex
                (lastOf (firstn lastIndex (getText activeEditor)))
                (skipn lastIndex (getText activeEditor)) Hn) as [m Hm].
    rewrite (search_here _ _ _ _ _ Hm) in E. discriminate.
Qed.

Lemma exec_at_end_empty (regEx : RegExp) (text : str) :
  wellFormed (nGroups regEx) (pattern regEx) = true ->
  nullable (pattern regEx) = true ->
  exists m, exec regEx text (length text) = (Some m, length text).
Proof.
  intros Hwf Hn.
  pose proof (exec_at_split regEx text []) as H. rewrite app_nil_r in H.
  destruct (nullable_matchAt regEx (length text) (lastOf text) [] Hn)
    as [m Hm].
  rewrite (search_here _ _ _ _ _ Hm) in H.
  destruct (matchAt_sound _ _ _ _ _ Hwf Hm) as (Hi & _ & Hl & _).
  cbn [length] in Hl. exists m. rewrite H, Hi.
  replace (matchLength m) with 0 by lia. now rewrite Nat.add_0_r.
Qed.

Lemma resolveAll_no_delimiter (langs : list string) (p : Parser) :
  existsb inTable langs = false ->
  delimiter (resolveAll langs p) = delimiter p.
Proof.
  revert p. induction langs as [|l langs IH]; intros p H; [reflexivity|].
  cbn [existsb] in H. apply orb_false_iff in H. destruct H as [Hl H].
  cbn [resolveAll fold_left]. fold (resolveAll langs (SetRegex l p)).
  rewrite (IH _ H).
  destruct (SetRegex_fields l p) as (_ & _ & -> & _).
  now rewrite (setDelimiter_unsupported l p Hl).
Qed.

Lemma minLen_mkAlt_lits (a : str) (rest : list str) :
  a <> [] -> ~ In [] rest -> 1 <= minLen (mkAlt (lits a) (map lits rest)).
Proof.
  revert a. induction rest as [|b rest IH]; intros a Ha Hr;
    cbn [map mkAlt minLen].
  - rewrite minLen_lits. destruct a; [contradiction|cbn; lia].
  - assert (H1 : 1 <= minLen (lits a)).
    { rewrite minLen_lits. destruct a; [contradiction|cbn; lia]. }
    assert (H2 : 1 <= minLen (mkAlt (lits b) (map lits rest))).
    { apply IH.
      - intros ->. apply Hr. now left.
      - intros H. apply Hr. now right. }
    lia.
Qed.

Lemma minLen_altsOf (names : list str) :
  names <> [] -> ~ In [] names -> 1 <= minLen (altsOf names).
Proof.
  intros Hne Hin. destruct names as [|a rest]; [contradiction|].
  cbn [altsOf]. apply minLen_mkAlt_lits.
  - intros ->. apply Hin. now left.
  - intros H. apply Hin. now right.
Qed.

(** X9.  A parser that resolved languages, none of them of the table,
    still has the empty delimiter, and its expression starts with the
    tags.  The single-line scan then returns, whatever the document, when
    the configuration holds tags and none of them is the empty text.  When
    it holds no tag, or a tag that is the empty text, the expression
    matches the empty text and the scan never returns, whatever the
    document: at the end of the text [exec] matches the empty text and
    leaves [lastIndex] where it is. *)
Theorem scan_without_delimiter (cfg : Config.Contributions)
  (langs : list string) (activeEditor : TextEditor) :
  langs <> [] ->
  existsb inTable langs = false ->
  let p := resolveAll langs (newParser cfg) in
  let names := map Config.tag (Config.tags cfg) in
  let text := getText activeEditor in
  delimiter p = []
  /\ (names <> [] -> ~ In [] names ->
      exists p', FindSingleLineComments activeEditor p = Done p')
  /\ (names = [] \/ In [] names ->
      (exists regEx m,
          newRegExp (expression p) flagsIG = Some regEx
          /\ exec regEx text (length text) = (Some m, length text))
      /\ FindSingleLineComments activeEditor p = Diverges).
Proof.
  intros Hne Hun p names text.
  assert (Hd : delimiter p = []).
  { unfold p. now rewrite resolveAll_no_delimiter. }
  assert (He : expression p = singleLineSource [] names).
  { destruct (exists_last Hne) as (langs' & l & Hl).
    unfold p. rewrite Hl, resolveAll_snoc.
    pose proof (reached_shaped cfg _ (reached_resolveAll cfg langs')) as Hs.
    destruct (shaped_names cfg _ Hs) as [Hn Hesc].
    rewrite (expression_SetRegex l _ Hesc), Hn.
    destruct (SetRegex_fields l (resolveAll langs' (newParser cfg)))
      as (_ & _ & <- & _).
    rewrite <- resolveAll_snoc, <- Hl. fold p. now rewrite Hd. }
  set (regEx := mkRegExp (singleLinePattern [] names) 4 flagsIG).
  assert (Hre : newRegExp (expression p) flagsIG = Some regEx).
  { unfold newRegExp. now rewrite He, (singleLine_parses [] names eq_refl). }
  destruct (singleLinePattern_shape [] names) as (Hwf & _ & Hdef).
  split; [exact Hd|]. split.
  - intros Hnames Hfull.
    unfold FindSingleLineComments. rewrite Hre.
    apply singleLineLoop_returns; try assumption; try lia.
    pose proof (minLen_altsOf names Hnames Hfull) as Hmin.
    cbn [pattern regEx singleLinePattern minLen plus star Nat.eqb].
    lia.
  - intros Htags.
    assert (Hnull : nullable (pattern regEx) = true).
    { cbn [pattern regEx singleLinePattern nullable plus star lits fold_right
           Nat.eqb orb andb].
      rewrite andb_true_r. now apply nullable_altsOf. }
    split.
    + destruct (exec_at_end_empty regEx text Hwf Hnull) as [m Hm].
      now exists regEx, m.
    + unfold FindSingleLineComments. rewrite Hre.
      apply singleLineLoop_diverges; try assumption. lia.
Qed.

Lemma scan_without_delimiter_witness :
  let p := resolveAll ["plaintext"]%string
             (newParser (Config.mkContributions true true [plainTag EmptyString])) in
  let names :=
    map Config.tag
        (Config.tags (Config.mkContributions true true [plainTag EmptyString])) in
  let text := getText (mkEditor (chars "some text")) in
  delimiter p = []
  /\ (names <> [] -> ~ In [] names ->
      exists p',
        FindSingleLineComments (mkEditor (chars "some text")) p = Done p')
  /\ (names = [] \/ In [] names ->
      (exists regEx m,
          newRegExp (expression p) flagsIG = Some regEx
          /\ exec regEx text (length text) = (Some m, length text))
      /\ FindSingleLineComments (mkEditor (chars "some text")) p = Diverges).
Proof.
  apply (scan_without_delimiter
           (Config.mkContributions true true [plainTag EmptyString])
           ["plaintext"]%string (mkEditor (chars "some text"))).
  - discriminate.
  - reflexivity.
Defined.

(** The two ends of X9 run through the scan: with the tags [!] and [TODO]
    a text without delimiter is scanned for the bare tags, the blanks
    before them included; with an empty
    tag the scan does not end. *)
Example scan_without_delimiter_runs :
  option_map collected
    (match FindSingleLineComments (mkEditor (chars "a TODO b"))
             (SetRegex "plaintext" (newParser sampleTags))
     with Done p' => Some p' | _ => None end)
  = Some [(chars "!", []); (chars "TODO", [lineRange 0 1 8])]
  /\ FindSingleLineComments (mkEditor (chars "a TODO b"))
       (SetRegex "plaintext"
          (newParser (Config.mkContributions true true [plainTag EmptyString])))
     = Diverges.
Proof. split; vm_compute; reflexivity. Qed.

(** ** Documents without a comment *)

Lemma sameChar_symbol (d ch : ascii) :
  In d (chars "/#-'%;") -> sameChar flagsIG d ch = Ascii.eqb d ch.
Proof.
  intros [<-|[<-|[<-|[<-|[<-|[<-|[]]]]]]];
    destruct ch as [[] [] [] [] [] [] [] []]; reflexivity.
Qed.

Lemma delimiter_prefix (D rem : str) :
  In D delimiters -> prefixMatches flagsIG D rem = startsWith D rem.
Proof.
  intros [<-|[<-|[<-|[<-|[<-|[<-|[]]]]]]];
    cbn [chars list_ascii_of_string];
    repeat (destruct rem as [|? rem]; cbn [prefixMatches startsWith];
            try reflexivity;
            rewrite ?sameChar_symbol by (cbn; tauto));
    reflexivity.
Qed.

Lemma search_no_delimiter (D : str) (names : list str) (rest : str) :
  In D delimiters ->
  occurs D rest = false ->
  forall pos prev,
    search (mkRegExp (singleLinePattern D names) 4 flagsIG) pos prev rest
    = None.
Proof.
  intros HD. induction rest as [|ch rest IH]; intros H pos prev;
    cbn [occurs] in H; apply orb_false_iff in H; destruct H as [H1 H2].
  - apply search_end. apply singleLine_no_match.
    now rewrite delimiter_prefix.
  - rewrite search_skip; [now apply IH|].
    apply singleLine_no_match. now rewrite delimiter_prefix.
Qed.

(** X10.  A document in which the delimiter of the resolved language does
    not occur, the empty document among them, gets no range from the
    single-line scan: the scan returns the parser as it was. *)
Theorem no_delimiter_no_ranges (cfg : Config.Contributions) (p : Parser)
  (activeEditor : TextEditor) :
  reached cfg p ->
  delimiter p <> [] ->
  occurs (delimiter p) (getText activeEditor) = false ->
  FindSingleLineComments activeEditor p = Done p.
Proof.
  intros Hr Hne Hno. apply reached_shaped in Hr.
  destruct Hr as (_ & _ & Hd & Hx).
  destruct Hd as [Hd|Hd]; [now contradiction Hne|].
  destruct (delimiters_plain _ Hd) as (_ & Hesc & _).
  unfold FindSingleLineComments, newRegExp.
  rewrite (Hx Hne), (singleLine_parses _ _ Hesc).
  cbn [singleLineLoop]. rewrite exec_at_start.
  now rewrite (search_no_delimiter _ _ _ Hd Hno).
Qed.

Lemma no_delimiter_no_ranges_witness :
  FindSingleLineComments (mkEditor (chars "x = 1 / 2 # TODO"))
    (SetRegex "javascript" (newParser sampleTags))
  = Done (SetRegex "javascript" (newParser sampleTags)).
Proof.
  apply (no_delimiter_no_ranges sampleTags
           (SetRegex "javascript" (newParser sampleTags))
           (mkEditor (chars "x = 1 / 2 # TODO"))).
  - exists [CallSetRegex "javascript"]. reflexivity.
  - discriminate.
  - reflexivity.
Defined.

Lemma prefixMatches_exact (fl : Flags) (s rem : str) :
  ignoreCase fl = false -> prefixMatches fl s rem = startsWith s rem.
Proof.
  intros H. revert rem.
  induction s as [|a s IH]; intros [|b rem]; cbn; try reflexivity.
  unfold sameChar. now rewrite H, IH.
Qed.

Lemma blocks_opener (findJSDoc : bool) :
  blocks flagsGM (blockOpener findJSDoc)
         (fun s => opensAt findJSDoc s = false) nowhere.
Proof.
  destruct findJSDoc; unfold blockOpener, opensAt.
  - apply blocks_lits. intros rem H Hm.
    rewrite prefixMatches_exact in Hm by reflexivity. congruence.
  - intros c x HP _. cbn [matcher]. unfold charMatcher at 1.
    destruct (remaining x) as [|a s1]; [reflexivity|].
    change (sameChar flagsGM "/" a) with (Ascii.eqb "/" a).
    destruct (Ascii.eqb "/" a); [|reflexivity].
    unfold charMatcher at 1. cbn [remaining].
    destruct s1 as [|b s2]; [reflexivity|].
    change (sameChar flagsGM "*" b) with (Ascii.eqb "*" b).
    destruct (Ascii.eqb "*" b); [|reflexivity].
    unfold charMatcher at 1. cbn [remaining].
    destruct s2 as [|d s3]; [reflexivity|].
    change (setMatches flagsGM true [CIChar "*"] d)
      with (negb (Ascii.eqb "*" d || false)).
    rewrite orb_false_r. cbn [andb] in HP. now rewrite HP.
Qed.

Lemma blocks_plus_nowhere (fl : Flags) (r : regex) (P Q : str -> Prop) :
  blocks fl r P nowhere -> blocks fl (plus r) P Q.
Proof.
  intros H c x HP _. unfold plus. cbn [matcher].
  apply repeat_fails; [reflexivity|discriminate|].
  intros k. apply H; [|intros y []].
  destruct (clearCaptures_fields (groupsOf r) x) as (_ & -> & _). exact HP.
Qed.

Lemma blocks_blockPattern (findJSDoc : bool) :
  blocks flagsGM (blockPattern findJSDoc)
         (fun s => hasOpener findJSDoc s = false) nowhere.
Proof.
  unfold blockPattern.
  apply blocks_seq with (R := fun s => hasOpener findJSDoc s = false).
  - apply blocks_group, blocks_alt.
    + apply blocks_seq with (R := fun s => hasOpener findJSDoc s = false);
        [apply blocks_bol|apply blocks_empty].
    + apply blocks_seq with (R := fun s => hasOpener findJSDoc s = false);
        [|apply blocks_empty].
      apply blocks_char
        with (test := setMatches flagsGM false [CIChar SPACE; CIChar TAB]);
        [reflexivity|].
      intros ch rest H _. cbn [hasOpener] in H.
      now apply orb_false_iff in H.
  - apply blocks_seq with (R := nowhere); [|apply blocks_nowhere].
    apply blocks_plus_nowhere, blocks_group.
    apply blocks_weaken with (P := fun s => opensAt findJSDoc s = false)
                             (Q := nowhere); [|tauto|apply blocks_opener].
    intros s H. destruct s; cbn [hasOpener] in H;
      now apply orb_false_iff in H.
Qed.

Lemma search_no_opener (findJSDoc : bool) (rest : str) :
  hasOpener findJSDoc rest = false ->
  forall pos prev,
    search (mkRegExp (blockPattern findJSDoc) 4 flagsGM) pos prev rest = None.
Proof.
  induction rest as [|ch rest IH]; intros H pos prev.
  - apply search_end.
    apply blocked_matchAt with (P := fun s => hasOpener findJSDoc s = false);
      [apply blocks_blockPattern|exact H].
  - rewrite search_skip.
    + apply IH. cbn [hasOpener] in H. now apply orb_false_iff in H.
    + apply blocked_matchAt
        with (P := fun s => hasOpener findJSDoc s = false);
        [apply blocks_blockPattern|exact H].
Qed.

Lemma no_opener_scan (cfg : Config.Contributions) (p : Parser)
  (activeEditor : TextEditor) (findJSDoc : bool) :
  shaped cfg p ->
  hasOpener findJSDoc (getText activeEditor) = false ->
  FindMultilineComments activeEditor findJSDoc p = Done p.
Proof.
  intros Hs Hno. destruct (shaped_names cfg p Hs) as [_ He].
  unfold FindMultilineComments.
  destruct (highlightMultilineComments p); [|reflexivity]. cbn [negb].
  rewrite block_parses. unfold newRegExp.
  rewrite (commentMatchString_lineSource findJSDoc p He), line_parses.
  cbn [blockLoop]. rewrite exec_at_start.
  now rewrite (search_no_opener findJSDoc _ Hno).
Qed.

(** X11.  A document that nowhere starts a block of the style (no [/**]
    for the documentation style; no [/*] followed by a character other than
    [*] for the plain style), the empty document among them, gets no range
    from the multi-line scan: the scan returns the parser as it was. *)
Theorem no_opener_no_ranges (cfg : Config.Contributions) (p : Parser)
  (activeEditor : TextEditor) (findJSDoc : bool) :
  reached cfg p ->
  hasOpener findJSDoc (getText activeEditor) = false ->
  FindMultilineComments activeEditor findJSDoc p = Done p.
Proof.
  intros Hr Hno. apply (no_opener_scan cfg); [|exact Hno].
  now apply reached_shaped.
Qed.

Lemma no_opener_no_ranges_witness :
  FindMultilineComments (mkEditor (chars "x = 1 / 2 // TODO * /")) false
    (SetRegex "javascript" (newParser sampleTags))
  = Done (SetRegex "javascript" (newParser sampleTags)).
Proof.
  apply (no_opener_no_ranges sampleTags
           (SetRegex "javascript" (newParser sampleTags))
           (mkEditor (chars "x = 1 / 2 // TODO * /")) false).
  - exists [CallSetRegex "javascript"]. reflexivity.
  - reflexivity.
Defined.

Lemma hasOpener_after (findJSDoc : bool) (a r : str) :
  occurs (chars "/*") a = false ->
  hasOpener findJSDoc (a ++ SPACE :: r) = hasOpener findJSDoc (SPACE :: r).
Proof.
  induction a as [|ch a IH]; intros H; [reflexivity|].
  cbn [occurs] in H. apply orb_false_iff in H. destruct H as [H1 H2].
  cbn [app]. cbn [hasOpener]. fold (hasOpener findJSDoc (a ++ SPACE :: r)).
  rewrite (IH H2).
  replace (opensAt findJSDoc (ch :: a ++ SPACE :: r)) with false;
    [reflexivity|].
  symmetry. cbn [startsWith chars list_ascii_of_string] in H1.
  destruct findJSDoc; cbn [opensAt startsWith chars list_ascii_of_string].
  - destruct (Ascii.eqb "/" ch); [|reflexivity]. cbn [andb] in *.
    destruct a as [|b a]; cbn [app]; [reflexivity|].
    rewrite andb_true_r in H1. now rewrite H1.
  - destruct (Ascii.eqb "/" ch); [|reflexivity]. cbn [andb] in *.
    destruct a as [|b a]; cbn [app]; [reflexivity|].
    rewrite andb_true_r in H1. now rewrite H1.
Qed.

(** X12.  The two styles do not overlap: the documentation block
    [/** \n * TAG text \n */] gets no range from the plain scan, and the
    plain block [/* \n TAG text \n */] none from the documentation scan,
    whenever [TAG text] does not itself hold [/*].  The scan of the other
    style returns the parser as it was. *)
Theorem other_style_skips_block (cfg : Config.Contributions) (p : Parser)
  (findJSDoc : bool) (TAG text : str) :
  reached cfg p ->
  occurs (chars "/*") (TAG ++ SPACE :: text) = false ->
  FindMultilineComments (mkEditor (blockText findJSDoc TAG text))
                        (negb findJSDoc) p
  = Done p.
Proof.
  intros Hr Hno. apply (no_opener_scan cfg); [now apply reached_shaped|].
  cbn [getText]. unfold blockText.
  replace (TAG ++ SPACE :: text ++ SPACE :: LF :: chars " */")
    with ((TAG ++ SPACE :: text) ++ SPACE :: LF :: chars " */")
    by (now rewrite <- app_assoc).
  destruct findJSDoc;
    cbn [negb openerText gap linePrefixText chars list_ascii_of_string app
         hasOpener opensAt startsWith Ascii.eqb Bool.eqb andb orb negb];
    rewrite (hasOpener_after _ _ _ Hno); reflexivity.
Qed.

Lemma other_style_skips_block_witness :
  FindMultilineComments
    (mkEditor (blockText true (chars "TODO") (chars "text"))) (negb true)
    (SetRegex "javascript" (newParser sampleTags))
  = Done (SetRegex "javascript" (newParser sampleTags)).
Proof.
  apply (other_style_skips_block sampleTags
           (SetRegex "javascript" (newParser sampleTags)) true
           (chars "TODO") (chars "text")).
  - exists [CallSetRegex "javascript"]. reflexivity.
  - reflexivity.
Defined.

(** ** What the scans keep *)

Section Kept.

Variable R : Parser -> Parser -> Prop.

Hypothesis R_refl : forall p, R p p.
Hypothesis R_trans : forall p q r, R p q -> R q r -> R p r.
Hypothesis R_addRange : forall s r p, R p (addRange s r p).

Lemma singleLineLoop_kept (activeEditor : TextEditor) (regEx : RegExp)
  (fuel lastIndex : nat) (p p' : Parser) :
  singleLineLoop fuel activeEditor regEx lastIndex p = Done p' -> R p p'.
Proof.
  revert lastIndex p. induction fuel as [|fuel IH]; intros lastIndex p H;
    [discriminate|].
  cbn [singleLineLoop] in H.
  destruct (exec regEx (getText activeEditor) lastIndex) as [[m|] last].
  - destruct (singleLineMatch activeEditor m p) as [p1| | |] eqn:E;
      try discriminate.
    destruct (last <=? lastIndex); [discriminate|].
    apply R_trans with (q := p1); [|now apply IH in H].
    unfold singleLineMatch in E.
    destruct (ignoreFirstLine p && atOrigin _).
    + injection E as <-. apply R_refl.
    + destruct (group 3 m).
      * injection E as <-. apply R_addRange.
      * destruct (tags p); [|discriminate]. injection E as <-.
        apply R_refl.
  - injection H as <-. apply R_refl.
Qed.

Lemma lineLoop_kept (activeEditor : TextEditor) (commentRegEx : RegExp)
  (blockIndex : nat) (commentBlock : str) (fuel lastIndex : nat)
  (p p' : Parser) :
  lineLoop fuel activeEditor commentRegEx blockIndex commentBlock lastIndex p
  = Done p' ->
  R p p'.
Proof.
  revert lastIndex p. induction fuel as [|fuel IH]; intros lastIndex p H;
    [discriminate|].
  cbn [lineLoop] in H.
  destruct (exec commentRegEx commentBlock lastIndex) as [[m|] last].
  - destruct (multilineMatch activeEditor blockIndex m p) as [p1| | |] eqn:E;
      try discriminate.
    destruct (last <=? lastIndex); [discriminate|].
    apply R_trans with (q := p1); [|now apply IH in H].
    unfold multilineMatch in E.
    destruct (group 2 m); [|discriminate].
    destruct (group 3 m).
    + injection E as <-. apply R_addRange.
    + destruct (tags p); [|discriminate]. injection E as <-.
      apply R_refl.
  - injection H as <-. apply R_refl.
Qed.

Lemma blockLoop_kept (activeEditor : TextEditor)
  (regEx commentRegEx : RegExp) (fuel lastIndex : nat) (p p' : Parser) :
  blockLoop fuel activeEditor regEx commentRegEx lastIndex p = Done p' ->
  R p p'.
Proof.
  revert lastIndex p. induction fuel as [|fuel IH]; intros lastIndex p H;
    [discriminate|].
  cbn [blockLoop] in H.
  destruct (exec regEx (getText activeEditor) lastIndex) as [[m|] last].
  - destruct (group 0 m) as [commentBlock|]; [|discriminate].
    destruct (lineLoop _ _ _ _ _ _ p) as [p1| | |] eqn:E; try discriminate.
    destruct (last <=? lastIndex); [discriminate|].
    apply R_trans with (q := p1); [|now apply IH in H].
    now apply lineLoop_kept in E.
  - injection H as <-. apply R_refl.
Qed.

Lemma FindSingleLineComments_kept (activeEditor : TextEditor)
  (p p' : Parser) :
  FindSingleLineComments activeEditor p = Done p' -> R p p'.
Proof.
  unfold FindSingleLineComments.
  destruct (newRegExp _ _); [|discriminate].
  apply singleLineLoop_kept.
Qed.

Lemma FindMultilineComments_kept (activeEditor : TextEditor)
  (findJSDoc : bool) (p p' : Parser) :
  FindMultilineComments activeEditor findJSDoc p = Done p' -> R p p'.
Proof.
  unfold FindMultilineComments.
  destruct (negb _).
  - intros H. injection H as <-. apply R_refl.
  - destruct (newRegExp _ _); [|discriminate].
    destruct (newRegExp _ _); [|discriminate].
    apply blockLoop_kept.
Qed.

End Kept.

Lemma extends_refl (t : CommentTag) : extends t t.
Proof. split; [reflexivity|]. exists []. now rewrite app_nil_r. Qed.

Lemma extends_trans (t u v : CommentTag) :
  extends t u -> extends u v -> extends t v.
Proof.
  intros [H1 [a Ha]] [H2 [b Hb]]. split; [congruence|].
  exists (a ++ b). now rewrite Hb, Ha, app_assoc.
Qed.

Lemma extends_all_refl (ts : list CommentTag) : Forall2 extends ts ts.
Proof. induction ts; constructor; [apply extends_refl|assumption]. Qed.

Lemma extends_all_trans (ts us vs : list CommentTag) :
  Forall2 extends ts us -> Forall2 extends us vs -> Forall2 extends ts vs.
Proof.
  intros H. revert vs. induction H as [|t u ts us Htu _ IH]; intros vs Hv;
    inversion Hv; subst; constructor.
  - eapply extends_trans; eassumption.
  - now apply IH.
Qed.

Lemma extends_pushRange (r : DecorationOptions) (k : nat)
  (ts : list CommentTag) :
  Forall2 extends ts (updateAt (pushRange r) k ts).
Proof.
  revert k. induction ts as [|t ts IH]; intros k;
    [destruct k; constructor|].
  destruct k as [|k]; cbn [updateAt]; constructor.
  - split; [reflexivity|]. now exists [r].
  - apply extends_all_refl.
  - apply extends_refl.
  - apply IH.
Qed.

Lemma extends_addRange (s : str) (r : DecorationOptions) (p : Parser) :
  Forall2 extends (tags p) (tags (addRange s r p)).
Proof.
  unfold addRange. destruct (findTag (tags p) s) as [k|].
  - apply extends_pushRange.
  - apply extends_all_refl.
Qed.

Lemma extends_perform (c : call) (p p' : Parser) :
  c <> CallApplyDecorations ->
  perform c p = Done p' ->
  Forall2 extends (tags p) (tags p').
Proof.
  intros Hc H. destruct c as [l|ed|ed b|]; cbn [perform] in H.
  - injection H as <-. destruct (SetRegex_fields l p) as (-> & _).
    apply extends_all_refl.
  - revert H.
    apply (FindSingleLineComments_kept
             (fun p p' => Forall2 extends (tags p) (tags p'))).
    + intros q. apply extends_all_refl.
    + intros q1 q2 q3. apply extends_all_trans.
    + apply extends_addRange.
  - revert H.
    apply (FindMultilineComments_kept
             (fun p p' => Forall2 extends (tags p) (tags p'))).
    + intros q. apply extends_all_refl.
    + intros q1 q2 q3. apply extends_all_trans.
    + apply extends_addRange.
  - now contradiction Hc.
Qed.

(** X13.  Until [ApplyDecorations] is called the ranges only accumulate:
    after any calls of [SetRegex] and of the two scans that returned, every
    tag is the tag it was, and its ranges are the ranges it had followed by
    the new ones.  No scan drops or reorders a range, and resolving another
    language does not clear the ranges found before. *)
Theorem ranges_accumulate (cs : list call) (p p' : Parser) :
  ~ In CallApplyDecorations cs ->
  performAll cs p = Done p' ->
  Forall2 extends (tags p) (tags p').
Proof.
  revert p. induction cs as [|c cs IH]; intros p Hno H;
    cbn [performAll] in H.
  - injection H as <-. apply extends_all_refl.
  - destruct (perform c p) as [q| | |] eqn:E; try discriminate.
    apply extends_all_trans with (us := tags q).
    + apply (extends_perform c); [|exact E].
      intros ->. apply Hno. now left.
    + apply IH; [|exact H]. intros Hin. apply Hno. now right.
Qed.

Lemma ranges_accumulate_witness :
  Forall2 extends
    (tags (SetRegex "javascript" (newParser sampleTags)))
    (tags (withTags
             [makeTag (plainTag "!");
              mkCommentTag (chars "TODO") (chars "TODO")
                (createTextEditorDecorationType (renderOptions (plainTag "TODO")))
                [lineRange 0 0 9; lineRange 0 0 8]]
             (SetRegex "ruby"
                (SetRegex "javascript" (newParser sampleTags))))).
Proof.
  apply (ranges_accumulate
           [CallFindSingleLineComments (mkEditor (chars "// TODO x"));
            CallSetRegex "ruby";
            CallFindSingleLineComments (mkEditor (chars "# TODO x"))]
           (SetRegex "javascript" (newParser sampleTags))).
  - intros [H|[H|[H|[]]]]; discriminate.
  - vm_compute. reflexivity.
Defined.

(** ** A comment further down the document *)

Lemma startsWith_app (D u v : str) :
  length D <= length u -> startsWith D (u ++ v) = startsWith D u.
Proof.
  revert u. induction D as [|d D IH]; intros [|c u] H; cbn in *;
    try reflexivity; try lia.
  rewrite IH by lia. reflexivity.
Qed.

Lemma length_removelast (A : Type) (l : list A) :
  l <> [] -> S (length (removelast l)) = length l.
Proof.
  intros H. destruct (exists_last H) as (l' & a & ->).
  rewrite removelast_last, length_app. cbn. lia.
Qed.

(** No match starts before the delimiter when the delimiter neither
    occurs in the text before it nor begins there. *)
Lemma search_before (D : str) (names : list str) (X : str) (before : str) :
  In D delimiters ->
  occurs D (before ++ removelast D) = false ->
  forall pos prev,
    search (mkRegExp (singleLinePattern D names) 4 flagsIG) pos prev
           (before ++ D ++ X)
    = search (mkRegExp (singleLinePattern D names) 4 flagsIG)
             (pos + length before) (prevAfter prev before) (D ++ X).
Proof.
  intros HD. destruct (delimiters_plain D HD) as (Hne & _).
  induction before as [|ch before IH]; intros H pos prev.
  - cbn [app length prevAfter]. now rewrite Nat.add_0_r.
  - cbn [app occurs] in H. apply orb_false_iff in H. destruct H as [H1 H2].
    cbn [app]. rewrite search_skip.
    + rewrite (IH H2). cbn [length]. rewrite Nat.add_succ_r. reflexivity.
    + apply singleLine_no_match. rewrite delimiter_prefix by exact HD.
      rewrite <- H1. clear IH H1 H2 HD.
      destruct (exists_last Hne) as (D' & d & ->).
      rewrite removelast_last, <- app_assoc.
      change (ch :: before ++ D' ++ [d] ++ X)
        with ((ch :: before) ++ D' ++ [d] ++ X).
      rewrite (app_assoc (ch :: before)).
      apply startsWith_app.
      rewrite !length_app. cbn [length]. rewrite length_app. lia.
Qed.

Lemma walk_ge (text : str) (ln col offset : nat) :
  ln < line (walk ln col text offset)
  \/ (line (walk ln col text offset) = ln
      /\ col <= character (walk ln col text offset)).
Proof.
  revert ln col offset.
  induction text as [|c text IH]; intros ln col [|o]; cbn [walk line character];
    try (right; split; [reflexivity|lia]).
  destruct (Ascii.eqb c LF).
  { destruct (IH (S ln) 0 o) as [H|[H _]]; left; lia. }
  destruct (Ascii.eqb c CR).
  - destruct text as [|c' text'].
    + destruct (IH (S ln) 0 o) as [H|[H _]]; left; lia.
    + destruct (Ascii.eqb c' LF).
      * apply IH.
      * destruct (IH (S ln) 0 o) as [H|[H _]]; left; lia.
  - destruct (IH ln (S col) o) as [H|[H1 H2]]; [now left|right].
    split; [exact H1|lia].
Qed.

(** An offset after some text, and not between CR and LF, is not the
    origin. *)
Lemma walk_moves (before : str) (d : ascii) (rest : str) :
  before <> [] ->
  Ascii.eqb d LF = false ->
  forall ln col,
    ln < line (walk ln col (before ++ d :: rest) (length before))
    \/ (line (walk ln col (before ++ d :: rest) (length before)) = ln
        /\ col < character (walk ln col (before ++ d :: rest) (length before))).
Proof.
  intros Hne Hd. induction before as [|c before IH]; [contradiction|].
  intros ln col. cbn [app length walk].
  destruct (Ascii.eqb c LF).
  { destruct (walk_ge (before ++ d :: rest) (S ln) 0 (length before))
      as [H|[H _]]; left; lia. }
  destruct (Ascii.eqb c CR).
  - destruct before as [|c' before'].
    + cbn [app]. rewrite Hd.
      destruct (walk_ge (d :: rest) (S ln) 0 (length (@nil ascii)))
        as [H|[H _]]; left; lia.
    + cbn [app]. destruct (Ascii.eqb c' LF).
      * apply IH. discriminate.
      * destruct (walk_ge (c' :: before' ++ d :: rest) (S ln) 0
                          (length (c' :: before')))
          as [H|[H _]]; left; lia.
  - destruct (walk_ge (before ++ d :: rest) ln (S col) (length before))
      as [H|[H1 H2]]; [now left|right].
    split; [exact H1|lia].
Qed.

Lemma not_origin (D before X : str) :
  In D delimiters ->
  before <> [] ->
  atOrigin (positionAt (mkEditor (before ++ D ++ X)) (length before)) = false.
Proof.
  intros HD Hne. unfold positionAt, atOrigin. cbn [getText].
  assert (H : exists d D', D = d :: D' /\ Ascii.eqb d LF = false).
  { destruct HD as [<-|[<-|[<-|[<-|[<-|[<-|[]]]]]]];
      eexists; eexists; (split; [reflexivity|reflexivity]). }
  destruct H as (d & D' & -> & Hd). cbn [app].
  destruct (walk_moves before d (D' ++ X) Hne Hd 0 0) as [H|[_ H]].
  - destruct (line _); [lia|reflexivity].
  - destruct (character _); [lia|]. cbn. now rewrite andb_false_r.
Qed.

Lemma blank_cases (ch : ascii) : isBlank ch = true -> ch = SPACE \/ ch = TAB.
Proof.
  unfold isBlank. intros H. apply orb_true_iff in H.
  destruct H as [H|H]; apply Ascii.eqb_eq in H; auto.
Qed.

Lemma lastOf_cons_some (c : ascii) (s : str) (g : option str) :
  match lastOf (c :: s) with Some ch => Some [ch] | None => g end
  = match lastOf s with Some ch => Some [ch] | None => Some [c] end.
Proof.
  destruct s as [|c' s']; [reflexivity|].
  destruct (@exists_last _ (c' :: s')) as (s0 & a & E); [discriminate|].
  rewrite E, app_comm_cons, !lastOf_app. reflexivity.
Qed.

(** The blanks after the delimiter: the second group keeps the last one. *)
Lemma blank_group_run (bl W : str) (first : option str) :
  forallb isBlank bl = true ->
  startsWithBlank W = false ->
  forall fuel pos prev g c z,
    length bl < fuel ->
    c (mkState (pos + length bl) (prevAfter prev bl) W
               [first;
                match lastOf bl with Some ch => Some [ch] | None => g end;
                None; None]) = Some z ->
    repeatMatcher
      (matcher flagsIG (RGroup 2 (RAlt (lits [SPACE]) (lits [TAB])))) [2]
      fuel 0 None true c
      (mkState pos prev (bl ++ W) [first; g; None; None])
    = Some z.
Proof.
  intros Hbl HW. induction bl as [|ch bl IH]; intros fuel pos prev g c z Hf Hc.
  - cbn [app length prevAfter fold_left lastOf rev] in *.
    rewrite Nat.add_0_r in Hc.
    rewrite repeat_none; [exact Hc|lia|].
    intros k _. rewrite matcher_group, matcher_alt.
    assert (Hb : prefixMatches flagsIG [SPACE] W = false
                 /\ prefixMatches flagsIG [TAB] W = false).
    { destruct W as [|w W']; [auto|].
      destruct (canonicalize_blank w HW) as [H1 H2].
      cbn [prefixMatches]. rewrite H1, H2. auto. }
    rewrite !matcher_lits_fails; [reflexivity|apply Hb|apply Hb].
  - cbn [forallb] in Hbl. apply andb_true_iff in Hbl.
    destruct Hbl as [Hch Hbl]. specialize (IH Hbl).
    destruct fuel as [|fuel]; [lia|].
    cbn [repeatMatcher isZero Nat.eqb negb andb].
    set (y := mkState (S pos) (Some ch) (bl ++ W)
                      [first; Some [ch]; None; None]).
    assert (Hy : repeatMatcher
                   (matcher flagsIG (RGroup 2 (RAlt (lits [SPACE]) (lits [TAB]))))
                   [2] fuel 0 None true c y = Some z).
    { apply IH; [cbn [length] in Hf; lia|].
      rewrite <- Hc. rewrite lastOf_cons_some.
      cbn [length prevAfter fold_left].
      replace (S pos + length bl) with (pos + S (length bl)) by lia.
      reflexivity. }
    assert (Hbody : forall k, k y = Some z ->
              matcher flagsIG (RGroup 2 (RAlt (lits [SPACE]) (lits [TAB]))) k
                (clearCaptures [2]
                   (mkState pos prev ((ch :: bl) ++ W)
                            [first; g; None; None]))
              = Some z).
    { intros k Hk. rewrite matcher_group, matcher_alt, !matcher_lits.
      cbn [clearCaptures fold_left app]. unfold setCapture at 3 6.
      cbn [endIndex prevChar remaining captures].
      change (setNth (2 - 1) None [first; g; None; None])
        with [first; None; None; None].
      destruct (blank_cases ch Hch) as [->| ->].
      - change (prefixMatches flagsIG [SPACE] (SPACE :: bl ++ W)) with true.
        cbv iota. cbn [advance length remaining endIndex captures].
        unfold setCapture. cbn [endIndex prevChar remaining captures].
        change (setNth (2 - 1) (Some ?v) [first; None; None; None])
          with [first; Some v; None; None].
        replace (S pos - pos) with 1 by lia. cbn [firstn setNth Nat.sub].
        fold y. now rewrite Hk.
      - change (prefixMatches flagsIG [SPACE] (TAB :: bl ++ W)) with false.
        change (prefixMatches flagsIG [TAB] (TAB :: bl ++ W)) with true.
        cbv iota. cbn [advance length remaining endIndex captures].
        unfold setCapture. cbn [endIndex prevChar remaining captures].
        change (setNth (2 - 1) (Some ?v) [first; None; None; None])
          with [first; Some v; None; None].
        replace (S pos - pos) with 1 by lia. cbn [firstn setNth Nat.sub].
        fold y. now rewrite Hk. }
    rewrite Hbody; [reflexivity|].
    cbn [endIndex y]. replace (S pos =? pos) with false; [exact Hy|].
    symmetry. apply Nat.eqb_neq. lia.
Qed.

Section SingleLineBlanks.

Variables (D : str) (names pre post : list str) (t bl TAG rest tail : str).
Variables (pos : nat) (prev : option ascii).

Let W := TAG ++ rest ++ tail.

Hypothesis D_not_repeated : prefixMatches flagsIG D (bl ++ W) = false.
Hypothesis bl_blank : forallb isBlank bl = true.
Hypothesis names_split : names = pre ++ t :: post.
Hypothesis earlier_fail :
  Forall (fun n => prefixMatches flagsIG n W = false) pre.
Hypothesis t_matches : sameText flagsIG t TAG = true.
Hypothesis no_repeat :
  Forall (fun n => n <> [] -> prefixMatches flagsIG n (rest ++ tail) = false)
         names.
Hypothesis no_blank : startsWithBlank W = false.
Hypothesis rest_line : forallb notTerminator rest = true.
Hypothesis tail_line : endsLine tail.

(** [singleLine_matchAt] with any run of blanks, or none, between the
    delimiter and the tag. *)
Lemma singleLine_matchAt_blanks :
  matchAt (mkRegExp (singleLinePattern D names) 4 flagsIG) pos prev
          (D ++ bl ++ W)
  = Some (mkMatch pos
            [Some (D ++ bl ++ TAG ++ rest); Some D;
             match lastOf bl with Some ch => Some [ch] | None => None end;
             Some TAG; Some rest]).
Proof.
  unfold matchAt.
  cbn [pattern reFlags nGroups repeat].
  set (g2 := match lastOf bl with Some ch => Some [ch] | None => None end).
  set (x0 := mkState pos prev (D ++ bl ++ W) [None; None; None; None]).
  set (y1 := mkState (pos + length D) (prevAfter prev D) (bl ++ W)
                     [Some D; None; None; None]).
  set (y2 := mkState (pos + length D + length bl)
                     (prevAfter (prevAfter prev D) bl) W
                     [Some D; g2; None; None]).
  set (y3 := mkState (pos + length D + length bl + length TAG)
                     (prevAfter (prevAfter (prevAfter prev D) bl) TAG)
                     (rest ++ tail)
                     [Some D; g2; Some TAG; None]).
  set (yf := mkState (pos + length D + length bl + length TAG + length rest)
                     (prevAfter
                        (prevAfter (prevAfter (prevAfter prev D) bl) TAG) rest)
                     tail
                     [Some D; g2; Some TAG; Some rest]).
  assert (Hm : matcher flagsIG (singleLinePattern D names) Some x0 = Some yf).
  { unfold singleLinePattern, plus, star.
    cbn [matcher groupsOf]. rewrite groupsOf_lits.
    apply repeat_once with (y := y1).
    - lia.
    - lia.
    - discriminate.
    - intros k Hk.
      rewrite matcher_lits_at with (u := D) (v := bl ++ W);
        [|reflexivity|apply sameText_refl].
      norm_state. exact Hk.
    - intros k _. apply matcher_lits_fails. exact D_not_repeated.
    - unfold y1. cbn [remaining app].
      apply blank_group_run;
        [exact bl_blank|exact no_blank|rewrite length_app; cbn; lia|].
      fold g2. fold y2.
      rewrite groupsOf_altsOf. apply repeat_once with (y := y3).
      + lia.
      + lia.
      + discriminate.
      + intros k Hk. rewrite names_split.
        apply matcher_alts_first.
        * exact earlier_fail.
        * apply (sameText_prefix flagsIG t TAG (rest ++ tail) t_matches).
        * destruct (sameText_prefix flagsIG t TAG (rest ++ tail) t_matches)
            as [_ ->].
          rewrite (advance_app TAG (rest ++ tail)); [|reflexivity].
          norm_state. unfold W. rewrite firstn_exact. exact Hk.
      + intros k Hk.
        apply matcher_alts_none.
        * eapply Forall_impl; [|exact no_repeat].
          intros n Hn Hp. destruct n as [|a n].
          -- apply Hk. reflexivity.
          -- change (prefixMatches flagsIG (a :: n) (rest ++ tail) = true)
               in Hp.
             rewrite Hn in Hp; discriminate.
        * apply Hk. reflexivity.
      + apply repeat_run with (run := rest) (tail := tail).
        * reflexivity.
        * exact rest_line.
        * destruct tail as [|ch tl]; [exact I|].
          cbn in tail_line. unfold notTerminator.
          now rewrite tail_line.
        * cbn [remaining y3]. rewrite length_app. lia.
        * rewrite (advance_app rest tail); [|reflexivity].
          norm_state. cbn [matcher]. reflexivity. }
  rewrite Hm. cbn [endIndex captures yf].
  do 3 f_equal.
  replace (D ++ bl ++ W) with ((D ++ bl ++ TAG ++ rest) ++ tail).
  2:{ unfold W. now rewrite <- !app_assoc. }
  replace (pos + length D + length bl + length TAG + length rest - pos)
    with (length (D ++ bl ++ TAG ++ rest) + 0).
  2:{ rewrite !length_app. lia. }
  rewrite firstn_app_2. cbn [firstn]. now rewrite app_nil_r.
Qed.

End SingleLineBlanks.

Lemma shaped_tag_at (cfg : Config.Contributions) (p : Parser) (j : nat) :
  shaped cfg p ->
  option_map tag (nth_error (tags p) j)
  = option_map Config.tag (nth_error (Config.tags cfg) j).
Proof.
  intros Hs. destruct (shaped_names cfg p Hs) as [Hn _].
  now rewrite <- !nth_error_map, Hn.
Qed.

(** The scan of a document with one tagged comment, for any parser that
    has the shape the calls keep and the delimiter of a table language. *)
Lemma comment_scan (cfg : Config.Contributions) (p : Parser) (k : nat)
  (item : Config.TagItem) (before blanks TAG rest tail : str) :
  let text := before ++ delimiter p ++ blanks ++ TAG ++ rest ++ tail in
  let activeEditor := mkEditor text in
  let m := mkMatch (length before)
             [Some (delimiter p ++ blanks ++ TAG ++ rest);
              Some (delimiter p);
              match lastOf blanks with Some ch => Some [ch] | None => None end;
              Some TAG; Some rest] in
  shaped cfg p ->
  In (delimiter p) delimiters ->
  ignoreFirstLine p = false \/ before <> [] ->
  occurs (delimiter p) (before ++ removelast (delimiter p)) = false ->
  startsWith (delimiter p) (blanks ++ TAG ++ rest ++ tail) = false ->
  occurs (delimiter p) tail = false ->
  forallb isBlank blanks = true ->
  nth_error (Config.tags cfg) k = Some item ->
  toLowerCase TAG = toLowerCase (Config.tag item) ->
  (forall j other, j < k -> nth_error (Config.tags cfg) j = Some other ->
                   ciPrefix (Config.tag other) (TAG ++ rest ++ tail) = false) ->
  (forall other, In other (Config.tags cfg) -> Config.tag other <> [] ->
                 ciPrefix (Config.tag other) (rest ++ tail) = false) ->
  startsWithBlank (TAG ++ rest ++ tail) = false ->
  forallb notTerminator rest = true ->
  endsLine tail ->
  exists regEx,
    newRegExp (expression p) flagsIG = Some regEx
    /\ exec regEx text 0 = (Some m, index m + matchLength m)
    /\ exec regEx text (index m + matchLength m) = (None, 0)
    /\ FindSingleLineComments activeEditor p
       = Done (withTags (updateAt (pushRange (wholeMatch activeEditor m)) k
                                  (tags p)) p).
Proof.
  intros text activeEditor m Hs HD Hfirst Hbefore Hafter Htail Hbl Hk Hcase
         Hearlier Hrepeat Hblank Hline Hends.
  set (D := delimiter p) in *.
  set (names := map Config.tag (Config.tags cfg)).
  destruct (delimiters_plain D HD) as (Hne & Hesc & Hhead).
  assert (HlD : 1 <= length D).
  { destruct D; [contradiction|cbn; lia]. }
  assert (Hexpr : expression p = singleLineSource D names).
  { destruct Hs as (_ & _ & _ & He). now apply He. }
  set (regEx := mkRegExp (singleLinePattern D names) 4 flagsIG).
  assert (Hre : newRegExp (expression p) flagsIG = Some regEx).
  { unfold newRegExp. rewrite Hexpr, (singleLine_parses D names Hesc).
    reflexivity. }
  assert (Hm : forall pos prev,
             matchAt regEx pos prev (D ++ blanks ++ TAG ++ rest ++ tail)
             = Some (mkMatch pos
                       [Some (D ++ blanks ++ TAG ++ rest); Some D;
                        match lastOf blanks with
                        | Some ch => Some [ch]
                        | None => None
                        end;
                        Some TAG; Some rest])).
  { intros pos prev.
    destruct (nth_error_split_pre _ _ _ _ Hk) as [Hsplit Hlen].
    assert (Hnames : names
              = map Config.tag (firstn k (Config.tags cfg))
                ++ Config.tag item
                :: map Config.tag (skipn (S k) (Config.tags cfg))).
    { unfold names. rewrite Hsplit at 1. rewrite map_app. reflexivity. }
    apply (singleLine_matchAt_blanks D names
             (map Config.tag (firstn k (Config.tags cfg)))
             (map Config.tag (skipn (S k) (Config.tags cfg)))
             (Config.tag item) blanks TAG rest tail pos prev).
    - now rewrite delimiter_prefix.
    - exact Hbl.
    - exact Hnames.
    - apply Forall_forall. intros n Hn. apply in_map_iff in Hn.
      destruct Hn as (other & <- & Hin).
      apply In_nth_error in Hin. destruct Hin as (j & Hj).
      rewrite prefixMatches_ciPrefix.
      assert (Hlt : j < k).
      { rewrite <- Hlen. apply nth_error_Some. congruence. }
      apply (Hearlier j other Hlt).
      rewrite nth_error_firstn in Hj.
      destruct (j <? k) eqn:E; [exact Hj|discriminate].
    - rewrite sameText_lower. apply str_eqb_eq. now symmetry.
    - apply Forall_forall. intros n Hn Hnn. apply in_map_iff in Hn.
      destruct Hn as (other & <- & Hin).
      rewrite prefixMatches_ciPrefix. now apply Hrepeat.
    - exact Hblank.
    - exact Hline.
    - exact Hends. }
  assert (Hlast : index m + matchLength m
                  = length (before ++ D ++ blanks ++ TAG ++ rest)).
  { unfold m. cbn [index matchLength groups]. symmetry. apply length_app. }
  assert (E0 : exec regEx text 0 = (Some m, index m + matchLength m)).
  { rewrite exec_at_start. unfold text.
    rewrite (search_before D names _ before HD Hbefore).
    rewrite (search_here _ _ _ _ _ (Hm _ _)). reflexivity. }
  assert (E1 : exec regEx text (index m + matchLength m) = (None, 0)).
  { rewrite Hlast.
    replace text with ((before ++ D ++ blanks ++ TAG ++ rest) ++ tail).
    2:{ unfold text. now rewrite <- !app_assoc. }
    rewrite exec_at_split.
    now rewrite (search_no_delimiter D names tail HD Htail). }
  assert (Hbody : singleLineMatch activeEditor m p
                  = Done (withTags (updateAt (pushRange (wholeMatch activeEditor m))
                                             k (tags p)) p)).
  { unfold singleLineMatch.
    replace (ignoreFirstLine p && atOrigin (positionAt activeEditor (index m)))
      with false.
    2:{ symmetry. destruct Hfirst as [Hf|Hb].
        - now rewrite Hf.
        - cbn [index m]. unfold activeEditor, text.
          rewrite (not_origin D before _ HD Hb). apply andb_false_r. }
    cbn [group nth groups m]. unfold addRange.
    pose proof (shaped_tag_at cfg p k Hs) as Hat. rewrite Hk in Hat.
    destruct (nth_error (tags p) k) as [t|] eqn:Et; [|discriminate].
    cbn [option_map] in Hat. injection Hat as Hat.
    rewrite (findTag_first (tags p) TAG k t).
    - reflexivity.
    - exact Et.
    - rewrite Hat. now symmetry.
    - intros j t' Hj Hn Heq.
      pose proof (shaped_tag_at cfg p j Hs) as Hj'. rewrite Hn in Hj'.
      destruct (nth_error (Config.tags cfg) j) as [other|] eqn:Ej;
        [|discriminate].
      cbn [option_map] in Hj'. injection Hj' as Hj'.
      pose proof (Hearlier j other Hj Ej) as Hno.
      rewrite <- Hj' in Hno.
      rewrite (ciPrefix_of_equal _ _ (rest ++ tail) Heq) in Hno.
      discriminate. }
  exists regEx. split; [exact Hre|]. split; [exact E0|]. split; [exact E1|].
  unfold FindSingleLineComments. rewrite Hre.
  apply singleLineLoop_one_match
    with (m := m) (last := index m + matchLength m); try assumption.
  - cbn [getText activeEditor]. unfold text. rewrite !length_app. lia.
  - rewrite Hlast, !length_app. lia.
Qed.



(** The line of the witness, and the same line in a document of its own
    after javascript and then ruby were resolved, run through the scan. *)
Example tagged_line_runs :
  map (fun '(langs, text) =>
         option_map collected
           (match FindSingleLineComments (mkEditor text)
                    (resolveAll langs (newParser sampleTags))
            with Done p' => Some p' | _ => None end))
      [(["python"; "javascript"; "python"]%string,
        chars "x = 1  # todo: fix" ++ LF :: chars "y = 2");
       (["javascript"; "ruby"]%string, chars "# todo: fix")]
  = [Some [(chars "!", []); (chars "TODO", [lineRange 0 7 18])];
     Some [(chars "!", []); (chars "TODO", [lineRange 0 0 11])]].
Proof. vm_compute. reflexivity. Qed.



(** The document of the witness, and the same line with a space and a tab
    before the tag, run through the scan: one range each, from the
    delimiter to the end of the line. *)
Example comment_anywhere_runs :
  map (fun text =>
         option_map collected
           (match FindSingleLineComments (mkEditor text)
                    (SetRegex "python" (newParser sampleTags))
            with Done p' => Some p' | _ => None end))
      [chars "x = 1  #todo: fix" ++ LF :: chars "y = 2";
       chars "x = 1  # " ++ TAB :: chars "todo: fix" ++ LF :: chars "y = 2"]
  = [Some [(chars "!", []); (chars "TODO", [lineRange 0 7 17])];
     Some [(chars "!", []); (chars "TODO", [lineRange 0 7 19])]].
Proof. vm_compute. reflexivity. Qed.

(** ** A block further down the document *)

(** [block_matchAt] at any start of a line, with text after the block. *)
Lemma block_matchAt_at (findJSDoc : bool) (ch : ascii) (run tl : str)
  (pos : nat) (prev : option ascii) :
  match prev with
  | None => True
  | Some c => isLineTerminator c = true
  end ->
  Ascii.eqb "/" ch = false ->
  hasClose (ch :: run) = false ->
  matchAt (mkRegExp (blockPattern findJSDoc) 4 flagsGM) pos prev
          ((openerText findJSDoc ++ ch :: run ++ chars "*/") ++ tl)
  = Some (mkMatch pos
            [Some (openerText findJSDoc ++ ch :: run ++ chars "*/");
             Some []; Some (openerText findJSDoc); Some (ch :: run);
             Some (chars "*/")]).
Proof.
  intros Hprev Hch Hclose. unfold matchAt.
  cbn [pattern reFlags nGroups repeat].
  set (block := openerText findJSDoc ++ ch :: run ++ chars "*/").
  set (text := block ++ tl).
  set (prevO := Some (if findJSDoc then "*"%char else SPACE)).
  set (x0 := mkState pos prev text [None; None; None; None]).
  set (y1 := mkState pos prev text [Some []; None; None; None]).
  set (y2 := mkState (pos + 3) prevO (ch :: run ++ chars "*/" ++ tl)
                     [Some []; Some (openerText findJSDoc); None; None]).
  set (yf := mkState (pos + 3 + length (ch :: run) + 2) (Some "/"%char) tl
                     [Some []; Some (openerText findJSDoc); Some (ch :: run);
                      Some (chars "*/")]).
  assert (Hopen : length (openerText findJSDoc) = 3)
    by (destruct findJSDoc; reflexivity).
  assert (Hg : groupsOf (blockOpener findJSDoc) = [])
    by (destruct findJSDoc; reflexivity).
  assert (Htext : text = openerText findJSDoc
                         ++ ch :: run ++ chars "*/" ++ tl).
  { unfold text, block.
    repeat (rewrite <- ?app_assoc, <- ?app_comm_cons; cbn [app]).
    reflexivity. }
  assert (Hm : matcher flagsGM (blockPattern findJSDoc) Some x0 = Some yf).
  { unfold blockPattern, plus.
    rewrite matcher_seq, matcher_group, matcher_alt, matcher_seq,
      matcher_bol, matcher_empty.
    2:{ cbn [prevChar x0]. destruct prev as [c|]; [|exact I].
        now rewrite Hprev. }
    norm_state. rewrite Nat.sub_diag. cbn [firstn].
    match goal with
    | |- context [matcher _ _ Some (setCapture 1 (Some []) ?s)] =>
      change (setCapture 1 (Some []) s) with y1
    end.
    assert (Hrest : matcher flagsGM
              (RSeq (RRepeat 1 None true (RGroup 2 (blockOpener findJSDoc)))
                 (RSeq (RGroup 3
                          (RSeq (RRepeat 0 None false
                                   (RSet false [CISpace false; CISpace true]))
                                REmpty))
                    (RSeq (RGroup 4 (lits (chars "*/"))) REmpty)))
              Some y1 = Some yf); [|now rewrite Hrest].
    rewrite matcher_seq, matcher_repeat. cbn [groupsOf]. rewrite Hg.
    apply repeat_once with (y := y2).
    - lia.
    - lia.
    - discriminate.
    - intros k Hk. rewrite matcher_group.
      rewrite (opener_matches findJSDoc _ _ (ch :: run ++ chars "*/" ++ tl));
        [|exact Htext].
      norm_caps.
      replace (firstn (pos + 3 - pos) text) with (openerText findJSDoc).
      2:{ rewrite Htext, <- Hopen. now rewrite firstn_exact. }
      exact Hk.
    - intros k _. rewrite matcher_group.
      apply (opener_fails findJSDoc _ _ ch (run ++ chars "*/" ++ tl));
        [reflexivity|exact Hch].
    - rewrite matcher_seq, matcher_group, matcher_seq, matcher_repeat.
      cbn [groupsOf].
      rewrite (matcher_char_fun flagsGM
                 (RSet false [CISpace false; CISpace true]) _ eq_refl).
      apply repeat_lazy_run
        with (run := ch :: run) (tail := chars "*/" ++ tl).
      + reflexivity.
      + apply forallb_forall. intros a _.
        unfold setMatches. cbn [existsb itemMatches xorb].
        destruct (isWhiteSpace a); reflexivity.
      + intros a b Hab Hb.
        assert (Hrem : remaining y2 = a ++ (b ++ chars "*/" ++ tl)).
        { cbn [remaining y2].
          change (ch :: run ++ chars "*/" ++ tl)
            with ((ch :: run) ++ chars "*/" ++ tl).
          now rewrite Hab, <- app_assoc. }
        rewrite (advance_app a _ y2 Hrem).
        rewrite matcher_empty, matcher_seq, matcher_group.
        apply matcher_lits_fails.
        cbn [setCapture remaining].
        apply (no_close_before a b tl); [now rewrite <- Hab|exact Hb].
      + rewrite (advance_app (ch :: run) (chars "*/" ++ tl) y2 eq_refl).
        rewrite matcher_empty, matcher_seq, matcher_group.
        rewrite matcher_lits_at with (u := chars "*/") (v := tl);
          [|reflexivity|reflexivity].
        rewrite matcher_empty.
        norm_state.
        change (ch :: run ++ chars "*/" ++ tl)
          with ((ch :: run) ++ chars "*/" ++ tl).
        rewrite firstn_exact.
        cbn [length chars list_ascii_of_string prevAfter fold_left].
        reflexivity.
      + cbn [remaining y2 length]. rewrite !length_app. cbn. lia. }
  rewrite Hm. cbn [endIndex captures yf]. do 3 f_equal.
  unfold text.
  replace (pos + 3 + length (ch :: run) + 2 - pos)
    with (length block + 0).
  - rewrite firstn_app_2. cbn [firstn]. now rewrite app_nil_r.
  - unfold block. rewrite length_app, Hopen. cbn [length].
    rewrite length_app. cbn. lia.
Qed.

Lemma terminator_not_opener (c : ascii) :
  isLineTerminator c = true ->
  Ascii.eqb "/" c = false /\ Ascii.eqb "*" c = false
  /\ setMatches flagsGM false [CIChar SPACE; CIChar TAB] c = false.
Proof.
  unfold isLineTerminator. intros H. apply orb_true_iff in H.
  destruct H as [H|H]; apply Ascii.eqb_eq in H; subst c; repeat split.
Qed.

Lemma lastOf_cons (c : ascii) (s : str) :
  s <> [] -> lastOf (c :: s) = lastOf s.
Proof.
  intros H. destruct (exists_last H) as (s' & a & ->).
  now rewrite app_comm_cons, !lastOf_app.
Qed.

Lemma atLineStart_tail (c : ascii) (s : str) :
  s <> [] -> atLineStart (c :: s) -> atLineStart s.
Proof. intros H. unfold atLineStart. now rewrite (lastOf_cons c s H). Qed.

(** An opener does not begin in a line that ends before it is complete. *)
Lemma opensAt_app (findJSDoc : bool) (s X : str) :
  s <> [] ->
  atLineStart s ->
  opensAt findJSDoc s = false ->
  opensAt findJSDoc (s ++ X) = false.
Proof.
  intros Hne Hs H.
  destruct s as [|c1 [|c2 [|c3 s3]]]; [contradiction| | |].
  - destruct (terminator_not_opener c1 Hs) as (H1 & _).
    destruct findJSDoc; cbn [opensAt startsWith chars list_ascii_of_string app];
      now rewrite H1.
  - destruct (terminator_not_opener c2 Hs) as (_ & H2 & _).
    destruct findJSDoc; cbn [opensAt startsWith chars list_ascii_of_string app];
      rewrite H2; cbn [andb]; now rewrite andb_false_r.
  - destruct findJSDoc;
      cbn [opensAt startsWith chars list_ascii_of_string app] in *; exact H.
Qed.

Lemma hasOpener_head (findJSDoc : bool) (s : str) :
  hasOpener findJSDoc s = false -> opensAt findJSDoc s = false.
Proof. destruct s; cbn [hasOpener]; intros H; now apply orb_false_iff in H. Qed.

Lemma hasOpener_tail (findJSDoc : bool) (c : ascii) (s : str) :
  hasOpener findJSDoc (c :: s) = false -> hasOpener findJSDoc s = false.
Proof. cbn [hasOpener]. intros H. now apply orb_false_iff in H. Qed.

Section Before.

Variables (findJSDoc : bool) (X : str).

(** The text is the end of some lines without an opener, and [X]. *)
Let inLines (rest : str) : Prop :=
  exists s, s <> [] /\ atLineStart s /\ hasOpener findJSDoc s = false
            /\ rest = s ++ X.

Lemma blocks_before :
  blocks flagsGM (blockPattern findJSDoc) inLines nowhere.
Proof.
  unfold blockPattern.
  apply blocks_seq with (R := inLines).
  - apply blocks_group, blocks_alt.
    + apply blocks_seq with (R := inLines);
        [apply blocks_bol|apply blocks_empty].
    + apply blocks_seq with (R := inLines); [|apply blocks_empty].
      apply blocks_char
        with (test := setMatches flagsGM false [CIChar SPACE; CIChar TAB]);
        [reflexivity|].
      intros ch rest (s & Hne & Hs & Ho & Hrest) Hch.
      destruct s as [|c s]; [contradiction|].
      cbn [app] in Hrest. injection Hrest as -> ->.
      destruct s as [|c' s'].
      * destruct (terminator_not_opener c Hs) as (_ & _ & H).
        congruence.
      * exists (c' :: s'). split; [discriminate|].
        split; [now apply (atLineStart_tail c)|].
        split; [now apply (hasOpener_tail findJSDoc c)|reflexivity].
  - apply blocks_seq with (R := nowhere); [|apply blocks_nowhere].
    apply blocks_plus_nowhere, blocks_group.
    apply blocks_weaken with (P := fun s => opensAt findJSDoc s = false)
                             (Q := nowhere); [|tauto|apply blocks_opener].
    intros rest (s & Hne & Hs & Ho & ->).
    apply opensAt_app; [exact Hne|exact Hs|now apply hasOpener_head].
Qed.

Lemma search_before_block (before : str) :
  before <> [] ->
  atLineStart before ->
  hasOpener findJSDoc before = false ->
  forall pos prev,
    search (mkRegExp (blockPattern findJSDoc) 4 flagsGM) pos prev
           (before ++ X)
    = search (mkRegExp (blockPattern findJSDoc) 4 flagsGM)
             (pos + length before) (lastOf before) X.
Proof.
  induction before as [|c before IH]; [contradiction|].
  intros _ Hs Ho pos prev. cbn [app]. rewrite search_skip.
  2:{ apply blocked_matchAt with (P := inLines); [apply blocks_before|].
      exists (c :: before). repeat split; (assumption || discriminate). }
  destruct before as [|c' before'].
  - cbn [app length]. now rewrite Nat.add_1_r.
  - rewrite IH.
    + rewrite (lastOf_cons c (c' :: before')) by discriminate.
      replace (S pos + length (c' :: before'))
        with (pos + length (c :: c' :: before')) by (cbn [length]; lia).
      reflexivity.
    + discriminate.
    + now apply (atLineStart_tail c).
    + now apply (hasOpener_tail findJSDoc c).
Qed.

End Before.

(** The block as the block pattern reads it: the opener, a text that
    starts with a blank and holds no [*/], and [*/]. *)
Lemma blockText_shape (findJSDoc : bool) (TAG text : str) :
  hasClose (TAG ++ SPACE :: text) = false ->
  exists ch run,
    blockText findJSDoc TAG text
    = openerText findJSDoc ++ ch :: run ++ chars "*/"
    /\ Ascii.eqb "/" ch = false
    /\ hasClose (ch :: run) = false
    /\ ch :: run = gap findJSDoc ++ linePrefixText findJSDoc ++ TAG
                   ++ SPACE :: text ++ [SPACE; LF; SPACE].
Proof.
  intros Hclose.
  assert (Hc : hasClose (TAG ++ SPACE :: text ++ [SPACE; LF; SPACE])
               = false).
  { replace (TAG ++ SPACE :: text ++ [SPACE; LF; SPACE])
      with ((TAG ++ SPACE :: text) ++ SPACE :: [LF; SPACE])
      by (now rewrite <- app_assoc).
    now rewrite hasClose_app_blank, Hclose. }
  unfold blockText. destruct findJSDoc.
  - exists SPACE, (LF :: linePrefixText true ++ TAG
                      ++ SPACE :: text ++ [SPACE; LF; SPACE]).
    split; [|split; [reflexivity|split; [|reflexivity]]].
    + cbn [gap app linePrefixText chars list_ascii_of_string].
      repeat (rewrite <- ?app_assoc, <- ?app_comm_cons; cbn [app]).
      reflexivity.
    + cbn [hasClose linePrefixText chars list_ascii_of_string app].
      exact Hc.
  - exists LF, (linePrefixText false ++ TAG
                   ++ SPACE :: text ++ [SPACE; LF; SPACE]).
    split; [|split; [reflexivity|split; [|reflexivity]]].
    + cbn [gap app linePrefixText chars list_ascii_of_string].
      repeat (rewrite <- ?app_assoc, <- ?app_comm_cons; cbn [app]).
      reflexivity.
    + cbn [hasClose linePrefixText chars list_ascii_of_string app].
      exact Hc.
Qed.

Lemma block_exec_at (findJSDoc : bool) (before TAG text after : str) :
  atLineStart before ->
  hasOpener findJSDoc before = false ->
  hasClose (TAG ++ SPACE :: text) = false ->
  exec (mkRegExp (blockPattern findJSDoc) 4 flagsGM)
       (before ++ blockText findJSDoc TAG text ++ after) 0
  = (Some (mkMatch (length before)
             [Some (blockText findJSDoc TAG text); Some [];
              Some (openerText findJSDoc);
              Some (gap findJSDoc ++ linePrefixText findJSDoc ++ TAG
                    ++ SPACE :: text ++ [SPACE; LF; SPACE]);
              Some (chars "*/")]),
     length before + length (blockText findJSDoc TAG text)).
Proof.
  intros Hs Ho Hclose.
  destruct (blockText_shape findJSDoc TAG text Hclose)
    as (ch & run & Hb & Hch & Hcl & Hrun).
  rewrite exec_at_start.
  assert (Hskip : search (mkRegExp (blockPattern findJSDoc) 4 flagsGM) 0 None
                    (before ++ blockText findJSDoc TAG text ++ after)
                  = search (mkRegExp (blockPattern findJSDoc) 4 flagsGM)
                      (length before) (lastOf before)
                      (blockText findJSDoc TAG text ++ after)).
  { destruct before as [|c before']; [reflexivity|].
    now rewrite (search_before_block findJSDoc _ (c :: before')). }
  rewrite Hskip, Hb.
  rewrite (search_here _ _ _ _ _
             (block_matchAt_at findJSDoc ch run after (length before)
                               (lastOf before) Hs Hch Hcl)).
  cbn [index matchLength groups]. now rewrite Hrun.
Qed.

Lemma block_exec_after (findJSDoc : bool) (before block after : str) :
  hasOpener findJSDoc after = false ->
  exec (mkRegExp (blockPattern findJSDoc) 4 flagsGM)
       (before ++ block ++ after) (length before + length block)
  = (None, 0).
Proof.
  intros Ho. rewrite app_assoc, <- length_app, exec_at_split.
  now rewrite (search_no_opener findJSDoc after Ho).
Qed.

Lemma firstn_skipn_inside (A : Type) (pre B post : list A) (m n : nat) :
  m + n <= length B ->
  firstn n (skipn (length pre + m) (pre ++ B ++ post))
  = firstn n (skipn m B).
Proof.
  intros H. rewrite skipn_app, skipn_all2 by lia.
  replace (length pre + m - length pre) with m by lia.
  cbn [app]. rewrite skipn_app, firstn_app, length_skipn.
  replace (n - (length B - m)) with 0 by lia.
  cbn [firstn]. now rewrite app_nil_r.
Qed.

(** The scan of a document with one block at the start of a line, for a
    parser any calls have reached. *)
Lemma block_scan_anywhere (cfg : Config.Contributions) (p : Parser)
  (findJSDoc : bool) (k : nat) (item : Config.TagItem)
  (before TAG : str) (b : ascii) (text' after : str) :
  let text := b :: text' in
  let fromTag := TAG ++ SPACE :: text ++ SPACE :: LF :: chars " */" in
  let tagged := TAG ++ SPACE :: text ++ [SPACE] in
  let activeEditor :=
    mkEditor (before ++ blockText findJSDoc TAG text ++ after) in
  let start := length before + (3 + length (gap findJSDoc))
               + length (linePrefixText findJSDoc) in
  reached cfg p ->
  highlightMultilineComments p = true ->
  atLineStart before ->
  hasOpener findJSDoc before = false ->
  hasOpener findJSDoc after = false ->
  nth_error (Config.tags cfg) k = Some item ->
  toLowerCase TAG = toLowerCase (Config.tag item) ->
  (forall j other, j < k -> nth_error (Config.tags cfg) j = Some other ->
                   ciPrefix (Config.tag other) fromTag = false) ->
  startsWithBlank fromTag = false ->
  ordinary b = true ->
  forallb notTerminator text = true ->
  hasClose (TAG ++ SPACE :: text) = false ->
  (findJSDoc = false ->
   forall other, In other (Config.tags cfg) ->
                 Config.tag other <> []
                 /\ ciPrefix (chars "/*") (Config.tag other) = false) ->
  firstn (length tagged) (skipn start (getText activeEditor)) = tagged
  /\ FindMultilineComments activeEditor findJSDoc p
     = Done (withTags
               (updateAt
                  (pushRange
                     (mkDecorationOptions
                        (newRange
                           (positionAt activeEditor start)
                           (positionAt activeEditor (start + length tagged)))))
                  k (tags p)) p).
Proof.
  intros text fromTag tagged activeEditor start Hr Hhl Hs Hob Hoa Hk Hcase
         Hearlier Hblank Hb Hline Hclose Hplain.
  apply reached_shaped in Hr.
  destruct (shaped_names cfg p Hr) as [Hnames Hesc].
  set (names := map Config.tag (Config.tags cfg)) in *.
  set (pfx := linePrefixText findJSDoc) in *.
  set (block := blockText findJSDoc TAG text) in *.
  set (regEx := mkRegExp (blockPattern findJSDoc) 4 flagsGM).
  set (commentRegEx := mkRegExp (linePattern findJSDoc names) 5 flagsIGM).
  assert (Hre : newRegExp (commentMatchString findJSDoc p) flagsIGM
                = Some commentRegEx).
  { unfold newRegExp.
    rewrite (commentMatchString_lineSource findJSDoc p Hesc), Hnames.
    rewrite line_parses. reflexivity. }
  destruct (nth_error_split_pre _ _ _ _ Hk) as [Hsplit Hlen].
  assert (Hnsplit : names
            = map Config.tag (firstn k (Config.tags cfg))
              ++ Config.tag item
              :: map Config.tag (skipn (S k) (Config.tags cfg))).
  { unfold names. rewrite Hsplit at 1. rewrite map_app. reflexivity. }
  assert (Hpre : Forall (fun n => prefixMatches flagsIGM n fromTag = false)
                        (map Config.tag (firstn k (Config.tags cfg)))).
  { apply Forall_forall. intros n Hn. apply in_map_iff in Hn.
    destruct Hn as (other & <- & Hin).
    apply In_nth_error in Hin. destruct Hin as (j & Hj).
    rewrite prefixMatches_ci by reflexivity.
    assert (Hlt : j < k).
    { rewrite <- Hlen. apply nth_error_Some. congruence. }
    apply (Hearlier j other Hlt).
    rewrite nth_error_firstn in Hj.
    destruct (j <? k) eqn:E; [exact Hj|discriminate]. }
  assert (Hsame : sameText flagsIGM (Config.tag item) TAG = true).
  { rewrite sameText_ci by reflexivity. apply str_eqb_eq. now symmetry. }
  assert (Hnplain : findJSDoc = false ->
            Forall (fun n => n <> [] /\ ciPrefix (chars "/*") n = false)
                   names).
  { intros Hp. apply Forall_forall. intros n Hn. apply in_map_iff in Hn.
    destruct Hn as (other & <- & Hin). now apply Hplain. }
  set (bm := mkMatch (length before)
               [Some block; Some []; Some (openerText findJSDoc);
                Some (gap findJSDoc ++ pfx ++ TAG
                      ++ SPACE :: text ++ [SPACE; LF; SPACE]);
                Some (chars "*/")]).
  set (ln := lineMatch findJSDoc TAG text).
  assert (B0 : exec regEx (getText activeEditor) 0
               = (Some bm, length before + length block)).
  { apply block_exec_at; assumption. }
  assert (B1 : exec regEx (getText activeEditor)
                    (length before + length block) = (None, 0)).
  { now apply block_exec_after. }
  assert (L0 : exec commentRegEx block 0
               = (Some ln, index ln + matchLength ln)).
  { apply (line_exec findJSDoc names
             (map Config.tag (firstn k (Config.tags cfg)))
             (map Config.tag (skipn (S k) (Config.tags cfg)))
             (Config.tag item) TAG b text'); assumption. }
  assert (L1 : exec commentRegEx block (index ln + matchLength ln)
               = (None, 0)).
  { apply (line_exec_end findJSDoc names
             (map Config.tag (firstn k (Config.tags cfg)))
             (map Config.tag (skipn (S k) (Config.tags cfg)))
             (Config.tag item) TAG b text'); assumption. }
  assert (Hstart : index bm + index ln + length pfx = start) by reflexivity.
  assert (Hstop : index bm + index ln + matchLength ln
                  = start + length tagged).
  { unfold start. cbn [index bm ln lineMatch matchLength groups].
    fold pfx. fold text. rewrite length_app. fold tagged. lia. }
  assert (Hbody : multilineMatch activeEditor (index bm) ln p
    = Done (withTags
              (updateAt
                 (pushRange
                    (mkDecorationOptions
                       (newRange
                          (positionAt activeEditor start)
                          (positionAt activeEditor (start + length tagged)))))
                 k (tags p)) p)).
  { unfold multilineMatch.
    replace (group 2 ln) with (Some pfx) by reflexivity.
    replace (group 3 ln) with (Some TAG) by reflexivity.
    rewrite Hstart, Hstop. unfold addRange.
    pose proof (shaped_tag_at cfg p k Hr) as Hat. rewrite Hk in Hat.
    destruct (nth_error (tags p) k) as [t|] eqn:Et; [|discriminate].
    cbn [option_map] in Hat. injection Hat as Hat.
    rewrite (findTag_first (tags p) TAG k t).
    - reflexivity.
    - exact Et.
    - rewrite Hat. now symmetry.
    - intros j t' Hj Hn Heq.
      pose proof (shaped_tag_at cfg p j Hr) as Hj'. rewrite Hn in Hj'.
      destruct (nth_error (Config.tags cfg) j) as [other|] eqn:Ej;
        [|discriminate].
      cbn [option_map] in Hj'. injection Hj' as Hj'.
      pose proof (Hearlier j other Hj Ej) as Hno.
      unfold fromTag in Hno. rewrite <- Hj' in Hno.
      rewrite (ciPrefix_of_equal _ _ _ Heq) in Hno.
      discriminate. }
  split.
  - cbn [getText activeEditor]. unfold start.
    rewrite <- Nat.add_assoc, firstn_skipn_inside.
    + apply (blockText_tagged findJSDoc TAG text).
    + fold block. unfold block. rewrite blockText_length, length_app.
      fold pfx. fold tagged. lia.
  - unfold FindMultilineComments. rewrite Hhl. cbn [negb].
    rewrite block_parses, Hre.
    apply blockLoop_one_match
      with (m := bm) (commentBlock := block)
           (last := length before + length block).
    + cbn [getText activeEditor]. rewrite !length_app. unfold block.
      rewrite blockText_length. lia.
    + exact B0.
    + unfold block. rewrite blockText_length. lia.
    + reflexivity.
    + apply lineLoop_one_match
        with (ln := ln) (last := index ln + matchLength ln).
      * unfold block. rewrite blockText_length. lia.
      * exact L0.
      * cbn [index ln lineMatch]. lia.
      * exact Hbody.
      * exact L1.
    + exact B1.
Qed.



(** The block of the witness run through the scan: one range, on the
    third line of the document. *)
Example later_block_ranges :
  option_map collected
    (match FindMultilineComments
             (mkEditor ((chars "let x = 1;" ++ [LF])
                        ++ blockText false (chars "todo") (chars "text")
                        ++ LF :: chars "let y;")) false
             (SetRegex "javascript" (newParser sampleTags))
     with Done p' => Some p' | _ => None end)
  = Some [(chars "!", []); (chars "TODO", [lineRange 2 1 11])].
Proof. vm_compute. reflexivity. Qed.

(** ** A block on one line *)

Lemma search_inside_line (re : RegExp) (r : regex) (rest : str) :
  pattern re = RSeq (plus (RGroup 1 (RSeq RBol REmpty))) r ->
  forallb notTerminator rest = true ->
  forall pos ch,
    isLineTerminator ch = false ->
    search re pos (Some ch) rest = None.
Proof.
  intros Hp. induction rest as [|c rest IH]; intros Hline pos ch Hch.
  - apply search_end. now apply (inside_line_matchAt re r).
  - cbn [forallb] in Hline. apply andb_true_iff in Hline.
    destruct Hline as [Hc Hline].
    rewrite search_skip; [|now apply (inside_line_matchAt re r)].
    apply IH; [exact Hline|].
    unfold notTerminator in Hc. now apply negb_true_iff in Hc.
Qed.

Lemma hasOpener_nil (findJSDoc : bool) : hasOpener findJSDoc [] = false.
Proof. destruct findJSDoc; reflexivity. Qed.

Lemma inlineBlock_shape (findJSDoc : bool) (t : ascii) (TAG' text : str) :
  Ascii.eqb "/" t = false ->
  hasClose (t :: TAG' ++ SPACE :: text) = false ->
  exists ch run,
    inlineBlock findJSDoc (t :: TAG') text
    = openerText findJSDoc ++ ch :: run ++ chars "*/"
    /\ Ascii.eqb "/" ch = false
    /\ hasClose (ch :: run) = false.
Proof.
  intros Ht Hclose.
  assert (Hc : hasClose ((t :: TAG' ++ SPACE :: text) ++ [SPACE]) = false).
  { change [SPACE] with (SPACE :: @nil ascii).
    now rewrite hasClose_app_blank, Hclose. }
  unfold inlineBlock. destruct findJSDoc.
  - exists SPACE, ((t :: TAG' ++ SPACE :: text) ++ [SPACE]).
    split; [|split; [reflexivity|]].
    + cbn [chars list_ascii_of_string openerText app].
      repeat (rewrite <- ?app_assoc, <- ?app_comm_cons; cbn [app]).
      reflexivity.
    + change (SPACE :: (t :: TAG' ++ SPACE :: text) ++ [SPACE])
        with ([] ++ SPACE :: (t :: TAG' ++ SPACE :: text) ++ [SPACE]).
      now rewrite hasClose_app_blank, Hc.
  - exists t, ((TAG' ++ SPACE :: text) ++ [SPACE]).
    split; [|split; [exact Ht|exact Hc]].
    cbn [chars list_ascii_of_string openerText app].
    repeat (rewrite <- ?app_assoc, <- ?app_comm_cons; cbn [app]).
    reflexivity.
Qed.


